(** * web-recorder: recorder, step store and replayer

    A shallow embedding of the click recorder (src/recorder.ts), of the
    replayer (src/automated/replay.ts) and of the alert formatter
    (src/automated/utils/email.ts), followed by the properties proved of
    them.

    JavaScript strings are sequences of UTF-16 code units: [length],
    [slice], the class [\s] of regular expressions and [trim] all work on
    code units, so a string is modelled as a list of code units.

    Awaited calls into the browser driver ([goto], [waitForTimeout],
    [evaluate]) and into the mail transport may reject; each such call takes
    its outcome from an explicit description of the outside world, and every
    side effect is appended to a trace.  Launching and closing the browser
    are taken to succeed, and console output is not modelled.

    The file has three parts: the model, the vocabulary of the statements
    with the concrete inputs used in them, and the properties. *)

From Stdlib Require Import String Ascii List NArith ZArith Lia Bool.
Import ListNotations.

(* ================================================================== *)
(** * JavaScript strings *)
(* ================================================================== *)

(** A UTF-16 code unit. *)
Definition jschar := N.

Bind Scope N_scope with jschar.

Definition jsstring := list jschar.

(** An ASCII literal of the source as a JavaScript string. *)
Definition lit (s : string) : jsstring :=
  map N_of_ascii (list_ascii_of_string s).

(** The double quote, code unit 34. *)
Definition dquote : jschar := 34%N.

(** Truthiness of a string: every string but the empty one. *)
Definition truthy (s : jsstring) : bool :=
  match s with [] => false | _ :: _ => true end.

(** Truthiness of [string | undefined] and of [string | null]. *)
Definition truthy_opt (s : option jsstring) : bool :=
  match s with Some t => truthy t | None => false end.

(** [s || ""] for an optional string. *)
Definition or_empty (s : option jsstring) : jsstring :=
  match s with Some t => t | None => [] end.

(** [a === b] on strings. *)
Fixpoint jsstring_eqb (a b : jsstring) : bool :=
  match a, b with
  | [], [] => true
  | x :: a', y :: b' => N.eqb x y && jsstring_eqb a' b'
  | _, _ => false
  end.

(** The class [\s] of ECMAScript regular expressions, which is also the set
    [String.prototype.trim] strips: WhiteSpace and LineTerminator. *)
Definition is_space (c : jschar) : bool :=
  (N.eqb c 9 || N.eqb c 10 || N.eqb c 11 || N.eqb c 12 || N.eqb c 13
   || N.eqb c 32 || N.eqb c 160 || N.eqb c 5760
   || (N.leb 8192 c && N.leb c 8202)
   || N.eqb c 8232 || N.eqb c 8233 || N.eqb c 8239 || N.eqb c 8287
   || N.eqb c 12288 || N.eqb c 65279)%N.

Fixpoint dropWhile (p : jschar -> bool) (s : jsstring) : jsstring :=
  match s with
  | [] => []
  | c :: tl => if p c then dropWhile p tl else c :: tl
  end.

Definition trimStart (s : jsstring) : jsstring := dropWhile is_space s.

Definition trimEnd (s : jsstring) : jsstring :=
  rev (dropWhile is_space (rev s)).

(** [s.trim()]. *)
Definition trim (s : jsstring) : jsstring := trimEnd (trimStart s).

(** [s.replace(/\s+/g, " ")]: every maximal run of white space becomes one
    space.  [in_run] tells that the previous code unit was white space, so
    the space of the current run is already written. *)
Fixpoint replace_ws (in_run : bool) (s : jsstring) : jsstring :=
  match s with
  | [] => []
  | c :: tl =>
      if is_space c
      then (if in_run then replace_ws true tl else 32%N :: replace_ws true tl)
      else c :: replace_ws false tl
  end.

Definition collapse_ws (s : jsstring) : jsstring := replace_ws false s.

(** [s.slice(0, n)]. *)
Definition slice0 (n : nat) (s : jsstring) : jsstring := firstn n s.

(* ------------------------------------------------------------------ *)
(** ** Numbers in template literals and in JSON *)
(* ------------------------------------------------------------------ *)

(** Decimal digits of a natural number, most significant first.  The fuel
    bounds the number of digits. *)
Fixpoint digits_fuel (fuel : nat) (n : N) (acc : jsstring) : jsstring :=
  match fuel with
  | O => acc
  | S f =>
      let acc' := (48 + n mod 10)%N :: acc in
      if (n <? 10)%N then acc' else digits_fuel f (n / 10)%N acc'
  end.

Definition N_to_decimal (n : N) : jsstring :=
  digits_fuel (S (N.to_nat (N.log2 n))) n [].

(** [String(z)] for an integer [z] (below 10^21 in absolute value, where
    JavaScript writes every digit). *)
Definition Z_to_decimal (z : Z) : jsstring :=
  match z with
  | Zneg p => 45%N :: N_to_decimal (Npos p)
  | _ => N_to_decimal (Z.to_N z)
  end.

(* ================================================================== *)
(** * Data model *)
(* ================================================================== *)

(** [ContentSnapshot] as the replayer declares it: every field optional.
    The recorder's type has the first four fields, all present. *)
Record ContentSnapshot := mkContent {
  title : option jsstring;
  h1 : option jsstring;
  firstP : option jsstring;
  metaDescription : option jsstring;
  bodySnippet : option jsstring
}.

(** [Step].  [selector] is [null] for the initial page; [isInitial] is
    the recorder's optional field, which the stored objects carry. *)
Record Step := mkStep {
  selector : option jsstring;
  url : jsstring;
  target_href : jsstring;
  content : ContentSnapshot;
  timestamp : Z;
  isInitial : option bool
}.

(** [StepResult = Step & { liveContent; pass }]. *)
Record StepResult := mkStepResult {
  r_selector : option jsstring;
  r_url : jsstring;
  r_target_href : jsstring;
  r_content : ContentSnapshot;
  r_timestamp : Z;
  r_isInitial : option bool;
  liveContent : ContentSnapshot;
  pass : bool
}.

(** The object literal [{ ...step, liveContent: live, pass }]. *)
Definition spread_result (step : Step) (live : ContentSnapshot) (p : bool)
  : StepResult :=
  {| r_selector := selector step;
     r_url := url step;
     r_target_href := target_href step;
     r_content := content step;
     r_timestamp := timestamp step;
     r_isInitial := isInitial step;
     liveContent := live;
     pass := p |}.

(** The step a result was built from. *)
Definition step_of_result (r : StepResult) : Step :=
  {| selector := r_selector r;
     url := r_url r;
     target_href := r_target_href r;
     content := r_content r;
     timestamp := r_timestamp r;
     isInitial := r_isInitial r |}.

(** The result of an awaited or throwing call: a value, or an exception
    with its message ([err.message], or [String(err)]). *)
Inductive outcome (A : Type) : Type :=
| Ok (a : A)
| Throw (err : jsstring).

Arguments Ok {A} a.
Arguments Throw {A} err.

(* ================================================================== *)
(** * Content extractor *)
(* ================================================================== *)

(** What the extractor reads of a loaded document. *)
Record Page := mkPage {
  (** [document.title] *)
  doc_title : jsstring;
  (** [textContent] of the first [h1], when there is one *)
  first_h1 : option jsstring;
  (** [textContent] of the paragraphs under [#mw-content-text], when the
      document has such an element *)
  content_root : option (list jsstring);
  (** [textContent] of every paragraph of the document *)
  all_paragraphs : list jsstring;
  (** [document.body.innerText] *)
  body_innerText : jsstring;
  (** [content] of [meta[name="description"]], when there is one *)
  meta_description : option jsstring
}.

(** The scoped candidates first, then every paragraph of the document. *)
Definition candidates (pg : Page) : list jsstring :=
  match content_root pg with
  | Some ps => ps
  | None => []
  end ++ all_paragraphs pg.

(** The loop over the candidates: the first whose collapsed, trimmed text
    is longer than 40 code units. *)
Fixpoint first_long (cands : list jsstring) : option jsstring :=
  match cands with
  | [] => None
  | p :: tl =>
      let txt := trim (collapse_ws p) in
      if Nat.ltb 40 (length txt) then Some txt else first_long tl
  end.

Definition extractFirstP (pg : Page) : jsstring :=
  match first_long (candidates pg) with
  | Some txt => txt
  | None => slice0 200 (trim (collapse_ws (body_innerText pg)))
  end.

(** The object [extractContent] evaluates to, in the recorder and in the
    replayer alike. *)
Definition extractContent (pg : Page) : ContentSnapshot :=
  {| title := Some (doc_title pg);
     h1 := Some (trim (or_empty (first_h1 pg)));
     firstP := Some (extractFirstP pg);
     metaDescription := Some (or_empty (meta_description pg));
     bodySnippet := None |}.

(** The replayer's [normalize]. *)
Definition normalize (s : option jsstring) : jsstring :=
  trim (collapse_ws (or_empty s)).

(* ================================================================== *)
(** * JSON: the values, [JSON.stringify(v, null, 2)] and [JSON.parse] *)
(* ================================================================== *)

(** The values the step store holds.  Numbers are integers (a timestamp is
    [Date.now()]); an object is the list of its properties in insertion
    order (the keys of a step are names, for which that is the order
    JavaScript keeps). *)
#[local] Unset Elimination Schemes.

Inductive json : Type :=
| JNull
| JBool (b : bool)
| JNum (z : Z)
| JStr (s : jsstring)
| JArr (items : list json)
| JObj (members : list (jsstring * json)).

#[local] Set Elimination Schemes.

(** ** Printing *)

Definition hex_digit (d : N) : jschar :=
  (if d <? 10 then 48 + d else 87 + d)%N.

(** The escape [\uXXXX], in lower case as [JSON.stringify] writes it. *)
Definition unicode_escape (c : jschar) : jsstring :=
  [92; 117;
   hex_digit ((c / 4096) mod 16); hex_digit ((c / 256) mod 16);
   hex_digit ((c / 16) mod 16); hex_digit (c mod 16)]%N.

Definition is_lead_surrogate (c : jschar) : bool :=
  (N.leb 55296 c && N.leb c 56319)%N.

Definition is_trail_surrogate (c : jschar) : bool :=
  (N.leb 56320 c && N.leb c 57343)%N.

(** QuoteJSONString without the enclosing quotes: short escapes for the
    usual control characters, the quote and the backslash, [\uXXXX] for
    the other control characters and for lone surrogates. *)
Fixpoint quote_body (s : jsstring) : jsstring :=
  match s with
  | [] => []
  | c :: tl =>
      if N.eqb c 8 then 92 :: 98 :: quote_body tl
      else if N.eqb c 9 then 92 :: 116 :: quote_body tl
      else if N.eqb c 10 then 92 :: 110 :: quote_body tl
      else if N.eqb c 12 then 92 :: 102 :: quote_body tl
      else if N.eqb c 13 then 92 :: 114 :: quote_body tl
      else if N.eqb c 34 then 92 :: 34 :: quote_body tl
      else if N.eqb c 92 then 92 :: 92 :: quote_body tl
      else if N.ltb c 32 then unicode_escape c ++ quote_body tl
      else if is_lead_surrogate c then
        match tl with
        | d :: tl' =>
            if is_trail_surrogate d then c :: d :: quote_body tl'
            else unicode_escape c ++ quote_body tl
        | [] => unicode_escape c
        end
      else if is_trail_surrogate c then unicode_escape c ++ quote_body tl
      else c :: quote_body tl
  end%N.

Definition quote (s : jsstring) : jsstring :=
  dquote :: quote_body s ++ [dquote].

(** A line feed followed by the indentation. *)
Definition newline_indent (ind : nat) : jsstring :=
  10%N :: repeat 32%N ind.

(** [JSON.stringify(v, null, 2)] at indentation [ind]. *)
Fixpoint stringify (ind : nat) (v : json) : jsstring :=
  match v with
  | JNull => lit "null"
  | JBool true => lit "true"
  | JBool false => lit "false"
  | JNum z => Z_to_decimal z
  | JStr s => quote s
  | JArr [] => lit "[]"
  | JArr (x :: xs) =>
      91%N :: newline_indent (2 + ind) ++ stringify (2 + ind) x
        ++ flat_map (fun y =>
             44%N :: newline_indent (2 + ind) ++ stringify (2 + ind) y) xs
        ++ newline_indent ind ++ [93%N]
  | JObj [] => lit "{}"
  | JObj (m :: ms) =>
      123%N :: newline_indent (2 + ind)
        ++ quote (fst m) ++ 58%N :: 32%N :: stringify (2 + ind) (snd m)
        ++ flat_map (fun kv =>
             44%N :: newline_indent (2 + ind)
               ++ quote (fst kv) ++ 58%N :: 32%N
               :: stringify (2 + ind) (snd kv)) ms
        ++ newline_indent ind ++ [125%N]
  end.

Definition JSON_stringify (v : json) : jsstring := stringify 0 v.

(** ** Parsing *)

Definition is_json_ws (c : jschar) : bool :=
  (N.eqb c 32 || N.eqb c 9 || N.eqb c 10 || N.eqb c 13)%N.

Definition skip_ws (s : jsstring) : jsstring := dropWhile is_json_ws s.

Definition is_digit (c : jschar) : bool := (N.leb 48 c && N.leb c 57)%N.

Definition hex_val (c : jschar) : option N :=
  (if N.leb 48 c && N.leb c 57 then Some (c - 48)
   else if N.leb 97 c && N.leb c 102 then Some (c - 87)
   else if N.leb 65 c && N.leb c 70 then Some (c - 55)
   else None)%N.

Definition hex4 (a b c d : jschar) : option jschar :=
  match hex_val a, hex_val b, hex_val c, hex_val d with
  | Some x, Some y, Some z, Some w => Some (x * 4096 + y * 256 + z * 16 + w)%N
  | _, _, _, _ => None
  end.

(** The character a two-character escape stands for. *)
Definition simple_escape (e : jschar) : option jschar :=
  (if N.eqb e 34 then Some 34
   else if N.eqb e 92 then Some 92
   else if N.eqb e 47 then Some 47
   else if N.eqb e 98 then Some 8
   else if N.eqb e 102 then Some 12
   else if N.eqb e 110 then Some 10
   else if N.eqb e 114 then Some 13
   else if N.eqb e 116 then Some 9
   else None)%N.

Definition prepend (c : jschar) (r : option (jsstring * jsstring))
  : option (jsstring * jsstring) :=
  match r with
  | Some (s, rest) => Some (c :: s, rest)
  | None => None
  end.

(** The characters of a string literal after its opening quote, up to and
    including the closing quote. *)
Fixpoint parse_string_body (s : jsstring) : option (jsstring * jsstring) :=
  match s with
  | [] => None
  | c :: tl =>
      if N.eqb c 34 then Some ([], tl)
      else if N.eqb c 92 then
        match tl with
        | [] => None
        | e :: tl1 =>
            if N.eqb e 117 then
              match tl1 with
              | x :: y :: z :: w :: tl2 =>
                  match hex4 x y z w with
                  | Some u => prepend u (parse_string_body tl2)
                  | None => None
                  end
              | _ => None
              end
            else
              match simple_escape e with
              | Some u => prepend u (parse_string_body tl1)
              | None => None
              end
        end
      else if N.ltb c 32 then None
      else prepend c (parse_string_body tl)
  end.

Fixpoint parse_digits (acc : N) (s : jsstring) : N * jsstring :=
  match s with
  | [] => (acc, [])
  | c :: tl =>
      if is_digit c then parse_digits (10 * acc + (c - 48))%N tl
      else (acc, s)
  end.

(** The integer part of a number: a lone zero, or digits that do not start
    with a zero. *)
Definition parse_nat (s : jsstring) : option (N * jsstring) :=
  match s with
  | [] => None
  | c :: tl =>
      if N.eqb c 48 then
        match tl with
        | d :: _ => if is_digit d then None else Some (0%N, tl)
        | [] => Some (0%N, tl)
        end
      else if is_digit c then Some (parse_digits 0 s)
      else None
  end.

(** A fraction or an exponent follows: the number is outside the integers
    this model holds, and the parse is given up. *)
Definition integer_ends (rest : jsstring) : bool :=
  match rest with
  | c :: _ => negb (N.eqb c 46 || N.eqb c 101 || N.eqb c 69)
  | [] => true
  end.

Definition parse_number (s : jsstring) : option (Z * jsstring) :=
  match s with
  | c :: tl =>
      if N.eqb c 45 then
        match parse_nat tl with
        | Some (n, rest) =>
            if integer_ends rest then Some (Z.opp (Z.of_N n), rest) else None
        | None => None
        end
      else
        match parse_nat s with
        | Some (n, rest) =>
            if integer_ends rest then Some (Z.of_N n, rest) else None
        | None => None
        end
  | [] => None
  end.

Fixpoint strip_prefix (p s : jsstring) : option jsstring :=
  match p, s with
  | [], _ => Some s
  | x :: p', y :: s' => if N.eqb x y then strip_prefix p' s' else None
  | _ :: _, [] => None
  end.

(** Assignment to a property: an existing key keeps its place and takes the
    new value, a new key goes last. *)
Fixpoint obj_set (k : jsstring) (v : json) (o : list (jsstring * json))
  : list (jsstring * json) :=
  match o with
  | [] => [(k, v)]
  | (k', v') :: tl =>
      if jsstring_eqb k k' then (k', v) :: tl else (k', v') :: obj_set k v tl
  end.

(** The object a list of parsed members makes: of a repeated key the last
    value stays. *)
Definition build_object (ms : list (jsstring * json))
  : list (jsstring * json) :=
  fold_left (fun o kv => obj_set (fst kv) (snd kv) o) ms [].

(** Recursive descent.  [parse_elements] reads the elements of an array
    after its bracket up to and including the closing bracket,
    [parse_members] the members of an object likewise.  Every call uses one
    unit of fuel. *)
Fixpoint parse_value (fuel : nat) (s : jsstring) {struct fuel}
  : option (json * jsstring) :=
  match fuel with
  | O => None
  | S f =>
      match skip_ws s with
      | [] => None
      | c :: tl =>
          if N.eqb c 110 then
            match strip_prefix (lit "ull") tl with
            | Some r => Some (JNull, r)
            | None => None
            end
          else if N.eqb c 116 then
            match strip_prefix (lit "rue") tl with
            | Some r => Some (JBool true, r)
            | None => None
            end
          else if N.eqb c 102 then
            match strip_prefix (lit "alse") tl with
            | Some r => Some (JBool false, r)
            | None => None
            end
          else if N.eqb c 34 then
            match parse_string_body tl with
            | Some (str, r) => Some (JStr str, r)
            | None => None
            end
          else if N.eqb c 91 then
            match skip_ws tl with
            | [] => None
            | d :: r =>
                if N.eqb d 93 then Some (JArr [], r)
                else
                  match parse_elements f tl with
                  | Some (vs, r') => Some (JArr vs, r')
                  | None => None
                  end
            end
          else if N.eqb c 123 then
            match skip_ws tl with
            | [] => None
            | d :: r =>
                if N.eqb d 125 then Some (JObj [], r)
                else
                  match parse_members f tl with
                  | Some (ms, r') => Some (JObj (build_object ms), r')
                  | None => None
                  end
            end
          else
            match parse_number (c :: tl) with
            | Some (z, r) => Some (JNum z, r)
            | None => None
            end
      end
  end

with parse_elements (fuel : nat) (s : jsstring) {struct fuel}
  : option (list json * jsstring) :=
  match fuel with
  | O => None
  | S f =>
      match parse_value f s with
      | None => None
      | Some (v, r) =>
          match skip_ws r with
          | [] => None
          | c :: r' =>
              if N.eqb c 44 then
                match parse_elements f r' with
                | Some (vs, r'') => Some (v :: vs, r'')
                | None => None
                end
              else if N.eqb c 93 then Some ([v], r')
              else None
          end
      end
  end

with parse_members (fuel : nat) (s : jsstring) {struct fuel}
  : option (list (jsstring * json) * jsstring) :=
  match fuel with
  | O => None
  | S f =>
      match skip_ws s with
      | [] => None
      | q :: tl =>
          if N.eqb q 34 then
            match parse_string_body tl with
            | None => None
            | Some (k, r) =>
                match skip_ws r with
                | [] => None
                | c :: r1 =>
                    if N.eqb c 58 then
                      match parse_value f r1 with
                      | None => None
                      | Some (v, r2) =>
                          match skip_ws r2 with
                          | [] => None
                          | c' :: r3 =>
                              if N.eqb c' 44 then
                                match parse_members f r3 with
                                | Some (ms, r4) => Some ((k, v) :: ms, r4)
                                | None => None
                                end
                              else if N.eqb c' 125 then Some ([(k, v)], r3)
                              else None
                          end
                      end
                    else None
                end
            end
          else None
      end
  end.

(** [JSON.parse(text)]: one value, then nothing but white space.  A text
    that is no JSON document throws a SyntaxError.  The fuel comes from the
    length of the text, which is enough for every printed document. *)
Definition JSON_parse (text : jsstring) : outcome json :=
  match parse_value (S (length text)) text with
  | Some (v, rest) =>
      match skip_ws rest with
      | [] => Ok v
      | _ :: _ => Throw (lit "SyntaxError")
      end
  | None => Throw (lit "SyntaxError")
  end.

(* ================================================================== *)
(** * Effects: the file system, the trace, and a state-and-exception monad *)
(* ================================================================== *)

(** The part of the file system the programs touch: the directories made
    and the content of the files written. *)
Record FileSystem := mkFS {
  dirs : list jsstring;
  files : jsstring -> option jsstring
}.

Definition empty_fs : FileSystem :=
  {| dirs := []; files := fun _ => None |}.

Definition existsSync (p : jsstring) (d : FileSystem) : bool :=
  match files d p with
  | Some _ => true
  | None => existsb (jsstring_eqb p) (dirs d)
  end.

Definition mkdirSync (p : jsstring) (d : FileSystem) : FileSystem :=
  {| dirs := p :: dirs d; files := files d |}.

(** [fs.writeFileSync(p, data)]: the whole file is replaced. *)
Definition writeFileSync (p data : jsstring) (d : FileSystem) : FileSystem :=
  {| dirs := dirs d;
     files := fun q => if jsstring_eqb q p then Some data else files d q |}.

Definition readFileSync (p : jsstring) (d : FileSystem) : outcome jsstring :=
  match files d p with
  | Some data => Ok data
  | None => Throw (lit "ENOENT")
  end.

(** [path.join(a, b)] for a directory and a plain name. *)
Definition path_join (a b : jsstring) : jsstring := a ++ 47%N :: b.

(** What the programs do to the outside world, in the order they do it.
    [SendMail] is the call of the transport's [sendMail]; console output is
    left out. *)
Inductive event : Type :=
| Launch (headless : bool)
| Goto (target : jsstring)
| WaitForTimeout (ms : Z)
| Evaluate
| SendMail (subject html : jsstring)
| BrowserClose
| WriteFile (path data : jsstring)
| Exit (code : Z).

(** A computation over a state [S] that returns or throws. *)
Definition M (S A : Type) : Type := S -> outcome A * S.

Definition ret {S A : Type} (a : A) : M S A := fun s => (Ok a, s).

Definition bind {S A B : Type} (m : M S A) (k : A -> M S B) : M S B :=
  fun s =>
    match m s with
    | (Ok a, s') => k a s'
    | (Throw e, s') => (Throw e, s')
    end.

(** An awaited promise that settles as the outside world says. *)
Definition await {S A : Type} (o : outcome A) : M S A := fun s => (o, s).

Definition modify {S : Type} (f : S -> S) : M S unit :=
  fun s => (Ok tt, f s).

Definition gets {S A : Type} (f : S -> A) : M S A := fun s => (Ok (f s), s).

(** [try { body } catch (err) { handler(err) } finally { fin }]. *)
Definition try_catch_finally {S : Type}
  (body : M S unit) (handler : jsstring -> M S unit) (fin : M S unit)
  : M S unit :=
  fun s =>
    match body s with
    | (Ok _, s1) => fin s1
    | (Throw e, s1) =>
        match handler e s1 with
        | (Ok _, s2) => fin s2
        | (Throw e', s2) =>
            match fin s2 with
            | (Ok _, s3) => (Throw e', s3)
            | (Throw e'', s3) => (Throw e'', s3)
            end
        end
    end.

Declare Scope js_scope.
Delimit Scope js_scope with js.

Notation "x <- m ;; k" := (bind m (fun x => k))
  (at level 61, m at next level, right associativity) : js_scope.
Notation "m ;; k" := (bind m (fun _ => k))
  (at level 61, right associativity) : js_scope.

(* ================================================================== *)
(** * Step store: the document written and the typed view of it *)
(* ================================================================== *)

(** A property that is [undefined] is left out by [JSON.stringify]. *)
Definition opt_member {A : Type} (k : string) (f : A -> json) (o : option A)
  : list (jsstring * json) :=
  match o with
  | Some a => [(lit k, f a)]
  | None => []
  end.

Definition content_to_json (c : ContentSnapshot) : json :=
  JObj (opt_member "title" JStr (title c)
        ++ opt_member "h1" JStr (h1 c)
        ++ opt_member "firstP" JStr (firstP c)
        ++ opt_member "metaDescription" JStr (metaDescription c)
        ++ opt_member "bodySnippet" JStr (bodySnippet c)).

Definition step_to_json (s : Step) : json :=
  JObj ([(lit "selector",
           match selector s with Some x => JStr x | None => JNull end);
         (lit "url", JStr (url s));
         (lit "target_href", JStr (target_href s));
         (lit "content", content_to_json (content s));
         (lit "timestamp", JNum (timestamp s))]
        ++ opt_member "isInitial" JBool (isInitial s)).

Definition steps_to_json (steps : list Step) : json :=
  JArr (map step_to_json steps).

Fixpoint obj_get (k : jsstring) (o : list (jsstring * json)) : option json :=
  match o with
  | [] => None
  | (k', v) :: tl => if jsstring_eqb k k' then Some v else obj_get k tl
  end.

(** A property of type [string | undefined]. *)
Definition get_opt_string (k : string) (o : list (jsstring * json))
  : option (option jsstring) :=
  match obj_get (lit k) o with
  | None => Some None
  | Some (JStr s) => Some (Some s)
  | Some _ => None
  end.

Definition get_string (k : string) (o : list (jsstring * json))
  : option jsstring :=
  match obj_get (lit k) o with
  | Some (JStr s) => Some s
  | _ => None
  end.

(** The cast [as ContentSnapshot]: the value read at the declared type.
    [None] when the value does not have that type. *)
Definition content_of_json (v : json) : option ContentSnapshot :=
  match v with
  | JObj o =>
      match get_opt_string "title" o, get_opt_string "h1" o,
            get_opt_string "firstP" o, get_opt_string "metaDescription" o,
            get_opt_string "bodySnippet" o with
      | Some t, Some h, Some p, Some m, Some b => Some (mkContent t h p m b)
      | _, _, _, _, _ => None
      end
  | _ => None
  end.

Definition step_of_json (v : json) : option Step :=
  match v with
  | JObj o =>
      match
        match obj_get (lit "selector") o with
        | Some JNull => Some None
        | Some (JStr s) => Some (Some s)
        | _ => None
        end,
        get_string "url" o, get_string "target_href" o,
        match obj_get (lit "content") o with
        | Some c => content_of_json c
        | None => None
        end,
        match obj_get (lit "timestamp") o with
        | Some (JNum z) => Some z
        | _ => None
        end,
        match obj_get (lit "isInitial") o with
        | None => Some None
        | Some (JBool b) => Some (Some b)
        | Some _ => None
        end
      with
      | Some sel, Some u, Some t, Some c, Some ts, Some ini =>
          Some (mkStep sel u t c ts ini)
      | _, _, _, _, _, _ => None
      end
  | _ => None
  end.

Fixpoint all_some {A : Type} (l : list (option A)) : option (list A) :=
  match l with
  | [] => Some []
  | Some a :: tl =>
      match all_some tl with
      | Some r => Some (a :: r)
      | None => None
      end
  | None :: _ => None
  end.

(** The cast [as Step[]]. *)
Definition steps_of_json (v : json) : option (list Step) :=
  match v with
  | JArr items => all_some (map step_of_json items)
  | _ => None
  end.

(* ================================================================== *)
(** * Recorder (src/recorder.ts) *)
(* ================================================================== *)

Module Recorder.

Local Open Scope js_scope.

(** ** Page side: the click listener *)

(** What the listener reads of the anchor [e.target.closest("a")]. *)
Record Anchor := mkAnchor {
  (** [a.id], empty without an id *)
  a_id : jsstring;
  (** [a.href], the resolved address, empty without an href attribute *)
  a_href : jsstring;
  (** [a.getAttribute("href")] *)
  a_href_attribute : option jsstring
}.

(** The argument of [recordClick]. *)
Record ClickPayload := mkPayload {
  payload_href : jsstring;
  payload_selector : jsstring
}.

(** What one run of the listener does: whether it called
    [e.preventDefault()], and what it passed to [recordClick]. *)
Record ListenerEffect := mkEffect {
  defaultPrevented : bool;
  notification : option ClickPayload
}.

(** [let selector = ""; if (a.id) ... else if (a.getAttribute("href")) ...] *)
Definition derive_selector (a : Anchor) : jsstring :=
  if truthy (a_id a) then lit "a#" ++ a_id a
  else if truthy_opt (a_href_attribute a)
       then lit "a[href=" ++ dquote :: or_empty (a_href_attribute a)
              ++ [dquote; 93%N]
       else [].

(** The capturing click listener; [closest] is the anchor the click landed
    in, if any. *)
Definition clickListener (closest : option Anchor) : ListenerEffect :=
  match closest with
  | None => mkEffect false None
  | Some a =>
      if negb (truthy (a_href a)) then mkEffect false None
      else
        let selector := derive_selector a in
        if negb (truthy selector) then mkEffect false None
        else mkEffect true (Some (mkPayload (a_href a) selector))
  end.

(** ** Host side *)

Section Host.

(** [process.cwd()]. *)
Variable cwd : jsstring.

Definition OUT_DIR : jsstring := path_join cwd (lit "baseline").
Definition OUT_FILE : jsstring := path_join OUT_DIR (lit "steps.json").

Definition startUrl : jsstring := lit "https://en.wikipedia.org/wiki/Tiger".

(** The variables of [main] and the world around it.  [closePending]: the
    shutdown procedure waits on [browser.close()]; [terminated]:
    [process.exit] was called. *)
Record State := mkState {
  steps : list Step;
  shuttingDown : bool;
  closePending : bool;
  terminated : bool;
  disk : FileSystem;
  trace : list event
}.

Definition initial_state (d : FileSystem) : State :=
  mkState [] false false false d [].

Definition emit (e : event) : M State unit :=
  modify (fun st =>
    mkState (steps st) (shuttingDown st) (closePending st) (terminated st)
            (disk st) (trace st ++ [e])).

Definition set_disk (d : FileSystem) (st : State) : State :=
  mkState (steps st) (shuttingDown st) (closePending st) (terminated st)
          d (trace st).

Definition ensureOutDir : M State unit :=
  modify (fun st =>
    if existsSync OUT_DIR (disk st) then st
    else set_disk (mkdirSync OUT_DIR (disk st)) st).

(** [saveSteps(steps)]: the whole sequence, every time. *)
Definition saveSteps (l : list Step) : M State unit :=
  ensureOutDir ;;
  modify (fun st =>
    set_disk (writeFileSync OUT_FILE (JSON_stringify (steps_to_json l))
                (disk st)) st) ;;
  emit (WriteFile OUT_FILE (JSON_stringify (steps_to_json l))).

(** [steps.push(step)]. *)
Definition push_step (s : Step) : M State unit :=
  modify (fun st =>
    mkState (steps st ++ [s]) (shuttingDown st) (closePending st)
            (terminated st) (disk st) (trace st)).

(** What the outside world answers while one notification is handled. *)
Record ClickWorld := mkClickWorld {
  (** [page.url()] when the binding is called *)
  page_url : jsstring;
  (** [new URL(payload.href, fromUrl).href] *)
  resolved : outcome jsstring;
  (** [page.goto(rawTarget)], then [page.url()] *)
  navigation : outcome jsstring;
  (** the document [extractContent] waits for and reads *)
  loaded : outcome Page;
  (** [Date.now()] *)
  now : Z
}.

(** The binding [recordClick]. *)
Definition recordClick (payload : ClickPayload) (w : ClickWorld)
  : M State unit :=
  let fromUrl := page_url w in
  rawTarget <- await (resolved w) ;;
  if negb (truthy (payload_selector payload))
     || jsstring_eqb (payload_selector payload) (lit "a")
  then ret tt
  else
    emit (Goto rawTarget) ;;
    finalUrl <- await (navigation w) ;;
    emit Evaluate ;;
    pg <- await (loaded w) ;;
    let step :=
      {| selector := Some (payload_selector payload);
         url := fromUrl;
         target_href := finalUrl;
         content := extractContent pg;
         timestamp := now w;
         isInitial := None |} in
    push_step step ;;
    l <- gets steps ;;
    saveSteps l.

(** One click in the page: the listener, then the binding when the
    listener calls it.  An exception of the binding goes back to the page;
    the host keeps the state reached.  A terminated process runs nothing. *)
Definition click (closest : option Anchor) (w : ClickWorld) (st : State)
  : State :=
  if terminated st then st
  else
    match notification (clickListener closest) with
    | None => st
    | Some payload => snd (recordClick payload w st)
    end.

(** [gracefulExit] up to [await browser.close()]. *)
Definition gracefulExit (st : State) : State :=
  if terminated st then st
  else if shuttingDown st then st
  else
    let st1 :=
      mkState (steps st) true (closePending st) (terminated st)
              (disk st) (trace st) in
    let st2 := snd ((saveSteps (steps st1) ;; emit BrowserClose) st1) in
    mkState (steps st2) (shuttingDown st2) true (terminated st2)
            (disk st2) (trace st2).

(** The rest of [gracefulExit], once [browser.close()] has settled:
    [process.exit(0)]. *)
Definition gracefulExit_resume (st : State) : State :=
  if terminated st then st
  else if closePending st then
    mkState (steps st) (shuttingDown st) false true (disk st)
            (trace st ++ [Exit 0])
  else st.

(** What can happen to the recorder once it listens: the page, the context,
    the browser or a signal calls [gracefulExit]; the pending
    [browser.close()] settles. *)
Inductive action : Type :=
| Trigger
| CloseSettled.

Definition step_action (st : State) (a : action) : State :=
  match a with
  | Trigger => gracefulExit st
  | CloseSettled => gracefulExit_resume st
  end.

Definition run (schedule : list action) (st : State) : State :=
  fold_left step_action schedule st.

(** What the outside world answers while the start page is opened. *)
Record StartWorld := mkStartWorld {
  start_navigation : outcome jsstring;
  start_wait : outcome unit;
  start_loaded : outcome Page;
  start_now : Z
}.

(** [main], once the handlers, the binding and the init script are
    installed: open the start page and record the initial step. *)
Definition main (w : StartWorld) : M State unit :=
  ensureOutDir ;;
  emit (Launch false) ;;
  emit (Goto startUrl) ;;
  finalUrl <- await (start_navigation w) ;;
  emit (WaitForTimeout 1500) ;;
  await (start_wait w) ;;
  emit Evaluate ;;
  pg <- await (start_loaded w) ;;
  push_step
    {| selector := None;
       url := startUrl;
       target_href := finalUrl;
       content := extractContent pg;
       timestamp := start_now w;
       isInitial := Some true |} ;;
  l <- gets steps ;;
  saveSteps l.

End Host.

End Recorder.

Definition count_writes (p : jsstring) (t : list event) : nat :=
  length (filter (fun e => match e with
                           | WriteFile q _ => jsstring_eqb q p
                           | _ => false
                           end) t).

Definition count_exits (t : list event) : nat :=
  length (filter (fun e => match e with Exit _ => true | _ => false end) t).

Definition is_send (e : event) : bool :=
  match e with SendMail _ _ => true | _ => false end.

(** The mails handed to the transport, in order. *)
Definition sends (t : list event) : list event := filter is_send t.

(* ================================================================== *)
(** * Alert formatter (src/automated/utils/email.ts) *)
(* ================================================================== *)

Module Email.

(** The argument of [buildMinimalFailureEmail]. *)
Record FailureData := mkFailureData {
  fd_step : Z;
  fd_url : jsstring;
  recordedFirstP : jsstring;
  liveFirstP : jsstring;
  reason : option jsstring
}.

(** The cross mark of the heading, U+274C. *)
Definition cross_mark : jschar := 10060%N.

Definition reason_paragraph (r : option jsstring) : jsstring :=
  if truthy_opt r
  then lit "<p><strong>Reason:</strong> " ++ or_empty r ++ lit "</p>"
  else [].

Definition buildMinimalFailureEmail (data : FailureData) : jsstring :=
  lit "
    <h2 style=" ++ dquote :: lit "color:red;" ++ dquote :: lit ">"
  ++ cross_mark :: lit " Web Replay Failed</h2>

    <p><strong>Step:</strong> " ++ Z_to_decimal (fd_step data) ++ lit "</p>
    <p><strong>URL:</strong> " ++ fd_url data ++ lit "</p>

    " ++ reason_paragraph (reason data) ++ lit "

    <hr/>

    <p><strong>Recorded firstP:</strong></p>
    <pre>" ++ recordedFirstP data ++ lit "</pre>

    <p><strong>Replayed firstP:</strong></p>
    <pre>" ++ liveFirstP data ++ lit "</pre>
  ".

End Email.

(* ================================================================== *)
(** * Replayer (src/automated/replay.ts) *)
(* ================================================================== *)

(** The repository also holds an older variant of the replayer, which
    reads [steps/steps.json], checks no configuration and sends a fixed
    reason with the crash alert.  The model follows
    src/automated/replay.ts. *)

Module Replayer.

Local Open Scope js_scope.

Import Email.

(** The environment variables read. *)
Record Env := mkEnv {
  EMAIL_HOST : option jsstring;
  EMAIL_PORT : option jsstring;
  EMAIL_USER : option jsstring;
  EMAIL_PASS : option jsstring;
  ALERT_TO : option jsstring;
  HEADLESS : option jsstring
}.

(** What the outside world answers while one step is replayed: the
    navigation, the wait after it, the document read, the mail transport
    (asked only when an alert is sent at this step) and the closing wait. *)
Record StepWorld := mkStepWorld {
  goto_result : outcome unit;
  settle_result : outcome unit;
  evaluate_result : outcome Page;
  send_result : outcome unit;
  pause_result : outcome unit
}.

(** The world of one run. *)
Record World := mkWorld {
  env : Env;
  disk0 : FileSystem;
  at_step : nat -> StepWorld;
  (** the mail transport, when asked to send the crash alert *)
  crash_send_result : outcome unit
}.

(** The variables of [main], the file system and the trace. *)
Record State := mkState {
  results : list StepResult;
  hasMismatch : bool;
  failureEmailSent : bool;
  disk : FileSystem;
  trace : list event
}.

Definition initial_state (d : FileSystem) : State :=
  mkState [] false false d [].

Definition emit (e : event) : M State unit :=
  modify (fun st =>
    mkState (results st) (hasMismatch st) (failureEmailSent st) (disk st)
            (trace st ++ [e])).

Definition set_hasMismatch : M State unit :=
  modify (fun st =>
    mkState (results st) true (failureEmailSent st) (disk st) (trace st)).

Definition set_failureEmailSent : M State unit :=
  modify (fun st =>
    mkState (results st) (hasMismatch st) true (disk st) (trace st)).

(** [results.push(r)]. *)
Definition push_result (r : StepResult) : M State unit :=
  modify (fun st =>
    mkState (results st ++ [r]) (hasMismatch st) (failureEmailSent st)
            (disk st) (trace st)).

(** [sendFailureEmail(subject, html)]: the transport is called, and the
    promise settles as the transport answers. *)
Definition sendFailureEmail (subject html : jsstring) (answer : outcome unit)
  : M State unit :=
  emit (SendMail subject html) ;;
  await answer.

(** The subjects, with the code units the source file holds. *)
Definition failed_subject : jsstring :=
  [226; 338]%N ++ lit " Web Replay Verification Failed".

Definition crashed_subject : jsstring :=
  [240; 376; 8221; 165]%N ++ lit " Web Replay Crashed".

(** [s || "<empty>"]. *)
Definition or_empty_mark (s : jsstring) : jsstring :=
  if truthy s then s else lit "<empty>".

(** [recordedFP === liveFP], the comparison of one step. *)
Definition compare (step : Step) (live : ContentSnapshot) : bool :=
  jsstring_eqb (normalize (firstP (content step))) (normalize (firstP live)).

(** The alert of a failed comparison at index [i]. *)
Definition mismatch_mail (i : nat) (step : Step) (live : ContentSnapshot)
  : event :=
  SendMail failed_subject
    (buildMinimalFailureEmail
       {| fd_step := Z.of_nat i + 1;
          fd_url := target_href step;
          recordedFirstP := or_empty_mark (normalize (firstP (content step)));
          liveFirstP := or_empty_mark (normalize (firstP live));
          reason := None |}).

(** The alert of a crash with message [err]. *)
Definition crash_mail (err : jsstring) : event :=
  SendMail crashed_subject
    (buildMinimalFailureEmail
       {| fd_step := (-1)%Z;
          fd_url := lit "N/A";
          recordedFirstP := [];
          liveFirstP := [];
          reason := Some err |}).

(** The body of the loop for the step at index [i]. *)
Definition replay_step (w : StepWorld) (i : nat) (step : Step)
  : M State unit :=
  emit (Goto (target_href step)) ;;
  await (goto_result w) ;;
  emit (WaitForTimeout 1000) ;;
  await (settle_result w) ;;
  emit Evaluate ;;
  pg <- await (evaluate_result w) ;;
  let live := extractContent pg in
  let recordedFP := normalize (firstP (content step)) in
  let liveFP := normalize (firstP live) in
  let pass := jsstring_eqb recordedFP liveFP in
  (if negb pass then set_hasMismatch else ret tt) ;;
  push_result (spread_result step live pass) ;;
  sent <- gets failureEmailSent ;;
  (if negb pass && negb sent
   then
     set_failureEmailSent ;;
     sendFailureEmail failed_subject
       (buildMinimalFailureEmail
          {| fd_step := Z.of_nat i + 1;
             fd_url := target_href step;
             recordedFirstP := or_empty_mark recordedFP;
             liveFirstP := or_empty_mark liveFP;
             reason := None |})
       (send_result w)
   else ret tt) ;;
  emit (WaitForTimeout 500) ;;
  await (pause_result w).

(** [for (let i = 0; i < steps.length; i++)], from index [i] on. *)
Fixpoint replay_loop (at_step : nat -> StepWorld) (i : nat) (l : list Step)
  : M State unit :=
  match l with
  | [] => ret tt
  | step :: rest =>
      replay_step (at_step i) i step ;;
      replay_loop at_step (S i) rest
  end.

(** The [catch] block. *)
Definition on_crash (answer : outcome unit) (err : jsstring) : M State unit :=
  sent <- gets failureEmailSent ;;
  if negb sent
  then
    sendFailureEmail crashed_subject
      (buildMinimalFailureEmail
         {| fd_step := (-1)%Z;
            fd_url := lit "N/A";
            recordedFirstP := [];
            liveFirstP := [];
            reason := Some err |})
      answer
  else ret tt.

(** A template hole filled with a property that may be [undefined]. *)
Definition in_template (s : option jsstring) : jsstring :=
  match s with
  | Some t => t
  | None => lit "undefined"
  end.

(** The dash of the step headings, with the code units the source file
    holds. *)
Definition heading_dash : jsstring := [226; 8364; 8221]%N.

Definition verdict_span (p : bool) : jsstring :=
  lit "<span class=" ++ dquote :: lit (if p then "pass" else "fail")
  ++ dquote :: lit ">" ++ lit (if p then "PASS" else "FAIL")
  ++ lit "</span>".

(** The block of the result at index [i]. *)
Definition report_block (i : nat) (r : StepResult) : jsstring :=
  lit "
    <div class=" ++ dquote :: lit "step" ++ dquote :: lit ">
      <h2>Step " ++ Z_to_decimal (Z.of_nat i + 1) ++ lit " "
  ++ heading_dash ++ lit " " ++ verdict_span (pass r) ++ lit "</h2>
      <p><strong>Opened URL:</strong> " ++ r_target_href r ++ lit "</p>
      <pre>" ++ in_template (firstP (r_content r)) ++ lit "</pre>
      <pre>" ++ in_template (firstP (liveContent r)) ++ lit "</pre>
    </div>
  ".

(** [results.map((r, i) => ...).join("")], from index [i] on. *)
Fixpoint report_blocks (i : nat) (rs : list StepResult) : jsstring :=
  match rs with
  | [] => []
  | r :: tl => report_block i r ++ report_blocks (S i) tl
  end.

Definition reportHtml (rs : list StepResult) : jsstring :=
  lit "
<html>
<head>
  <title>Replay Report</title>
  <style>
    body { font-family: sans-serif; padding: 20px; }
    .step { border: 1px solid #ccc; margin-bottom: 15px; padding: 10px; }
    .pass { color: green; font-weight: bold; }
    .fail { color: red; font-weight: bold; }
    pre { white-space: pre-wrap; }
  </style>
</head>
<body>
  <h1>Web Replay Report</h1>
  " ++ report_blocks 0 rs ++ lit "
</body>
</html>
".

Section Main.

(** [process.cwd()]. *)
Variable cwd : jsstring.

Definition OUT_DIR : jsstring := path_join cwd (lit "baseline").
Definition OUT_FILE : jsstring := path_join OUT_DIR (lit "steps.json").
Definition REPORT_FILE : jsstring := path_join cwd (lit "replay-report.html").

(** [loadSteps()].  A document that is not an array of steps is outside
    the type the cast asserts; it is treated as a failed load. *)
Definition loadSteps (d : FileSystem) : outcome (list Step) :=
  if negb (existsSync OUT_FILE d)
  then Throw (OUT_FILE ++ lit " not found. Run recorder first.")
  else
    match readFileSync OUT_FILE d with
    | Throw e => Throw e
    | Ok text =>
        match JSON_parse text with
        | Throw e => Throw e
        | Ok v =>
            match steps_of_json v with
            | Some l => Ok l
            | None => Throw (lit "TypeError")
            end
        end
    end.

(** How a run of [main] ends: [process.exit(code)], the end of [main], or
    an exception nothing catches. *)
Inductive ending : Type :=
| Exited (code : Z)
| Completed
| Uncaught (err : jsstring).

(** The exit code of the process. *)
Definition exit_code (e : ending) : Z :=
  match e with
  | Exited code => code
  | Completed => 0%Z
  | Uncaught _ => 1%Z
  end.

(** [!EMAIL_HOST || !EMAIL_PORT || !EMAIL_USER || !EMAIL_PASS || !ALERT_TO] *)
Definition config_missing (e : Env) : bool :=
  negb (truthy_opt (EMAIL_HOST e)) || negb (truthy_opt (EMAIL_PORT e))
  || negb (truthy_opt (EMAIL_USER e)) || negb (truthy_opt (EMAIL_PASS e))
  || negb (truthy_opt (ALERT_TO e)).

(** [process.env.HEADLESS !== "false"] *)
Definition headless (e : Env) : bool :=
  match HEADLESS e with
  | Some s => negb (jsstring_eqb s (lit "false"))
  | None => true
  end.

(** [main] from the launch of the browser on. *)
Definition replay (w : World) (l : list Step) : M State unit :=
  emit (Launch (headless (env w))) ;;
  try_catch_finally
    (replay_loop (at_step w) 0 l)
    (on_crash (crash_send_result w))
    (emit BrowserClose) ;;
  rs <- gets results ;;
  modify (fun st =>
    mkState (results st) (hasMismatch st) (failureEmailSent st)
            (writeFileSync REPORT_FILE (reportHtml rs) (disk st))
            (trace st)) ;;
  emit (WriteFile REPORT_FILE (reportHtml rs)).

(** [main]. *)
Definition main (w : World) : ending * State :=
  let st0 := initial_state (disk0 w) in
  match loadSteps (disk0 w) with
  | Throw _ => (Exited 1, snd (emit (Exit 1) st0))
  | Ok l =>
      match l with
      | [] => (Exited 0, snd (emit (Exit 0) st0))
      | _ :: _ =>
          if config_missing (env w)
          then (Exited 1, snd (emit (Exit 1) st0))
          else
            match replay w l st0 with
            | (Ok _, st) => (Completed, st)
            | (Throw e, st) => (Uncaught e, st)
            end
      end
  end.

End Main.

End Replayer.

(* ================================================================== *)
(** * Mail transport (src/automated/utils/email.ts, sendFailureEmail) *)
(* ================================================================== *)

(** What [sendFailureEmail] builds from the environment for one call: the
    options of [createTransport] and the message of [sendMail]. *)

Module Mailer.

(** [Number(process.env.EMAIL_PORT || 587)]: the number the variable
    spells, or the number of the literal when the variable is absent or
    empty. *)
Inductive port : Type :=
| NumberOfLiteral (n : Z)
| NumberOfText (s : jsstring).

Record Transport := mkTransport {
  host : option jsstring;
  port_option : port;
  secure : bool;
  auth_user : option jsstring;
  auth_pass : option jsstring
}.

Record Message := mkMessage {
  from : jsstring;
  to : option jsstring;
  subject : jsstring;
  html : jsstring
}.

Definition createTransport (e : Replayer.Env) : Transport :=
  {| host := Replayer.EMAIL_HOST e;
     port_option :=
       if truthy_opt (Replayer.EMAIL_PORT e)
       then NumberOfText (or_empty (Replayer.EMAIL_PORT e))
       else NumberOfLiteral 587;
     secure := false;
     auth_user := Replayer.EMAIL_USER e;
     auth_pass := Replayer.EMAIL_PASS e |}.

Definition message (e : Replayer.Env) (sub body : jsstring) : Message :=
  {| from := dquote :: lit "Replay Bot" ++ dquote :: lit " <"
             ++ Replayer.in_template (Replayer.EMAIL_USER e) ++ lit ">";
     to := Replayer.ALERT_TO e;
     subject := sub;
     html := body |}.

End Mailer.

(* ================================================================== *)
(** * Init script of the recorder (src/unnamed/part_000) *)
(* ================================================================== *)

Module Injected.

(** The window of one document: the flag [__recorderInstalled] and the
    number of capturing click listeners the script has added to the
    document. *)
Record Window := mkWindow {
  recorderInstalled : bool;
  clickListeners : nat
}.

Definition fresh_window : Window := mkWindow false 0.

(** The script given to [page.addInitScript]. *)
Definition initScript (win : Window) : Window :=
  if recorderInstalled win then win
  else mkWindow true (S (clickListeners win)).

End Injected.

(* ================================================================== *)
(** * Older replayer (second program of src/unnamed/part_000) *)
(* ================================================================== *)

(** The variant of the replayer kept beside the recorder: it reads
    [steps/steps.json], does not catch a failed load, returns on an empty
    sequence, checks no configuration, always shows the browser, waits
    1500 ms and 600 ms, and sends a fixed reason with the crash alert. *)

Module Legacy.

Local Open Scope js_scope.

Import Email.

(** The variables of [main], the file system and the trace. *)
Record State := mkState {
  results : list StepResult;
  failureEmailSent : bool;
  disk : FileSystem;
  trace : list event
}.

Definition initial_state (d : FileSystem) : State :=
  mkState [] false d [].

Definition emit (e : event) : M State unit :=
  modify (fun st =>
    mkState (results st) (failureEmailSent st) (disk st) (trace st ++ [e])).

Definition set_failureEmailSent : M State unit :=
  modify (fun st => mkState (results st) true (disk st) (trace st)).

Definition push_result (r : StepResult) : M State unit :=
  modify (fun st =>
    mkState (results st ++ [r]) (failureEmailSent st) (disk st) (trace st)).

Definition sendFailureEmail (subject html : jsstring) (answer : outcome unit)
  : M State unit :=
  emit (SendMail subject html) ;;
  await answer.

(** The subjects: a cross mark (U+274C) and a fire sign (U+1F525, two
    code units). *)
Definition failed_subject : jsstring :=
  10060%N :: lit " Web Replay Verification Failed".

Definition crashed_subject : jsstring :=
  [55357; 56613]%N ++ lit " Web Replay Crashed".

Definition crash_reason : jsstring :=
  lit "Browser closed unexpectedly or script crashed".

(** The body of the loop for the step at index [i]. *)
Definition replay_step (w : Replayer.StepWorld) (i : nat) (step : Step)
  : M State unit :=
  emit (Goto (target_href step)) ;;
  await (Replayer.goto_result w) ;;
  emit (WaitForTimeout 1500) ;;
  await (Replayer.settle_result w) ;;
  emit Evaluate ;;
  pg <- await (Replayer.evaluate_result w) ;;
  let live := extractContent pg in
  let recordedFP := normalize (firstP (content step)) in
  let liveFP := normalize (firstP live) in
  let pass := jsstring_eqb recordedFP liveFP in
  push_result (spread_result step live pass) ;;
  sent <- gets failureEmailSent ;;
  (if negb pass && negb sent
   then
     set_failureEmailSent ;;
     sendFailureEmail failed_subject
       (buildMinimalFailureEmail
          {| fd_step := Z.of_nat i + 1;
             fd_url := target_href step;
             recordedFirstP := Replayer.or_empty_mark recordedFP;
             liveFirstP := Replayer.or_empty_mark liveFP;
             reason := None |})
       (Replayer.send_result w)
   else ret tt) ;;
  emit (WaitForTimeout 600) ;;
  await (Replayer.pause_result w).

Fixpoint replay_loop (at_step : nat -> Replayer.StepWorld) (i : nat)
  (l : list Step) : M State unit :=
  match l with
  | [] => ret tt
  | step :: rest =>
      replay_step (at_step i) i step ;;
      replay_loop at_step (S i) rest
  end.

(** The [catch] block: the reason does not depend on the error. *)
Definition on_crash (answer : outcome unit) (err : jsstring) : M State unit :=
  sent <- gets failureEmailSent ;;
  if negb sent
  then
    sendFailureEmail crashed_subject
      (buildMinimalFailureEmail
         {| fd_step := (-1)%Z;
            fd_url := lit "N/A";
            recordedFirstP := [];
            liveFirstP := [];
            reason := Some crash_reason |})
      answer
  else ret tt.

(** The dash of the step headings, U+2014. *)
Definition heading_dash : jsstring := [8212%N].

Definition report_block (i : nat) (r : StepResult) : jsstring :=
  lit "
    <div class=" ++ dquote :: lit "step" ++ dquote :: lit ">
      <h2>Step " ++ Z_to_decimal (Z.of_nat i + 1) ++ lit " "
  ++ heading_dash ++ lit " " ++ Replayer.verdict_span (pass r) ++ lit "</h2>
      <p><strong>Opened URL:</strong> " ++ r_target_href r ++ lit "</p>
      <pre>" ++ Replayer.in_template (firstP (r_content r)) ++ lit "</pre>
      <pre>" ++ Replayer.in_template (firstP (liveContent r)) ++ lit "</pre>
    </div>
  ".

Fixpoint report_blocks (i : nat) (rs : list StepResult) : jsstring :=
  match rs with
  | [] => []
  | r :: tl => report_block i r ++ report_blocks (S i) tl
  end.

Definition reportHtml (rs : list StepResult) : jsstring :=
  lit "
<html>
<head>
  <title>Replay Report</title>
  <style>
    body { font-family: sans-serif; padding: 20px; }
    .step { border: 1px solid #ccc; margin-bottom: 15px; padding: 10px; }
    .pass { color: green; font-weight: bold; }
    .fail { color: red; font-weight: bold; }
    pre { white-space: pre-wrap; }
  </style>
</head>
<body>
  <h1>Web Replay Report</h1>
  " ++ report_blocks 0 rs ++ lit "
</body>
</html>
".

Section Main.

Variable cwd : jsstring.

Definition OUT_DIR : jsstring := path_join cwd (lit "steps").
Definition OUT_FILE : jsstring := path_join OUT_DIR (lit "steps.json").
Definition REPORT_FILE : jsstring := path_join cwd (lit "replay-report.html").

Definition loadSteps (d : FileSystem) : outcome (list Step) :=
  if negb (existsSync OUT_FILE d)
  then Throw (OUT_FILE ++ lit " not found. Run recorder first.")
  else
    match readFileSync OUT_FILE d with
    | Throw e => Throw e
    | Ok text =>
        match JSON_parse text with
        | Throw e => Throw e
        | Ok v =>
            match steps_of_json v with
            | Some l => Ok l
            | None => Throw (lit "TypeError")
            end
        end
    end.

(** [main] from the launch of the browser on. *)
Definition replay (w : Replayer.World) (l : list Step) : M State unit :=
  emit (Launch false) ;;
  try_catch_finally
    (replay_loop (Replayer.at_step w) 0 l)
    (on_crash (Replayer.crash_send_result w))
    (emit BrowserClose) ;;
  rs <- gets results ;;
  modify (fun st =>
    mkState (results st) (failureEmailSent st)
            (writeFileSync REPORT_FILE (reportHtml rs) (disk st))
            (trace st)) ;;
  emit (WriteFile REPORT_FILE (reportHtml rs)).

(** [main]: a failed load is not caught, and an empty sequence ends the
    function. *)
Definition main (w : Replayer.World) : Replayer.ending * State :=
  let st0 := initial_state (Replayer.disk0 w) in
  match loadSteps (Replayer.disk0 w) with
  | Throw e => (Replayer.Uncaught e, st0)
  | Ok l =>
      match l with
      | [] => (Replayer.Completed, st0)
      | _ :: _ =>
          match replay w l st0 with
          | (Ok _, st) => (Replayer.Completed, st)
          | (Throw e, st) => (Replayer.Uncaught e, st)
          end
      end
  end.

End Main.

End Legacy.

(* ================================================================== *)
(** * Vocabulary of the statements *)
(* ================================================================== *)

(** ** Strings *)

(** A string as [replace(/\s+/g, " ")] leaves it: its only white space is
    the space character, never twice in a row.  [after_space] tells that a
    space stands right before the string. *)
Fixpoint collapsed (after_space : bool) (s : jsstring) : bool :=
  match s with
  | [] => true
  | c :: tl =>
      if is_space c
      then N.eqb c 32 && negb after_space && collapsed true tl
      else collapsed false tl
  end.

(** The fields of a string: what stands before its first white space
    code unit, and what stands after each of them. *)
Fixpoint fields (s : jsstring) : jsstring * list jsstring :=
  match s with
  | [] => ([], [])
  | c :: tl =>
      let (w, ws) := fields tl in
      if is_space c then ([], w :: ws) else (c :: w, ws)
  end.

(** The words of a string: its maximal runs of code units that are not
    white space, in order. *)
Definition words (s : jsstring) : list jsstring :=
  filter truthy (fst (fields s) :: snd (fields s)).

(** Words joined by single spaces. *)
Fixpoint unwords (ws : list jsstring) : jsstring :=
  match ws with
  | [] => []
  | [w] => w
  | w :: tl => w ++ 32%N :: unwords tl
  end.

(** ** Pages and anchors *)

(** A document with no paragraph and no visible text, such as an empty
    [<body>]. *)
Definition blank_page : Page :=
  {| doc_title := [];
     first_h1 := None;
     content_root := None;
     all_paragraphs := [];
     body_innerText := [];
     meta_description := None |}.

(** A document whose only text is white space and whose only paragraph is
    short. *)
Definition sparse_page : Page :=
  {| doc_title := lit "Untitled";
     first_h1 := None;
     content_root := None;
     all_paragraphs := [lit "Loading"];
     body_innerText := [32; 10; 9; 160]%N;
     meta_description := None |}.

(** An anchor with an id and no href attribute, such as a named target. *)
Definition named_anchor : Recorder.Anchor :=
  {| Recorder.a_id := lit "x";
     Recorder.a_href := [];
     Recorder.a_href_attribute := None |}.

(** An anchor with an id and an href. *)
Definition anchor_with_id : Recorder.Anchor :=
  {| Recorder.a_id := lit "x";
     Recorder.a_href := lit "https://en.wikipedia.org/y";
     Recorder.a_href_attribute := Some (lit "/y") |}.

Definition quiet_click_world : Recorder.ClickWorld :=
  {| Recorder.page_url := lit "https://en.wikipedia.org/wiki/Tiger";
     Recorder.resolved := Ok (lit "https://en.wikipedia.org/y");
     Recorder.navigation := Ok (lit "https://en.wikipedia.org/y");
     Recorder.loaded := Ok blank_page;
     Recorder.now := 1700000000000%Z |}.

(** ** Recorder *)

(** The state [process.exit(0)] leaves. *)
Definition exited_of (st : Recorder.State) : Recorder.State :=
  Recorder.mkState (Recorder.steps st) (Recorder.shuttingDown st) false true
    (Recorder.disk st) (Recorder.trace st ++ [Exit 0]).

(** ** Replayer: configurations, stores and worlds *)

(** A complete configuration. *)
Definition full_env : Replayer.Env :=
  {| Replayer.EMAIL_HOST := Some (lit "smtp.example.org");
     Replayer.EMAIL_PORT := Some (lit "587");
     Replayer.EMAIL_USER := Some (lit "bot");
     Replayer.EMAIL_PASS := Some (lit "secret");
     Replayer.ALERT_TO := Some (lit "ops@example.org");
     Replayer.HEADLESS := None |}.

(** The same without a recipient. *)
Definition env_without_recipient : Replayer.Env :=
  {| Replayer.EMAIL_HOST := Some (lit "smtp.example.org");
     Replayer.EMAIL_PORT := Some (lit "587");
     Replayer.EMAIL_USER := Some (lit "bot");
     Replayer.EMAIL_PASS := Some (lit "secret");
     Replayer.ALERT_TO := None;
     Replayer.HEADLESS := None |}.

(** A step, and a world, in which every call succeeds and every page is
    blank. *)
Definition calm_step : Replayer.StepWorld :=
  {| Replayer.goto_result := Ok tt;
     Replayer.settle_result := Ok tt;
     Replayer.evaluate_result := Ok blank_page;
     Replayer.send_result := Ok tt;
     Replayer.pause_result := Ok tt |}.

Definition calm_world (e : Replayer.Env) (d : FileSystem) : Replayer.World :=
  {| Replayer.env := e;
     Replayer.disk0 := d;
     Replayer.at_step := fun _ => calm_step;
     Replayer.crash_send_result := Ok tt |}.

(** A store that holds the empty sequence, as [saveSteps([])] writes it. *)
Definition empty_store : FileSystem :=
  writeFileSync (Replayer.OUT_FILE (lit "/work")) (lit "[]") empty_fs.

(** A store that holds one step, written the way the recorder writes. *)
Definition tiger_step : Step :=
  {| selector := None;
     url := lit "https://en.wikipedia.org/wiki/Tiger";
     target_href := lit "https://en.wikipedia.org/wiki/Tiger";
     content := extractContent blank_page;
     timestamp := 1700000000000%Z;
     isInitial := Some true |}.

Definition tiger_store : FileSystem :=
  writeFileSync (Replayer.OUT_FILE (lit "/work"))
    (JSON_stringify (steps_to_json [tiger_step])) empty_fs.

(** ** Replayer: reading a run *)

(** The content extracted at a step, when the navigation, the wait and the
    evaluation all succeed. *)
Definition live_of (w : Replayer.StepWorld) : option ContentSnapshot :=
  match Replayer.goto_result w, Replayer.settle_result w,
        Replayer.evaluate_result w with
  | Ok _, Ok _, Ok pg => Some (extractContent pg)
  | _, _, _ => None
  end.

(** The exception that stops a step before its comparison. *)
Definition early_error (w : Replayer.StepWorld) : option jsstring :=
  match Replayer.goto_result w with
  | Throw e => Some e
  | Ok _ =>
      match Replayer.settle_result w with
      | Throw e => Some e
      | Ok _ =>
          match Replayer.evaluate_result w with
          | Throw e => Some e
          | Ok _ => None
          end
      end
  end.

(** The navigation, the wait after it, the evaluation and the closing wait
    of a step succeed. *)
Definition calls_ok (w : Replayer.StepWorld) : bool :=
  match Replayer.goto_result w, Replayer.settle_result w,
        Replayer.evaluate_result w, Replayer.pause_result w with
  | Ok _, Ok _, Ok _, Ok _ => true
  | _, _, _, _ => false
  end.

(** The comparison of the step at index [j] fails and no earlier one does:
    the step at which the mismatch alert of the run is due. *)
Definition first_mismatch (w : Replayer.World) (l : list Step) (j : nat)
  : Prop :=
  (exists step live,
     nth_error l j = Some step
     /\ live_of (Replayer.at_step w j) = Some live
     /\ Replayer.compare step live = false)
  /\ forall i step live,
       i < j -> nth_error l i = Some step ->
       live_of (Replayer.at_step w i) = Some live ->
       Replayer.compare step live = true.

(** The steps before index [k] run without exception: their calls into the
    browser succeed, and the transport accepts the mismatch alert when it
    is due at one of them. *)
Definition clean_before (w : Replayer.World) (l : list Step) (k : nat)
  : Prop :=
  forall j, j < k ->
    calls_ok (Replayer.at_step w j) = true
    /\ (first_mismatch w l j ->
        Replayer.send_result (Replayer.at_step w j) = Ok tt).

(** The step at index [k] is read and then throws [e]: the transport at
    the mismatch alert that is due there, or the closing wait. *)
Definition late_crash (w : Replayer.World) (l : list Step) (k : nat)
  (e : jsstring) : Prop :=
  (first_mismatch w l k
   /\ Replayer.send_result (Replayer.at_step w k) = Throw e)
  \/ ((first_mismatch w l k ->
       Replayer.send_result (Replayer.at_step w k) = Ok tt)
      /\ Replayer.pause_result (Replayer.at_step w k) = Throw e).

(** The first failed result of a list whose head has index [i]. *)
Fixpoint first_failure (i : nat) (rs : list StepResult)
  : option (nat * StepResult) :=
  match rs with
  | [] => None
  | r :: tl => if pass r then first_failure (S i) tl else Some (i, r)
  end.

(** The alert that goes with the first failed result. *)
Definition alert_of (f : option (nat * StepResult)) : list event :=
  match f with
  | Some (i, r) =>
      [Replayer.mismatch_mail i (step_of_result r) (liveContent r)]
  | None => []
  end.

Definition is_some {A : Type} (o : option A) : bool :=
  match o with Some _ => true | None => false end.

(** A state with more events in its trace. *)
Definition with_events (st : Replayer.State) (tr : list event)
  : Replayer.State :=
  Replayer.mkState (Replayer.results st) (Replayer.hasMismatch st)
    (Replayer.failureEmailSent st) (Replayer.disk st)
    (Replayer.trace st ++ tr).

(** The state after the browser is closed and the report is written. *)
Definition reported (cwd : jsstring) (st : Replayer.State) : Replayer.State :=
  Replayer.mkState (Replayer.results st) (Replayer.hasMismatch st)
    (Replayer.failureEmailSent st)
    (writeFileSync (Replayer.REPORT_FILE cwd)
       (Replayer.reportHtml (Replayer.results st)) (Replayer.disk st))
    (Replayer.trace st
     ++ [BrowserClose;
         WriteFile (Replayer.REPORT_FILE cwd)
           (Replayer.reportHtml (Replayer.results st))]).

(** The state in which the loop starts. *)
Definition loop_start (w : Replayer.World) : Replayer.State :=
  with_events (Replayer.initial_state (Replayer.disk0 w))
    [Launch (Replayer.headless (Replayer.env w))].

(** How a run that passed the checks ends, from the way its loop ended. *)
Definition finish (cwd : jsstring) (w : Replayer.World)
  (r : outcome unit * Replayer.State) : Replayer.ending * Replayer.State :=
  match r with
  | (Ok _, st1) => (Replayer.Completed, reported cwd st1)
  | (Throw e, st1) =>
      if Replayer.failureEmailSent st1
      then (Replayer.Completed, reported cwd st1)
      else
        match Replayer.crash_send_result w with
        | Ok _ =>
            (Replayer.Completed,
             reported cwd (with_events st1 [Replayer.crash_mail e]))
        | Throw e' =>
            (Replayer.Uncaught e',
             with_events st1 [Replayer.crash_mail e; BrowserClose])
        end
  end.

(** ** Replayer: concrete runs *)

(** A recorded step whose first paragraph starts with Alpha. *)
Definition alpha_step (n : Z) : Step :=
  {| selector := Some (lit "a#next");
     url := lit "https://example.org/";
     target_href := lit "https://example.org/page";
     content :=
       mkContent (Some (lit "Alpha")) (Some (lit "Alpha"))
         (Some (lit "Alpha text of the page")) (Some []) None;
     timestamp := n;
     isInitial := None |}.

(** The same page later: its text now starts with Beta. *)
Definition beta_page : Page :=
  {| doc_title := lit "Alpha";
     first_h1 := Some (lit "Alpha");
     content_root := None;
     all_paragraphs := [];
     body_innerText := lit "Beta text of the page";
     meta_description := None |}.

Definition alpha_steps : list Step :=
  [alpha_step 1; alpha_step 2; alpha_step 3].

Definition alpha_store : FileSystem :=
  writeFileSync (Replayer.OUT_FILE (lit "/work"))
    (JSON_stringify (steps_to_json alpha_steps)) empty_fs.

Definition beta_step : Replayer.StepWorld :=
  {| Replayer.goto_result := Ok tt;
     Replayer.settle_result := Ok tt;
     Replayer.evaluate_result := Ok beta_page;
     Replayer.send_result := Ok tt;
     Replayer.pause_result := Ok tt |}.

(** Three recorded steps, all of which now show the changed page. *)
Definition beta_world : Replayer.World :=
  {| Replayer.env := full_env;
     Replayer.disk0 := alpha_store;
     Replayer.at_step := fun _ => beta_step;
     Replayer.crash_send_result := Ok tt |}.

(** The page has changed and the transport refuses the alert. *)
Definition refused_step : Replayer.StepWorld :=
  {| Replayer.goto_result := Ok tt;
     Replayer.settle_result := Ok tt;
     Replayer.evaluate_result := Ok beta_page;
     Replayer.send_result := Throw (lit "ECONNREFUSED");
     Replayer.pause_result := Ok tt |}.

(** Three recorded steps, all of which show the changed page and could be
    read, and a transport that refuses every mail. *)
Definition refused_world : Replayer.World :=
  {| Replayer.env := full_env;
     Replayer.disk0 := alpha_store;
     Replayer.at_step := fun _ => refused_step;
     Replayer.crash_send_result := Ok tt |}.

Definition five_steps : list Step :=
  [tiger_step; tiger_step; tiger_step; tiger_step; tiger_step].

Definition five_store : FileSystem :=
  writeFileSync (Replayer.OUT_FILE (lit "/work"))
    (JSON_stringify (steps_to_json five_steps)) empty_fs.

Definition timeout_step : Replayer.StepWorld :=
  {| Replayer.goto_result := Throw (lit "Timeout 30000ms exceeded");
     Replayer.settle_result := Ok tt;
     Replayer.evaluate_result := Ok blank_page;
     Replayer.send_result := Ok tt;
     Replayer.pause_result := Ok tt |}.

(** Five unchanged steps; the navigation of the third exceeds the timeout. *)
Definition timeout_world : Replayer.World :=
  {| Replayer.env := full_env;
     Replayer.disk0 := five_store;
     Replayer.at_step := fun j => if Nat.eqb j 2 then timeout_step
                                  else calm_step;
     Replayer.crash_send_result := Ok tt |}.

(** A step whose page is read and matches, and whose closing wait throws
    because the page was closed. *)
Definition closed_step : Replayer.StepWorld :=
  {| Replayer.goto_result := Ok tt;
     Replayer.settle_result := Ok tt;
     Replayer.evaluate_result := Ok blank_page;
     Replayer.send_result := Ok tt;
     Replayer.pause_result := Throw (lit "Target closed") |}.

Definition closed_world : Replayer.World :=
  {| Replayer.env := full_env;
     Replayer.disk0 := tiger_store;
     Replayer.at_step := fun _ => closed_step;
     Replayer.crash_send_result := Ok tt |}.

(** The navigation of the only step times out, and the transport refuses
    the crash alert. *)
Definition unreachable_world : Replayer.World :=
  {| Replayer.env := full_env;
     Replayer.disk0 := tiger_store;
     Replayer.at_step := fun _ => timeout_step;
     Replayer.crash_send_result := Throw (lit "ECONNREFUSED") |}.

(** ** Step store *)

(** The number a string of digits denotes, continuing from [a]. *)
Definition digits_value (a : N) (s : jsstring) : N :=
  fold_left (fun a d => (10 * a + (d - 48))%N) s a.

(** What may follow a value in a printed document: nothing, a comma, or a
    line feed. *)
Definition ok_follow (rest : jsstring) : Prop :=
  match rest with
  | [] => True
  | c :: _ => c = 44%N \/ c = 10%N
  end.

(** Every element is a UTF-16 code unit. *)
Definition code_units (s : jsstring) : bool :=
  forallb (fun c => N.ltb c 65536) s.

(** The size of the elements of an array, one more for each. *)
Definition items_size (size : json -> nat) (l : list json) : nat :=
  fold_right (fun x a => S (size x + a)) 0 l.

Definition members_size (size : json -> nat) (ms : list (jsstring * json))
  : nat :=
  fold_right (fun kv a => S (size (snd kv) + a)) 0 ms.

(** The number of nodes of a value, which bounds the fuel its parse
    needs. *)
Fixpoint jsize (v : json) : nat :=
  match v with
  | JArr l => S (items_size jsize l)
  | JObj ms => S (members_size jsize ms)
  | _ => 1
  end.

Fixpoint distinct (l : list jsstring) : bool :=
  match l with
  | [] => true
  | k :: tl => negb (existsb (jsstring_eqb k) tl) && distinct tl
  end.

(** A value [JSON.stringify] can be given: its strings are strings of code
    units, and no object has a key twice. *)
Fixpoint wf_json (v : json) : bool :=
  match v with
  | JStr s => code_units s
  | JArr l => forallb wf_json l
  | JObj ms =>
      forallb (fun kv => code_units (fst kv) && wf_json (snd kv)) ms
      && distinct (map fst ms)
  | _ => true
  end.

(** A value that is read back from its printed form, at any indentation
    and before anything that may follow a value. *)
Definition parses_back (v : json) : Prop :=
  forall (ind : nat) (rest : jsstring) (fuel : nat),
    jsize v < fuel ->
    ok_follow rest ->
    parse_value fuel (stringify ind v ++ rest) = Some (v, rest).

Section JsonInduction.

Variable P : json -> Prop.
Hypothesis Hnull : P JNull.
Hypothesis Hbool : forall b, P (JBool b).
Hypothesis Hnum : forall z, P (JNum z).
Hypothesis Hstr : forall s, P (JStr s).
Hypothesis Harr : forall l, Forall P l -> P (JArr l).
Hypothesis Hobj : forall ms, Forall (fun kv => P (snd kv)) ms -> P (JObj ms).

(** Induction over values, with the hypothesis for every item of an array
    and every member of an object. *)
Fixpoint json_induction (v : json) : P v :=
  match v with
  | JNull => Hnull
  | JBool b => Hbool b
  | JNum z => Hnum z
  | JStr s => Hstr s
  | JArr l =>
      Harr l
        ((fix items (l : list json) : Forall P l :=
            match l with
            | [] => Forall_nil P
            | x :: tl => Forall_cons x (json_induction x) (items tl)
            end) l)
  | JObj ms =>
      Hobj ms
        ((fix members (ms : list (jsstring * json))
            : Forall (fun kv => P (snd kv)) ms :=
            match ms with
            | [] => Forall_nil _
            | kv :: tl =>
                Forall_cons kv (json_induction (snd kv)) (members tl)
            end) ms)
  end.

End JsonInduction.

(** Strings and a timestamp a step can hold: code units, and an integer
    that a JavaScript number holds exactly. *)
Definition code_units_opt (s : option jsstring) : bool :=
  match s with Some t => code_units t | None => true end.

Definition well_formed_content (c : ContentSnapshot) : bool :=
  code_units_opt (title c) && code_units_opt (h1 c)
  && code_units_opt (firstP c) && code_units_opt (metaDescription c)
  && code_units_opt (bodySnippet c).

Definition well_formed_step (s : Step) : bool :=
  code_units_opt (selector s) && code_units (url s)
  && code_units (target_href s) && well_formed_content (content s)
  && (Z.leb (-9007199254740991) (timestamp s)
      && Z.leb (timestamp s) 9007199254740991).

(* ------------------------------------------------------------------ *)
(** ** Text and pages *)
(* ------------------------------------------------------------------ *)

(** The code units of a string that are not white space. *)
Definition visible (s : jsstring) : jsstring :=
  filter (fun c => negb (is_space c)) s.

(** A candidate the loop passes over: its collapsed, trimmed text has at
    most 40 code units. *)
Definition short (p : jsstring) : Prop :=
  length (trim (collapse_ws p)) <= 40.

(** The paragraphs under the content root, none without such a root. *)
Definition scoped (pg : Page) : list jsstring :=
  match content_root pg with Some ps => ps | None => [] end.

(** The same page laid out differently: more paragraphs breaks and
    indentation in the source, the same words. *)
Definition tiger_page (gap : jsstring) : Page :=
  {| doc_title := lit "Tiger";
     first_h1 := Some (lit "Tiger");
     content_root := None;
     all_paragraphs :=
       [lit "The tiger" ++ gap
        ++ lit "is a large cat native to Asia, with stripes."];
     body_innerText := lit "Tiger" ++ gap ++ lit "The tiger";
     meta_description := None |}.

(* ------------------------------------------------------------------ *)
(** ** Recorder: a session *)
(* ------------------------------------------------------------------ *)

(** The file system after [saveSteps(l)]. *)
Definition saved (cwd : jsstring) (l : list Step) (d : FileSystem)
  : FileSystem :=
  writeFileSync (Recorder.OUT_FILE cwd) (JSON_stringify (steps_to_json l))
    (if existsSync (Recorder.OUT_DIR cwd) d then d
     else mkdirSync (Recorder.OUT_DIR cwd) d).

(** The step the binding builds for a click on [a] that led to the
    document [pg] at the address [final]. *)
Definition recorded_from (a : Recorder.Anchor) (w : Recorder.ClickWorld)
  (final : jsstring) (pg : Page) : Step :=
  {| selector := Some (Recorder.derive_selector a);
     url := Recorder.page_url w;
     target_href := final;
     content := extractContent pg;
     timestamp := Recorder.now w;
     isInitial := None |}.

(** The step [main] builds for the start page. *)
Definition initial_step (w : Recorder.StartWorld) (final : jsstring)
  (pg : Page) : Step :=
  {| selector := None;
     url := Recorder.startUrl;
     target_href := final;
     content := extractContent pg;
     timestamp := Recorder.start_now w;
     isInitial := Some true |}.

(** What happens to a running recorder: a click in the page, a shutdown
    trigger, the settlement of the pending [browser.close()]. *)
Inductive happening : Type :=
| Clicked (closest : option Recorder.Anchor) (w : Recorder.ClickWorld)
| Shutdown (a : Recorder.action).

Definition happen (cwd : jsstring) (st : Recorder.State) (h : happening)
  : Recorder.State :=
  match h with
  | Clicked closest w => Recorder.click cwd closest w st
  | Shutdown a => Recorder.step_action cwd st a
  end.

(** A session: what happens, one thing after the other. *)
Definition session (cwd : jsstring) (hs : list happening)
  (st : Recorder.State) : Recorder.State :=
  fold_left (happen cwd) hs st.

(** The store holds the steps the recorder has in memory. *)
Definition in_sync (cwd : jsstring) (st : Recorder.State) : Prop :=
  files (Recorder.disk st) (Recorder.OUT_FILE cwd)
  = Some (JSON_stringify (steps_to_json (Recorder.steps st))).

(** A step recorded for a click: a selector that is neither empty nor the
    bare tag name, and no [isInitial]. *)
Definition click_step (s : Step) : bool :=
  match selector s, isInitial s with
  | Some sel, None => truthy sel && negb (jsstring_eqb sel (lit "a"))
  | _, _ => false
  end.

(** A state with other steps, another disk and more events. *)
Definition recorder_with (st : Recorder.State) (l : list Step)
  (d : FileSystem) (tr : list event) : Recorder.State :=
  Recorder.mkState l (Recorder.shuttingDown st) (Recorder.closePending st)
    (Recorder.terminated st) d (Recorder.trace st ++ tr).

(** A path the recorder does not own: neither the store file nor its
    directory. *)
Definition foreign (cwd p : jsstring) : bool :=
  negb (jsstring_eqb p (Recorder.OUT_FILE cwd))
  && negb (jsstring_eqb p (Recorder.OUT_DIR cwd)).

(** What the recorder leaves of a path it does not own. *)
Definition untouched (p : jsstring) (st st' : Recorder.State) : Prop :=
  existsSync p (Recorder.disk st') = existsSync p (Recorder.disk st)
  /\ files (Recorder.disk st') p = files (Recorder.disk st) p.

(** The start page opens and is read. *)
Definition tiger_start : Recorder.StartWorld :=
  {| Recorder.start_navigation := Ok (lit "https://en.wikipedia.org/wiki/Tiger");
     Recorder.start_wait := Ok tt;
     Recorder.start_loaded := Ok (tiger_page [32%N]);
     Recorder.start_now := 1700000000000%Z |}.

(** A click whose navigation fails. *)
Definition failing_click_world : Recorder.ClickWorld :=
  {| Recorder.page_url := lit "https://en.wikipedia.org/wiki/Tiger";
     Recorder.resolved := Ok (lit "https://en.wikipedia.org/y");
     Recorder.navigation := Throw (lit "net::ERR_ABORTED");
     Recorder.loaded := Ok blank_page;
     Recorder.now := 1700000000500%Z |}.

(** A start, a recorded click, a click that fails, a click on an anchor
    that is not recorded, and the shutdown. *)
Definition tiger_session : list happening :=
  [Clicked (Some anchor_with_id) quiet_click_world;
   Clicked (Some anchor_with_id) failing_click_world;
   Clicked (Some named_anchor) quiet_click_world;
   Shutdown Recorder.Trigger;
   Shutdown Recorder.Trigger;
   Shutdown Recorder.CloseSettled].

(* ------------------------------------------------------------------ *)
(** ** Replayer: the events of a run *)
(* ------------------------------------------------------------------ *)

(** The events of the loop: navigations, waits, evaluations and mails. *)
Definition browsing (e : event) : bool :=
  match e with
  | Goto _ | WaitForTimeout _ | Evaluate | SendMail _ _ => true
  | _ => false
  end.

(** The addresses navigated to, in order. *)
Definition gotos (t : list event) : list jsstring :=
  flat_map (fun e => match e with Goto u => [u] | _ => [] end) t.

(** Some result failed. *)
Definition some_failed (rs : list StepResult) : bool :=
  existsb (fun r => negb (pass r)) rs.

(* ------------------------------------------------------------------ *)
(** ** Older replayer *)
(* ------------------------------------------------------------------ *)

(** The bodies of the mails handed to the transport, in order. *)
Definition bodies (t : list event) : list jsstring :=
  flat_map (fun e => match e with SendMail _ html => [html] | _ => [] end) t.

(** The older and the current replayer at the same point of a run. *)
Definition same_point (a : Legacy.State) (b : Replayer.State) : Prop :=
  Legacy.results a = Replayer.results b
  /\ Legacy.failureEmailSent a = Replayer.failureEmailSent b
  /\ bodies (Legacy.trace a) = bodies (Replayer.trace b)
  /\ gotos (Legacy.trace a) = gotos (Replayer.trace b).

(** The crash alert of the older replayer: the same for every error. *)
Definition legacy_crash_mail : event :=
  SendMail Legacy.crashed_subject
    (Email.buildMinimalFailureEmail
       {| Email.fd_step := (-1)%Z;
          Email.fd_url := lit "N/A";
          Email.recordedFirstP := [];
          Email.liveFirstP := [];
          Email.reason := Some Legacy.crash_reason |}).

(** The state of the older replayer after the browser is closed and the
    report is written; [tr] is what the [catch] block added. *)
Definition legacy_reported (cwd : jsstring) (st : Legacy.State)
  (tr : list event) : Legacy.State :=
  Legacy.mkState (Legacy.results st) (Legacy.failureEmailSent st)
    (writeFileSync (Legacy.REPORT_FILE cwd)
       (Legacy.reportHtml (Legacy.results st)) (Legacy.disk st))
    (Legacy.trace st ++ tr
     ++ [BrowserClose;
         WriteFile (Legacy.REPORT_FILE cwd)
           (Legacy.reportHtml (Legacy.results st))]).

(** The state in which the loop of the older replayer starts. *)
Definition legacy_loop_start (w : Replayer.World) : Legacy.State :=
  Legacy.mkState [] false (Replayer.disk0 w) [Launch false].
(** The three steps in the store of the current replayer and in the file
    the older one reads. *)
Definition twin_store : FileSystem :=
  writeFileSync (Legacy.OUT_FILE (lit "/work"))
    (JSON_stringify (steps_to_json alpha_steps)) alpha_store.

Definition twin_world : Replayer.World :=
  {| Replayer.env := full_env;
     Replayer.disk0 := twin_store;
     Replayer.at_step := fun _ => beta_step;
     Replayer.crash_send_result := Ok tt |}.

(* ================================================================== *)
(** * Strings: comparison, trimming and collapsing *)
(* ================================================================== *)

Lemma jsstring_eqb_eq (a b : jsstring) : jsstring_eqb a b = true <-> a = b.
Proof.
  revert b; induction a as [|x a IH]; intros [|y b]; simpl;
    try (split; [discriminate | discriminate]); try tauto.
  rewrite andb_true_iff, N.eqb_eq, IH.
  split; [intros [-> ->]; reflexivity | intros H; injection H; auto].
Qed.

Lemma jsstring_eqb_refl (a : jsstring) : jsstring_eqb a a = true.
Proof. apply jsstring_eqb_eq; reflexivity. Qed.

Lemma jsstring_eqb_neq (a b : jsstring) : jsstring_eqb a b = false <-> a <> b.
Proof.
  rewrite <- jsstring_eqb_eq. destruct (jsstring_eqb a b); split; congruence.
Qed.

Lemma dropWhile_idem (p : jschar -> bool) (s : jsstring) :
  dropWhile p (dropWhile p s) = dropWhile p s.
Proof.
  induction s as [|c tl IH]; simpl; [reflexivity|].
  destruct (p c) eqn:E; [exact IH|]. simpl. rewrite E. reflexivity.
Qed.

Lemma dropWhile_head (p : jschar -> bool) (s : jsstring) :
  dropWhile p s = [] \/
  exists c tl, dropWhile p s = c :: tl /\ p c = false.
Proof.
  induction s as [|c tl IH]; simpl; [left; reflexivity|].
  destruct (p c) eqn:E; [exact IH|]. right. exists c, tl. auto.
Qed.

Lemma dropWhile_snoc (p : jschar -> bool) (l : jsstring) (c : jschar) :
  dropWhile p (l ++ [c]) =
  match dropWhile p l with
  | [] => if p c then [] else [c]
  | x :: r => (x :: r) ++ [c]
  end.
Proof.
  induction l as [|x l IH]; simpl.
  - destruct (p c); reflexivity.
  - destruct (p x); [exact IH | reflexivity].
Qed.

(** [trimEnd] read from the front of the string. *)
Lemma trimEnd_cons (c : jschar) (tl : jsstring) :
  trimEnd (c :: tl) =
  match trimEnd tl with
  | [] => if is_space c then [] else [c]
  | x :: r => c :: x :: r
  end.
Proof.
  unfold trimEnd. simpl rev at 2. rewrite dropWhile_snoc.
  destruct (dropWhile is_space (rev tl)) as [|x r] eqn:E.
  - simpl. destruct (is_space c); reflexivity.
  - rewrite rev_app_distr.
    change (rev [c] ++ rev (x :: r)) with (c :: rev (x :: r)).
    destruct (rev (x :: r)) as [|y r'] eqn:E'; [|reflexivity].
    apply (f_equal (@rev jschar)) in E'. rewrite rev_involutive in E'.
    discriminate.
Qed.

Lemma trimEnd_idem (s : jsstring) : trimEnd (trimEnd s) = trimEnd s.
Proof.
  unfold trimEnd. rewrite rev_involutive, dropWhile_idem. reflexivity.
Qed.

Lemma trimStart_trimEnd_trimStart (s : jsstring) :
  trimStart (trimEnd (trimStart s)) = trimEnd (trimStart s).
Proof.
  unfold trimStart.
  destruct (dropWhile_head is_space s) as [-> | (c & tl & -> & Hc)];
    [reflexivity|].
  rewrite trimEnd_cons.
  destruct (trimEnd tl); simpl; rewrite Hc; simpl; try rewrite Hc; reflexivity.
Qed.

Lemma trim_idem (s : jsstring) : trim (trim s) = trim s.
Proof.
  unfold trim. rewrite trimStart_trimEnd_trimStart. apply trimEnd_idem.
Qed.

(** One maximal run of white space becomes one space: the equation of the
    regular expression replacement. *)
Lemma replace_ws_true_dropWhile (s : jsstring) :
  replace_ws true s = replace_ws false (dropWhile is_space s).
Proof.
  induction s as [|c tl IH]; simpl; [reflexivity|].
  destruct (is_space c) eqn:E; [exact IH|].
  simpl. rewrite E. reflexivity.
Qed.

Lemma collapse_ws_space (c : jschar) (tl : jsstring) :
  is_space c = true ->
  collapse_ws (c :: tl) = 32%N :: collapse_ws (dropWhile is_space tl).
Proof.
  intros H. unfold collapse_ws. simpl. rewrite H.
  rewrite replace_ws_true_dropWhile. reflexivity.
Qed.

Lemma collapse_ws_other (c : jschar) (tl : jsstring) :
  is_space c = false -> collapse_ws (c :: tl) = c :: collapse_ws tl.
Proof. intros H. unfold collapse_ws. simpl. rewrite H. reflexivity. Qed.

Lemma replace_ws_collapsed (b : bool) (s : jsstring) :
  collapsed b (replace_ws b s) = true.
Proof.
  revert b; induction s as [|c tl IH]; intros b; simpl; [reflexivity|].
  destruct (is_space c) eqn:E.
  - destruct b; [apply IH|]. simpl. apply IH.
  - simpl. rewrite E. apply IH.
Qed.

Lemma collapsed_replace_ws (b : bool) (s : jsstring) :
  collapsed b s = true -> replace_ws b s = s.
Proof.
  revert b; induction s as [|c tl IH]; intros b; simpl; [reflexivity|].
  destruct (is_space c) eqn:E.
  - rewrite !andb_true_iff, N.eqb_eq, negb_true_iff.
    intros [[-> ->] H]. rewrite (IH _ H). reflexivity.
  - intros H. rewrite (IH _ H). reflexivity.
Qed.

Lemma collapsed_trimStart (b : bool) (s : jsstring) :
  collapsed b s = true -> collapsed false (trimStart s) = true.
Proof.
  unfold trimStart.
  revert b; induction s as [|c tl IH]; intros b; simpl; [reflexivity|].
  destruct (is_space c) eqn:E.
  - rewrite !andb_true_iff. intros [_ H]. exact (IH _ H).
  - intros H. simpl. rewrite E. exact H.
Qed.

Lemma collapsed_trimEnd (b : bool) (s : jsstring) :
  collapsed b s = true -> collapsed b (trimEnd s) = true.
Proof.
  revert b; induction s as [|c tl IH]; intros b; [reflexivity|].
  rewrite trimEnd_cons. simpl collapsed at 1.
  destruct (is_space c) eqn:E.
  - rewrite !andb_true_iff. intros [[Hc Hb] H].
    specialize (IH _ H). destruct (trimEnd tl) as [|x r]; [reflexivity|].
    change (collapsed b (c :: x :: r))
      with (if is_space c
            then N.eqb c 32 && negb b && collapsed true (x :: r)
            else collapsed false (x :: r)).
    rewrite E, Hc, Hb, IH. reflexivity.
  - intros H. specialize (IH _ H).
    destruct (trimEnd tl) as [|x r].
    + simpl. rewrite E. reflexivity.
    + change (collapsed b (c :: x :: r))
        with (if is_space c
              then N.eqb c 32 && negb b && collapsed true (x :: r)
              else collapsed false (x :: r)).
      rewrite E. exact IH.
Qed.

Lemma collapse_ws_trim_collapse_ws (s : jsstring) :
  collapse_ws (trim (collapse_ws s)) = trim (collapse_ws s).
Proof.
  apply collapsed_replace_ws. unfold trim.
  apply collapsed_trimEnd, (collapsed_trimStart false).
  apply replace_ws_collapsed.
Qed.

Lemma normalize_idem (s : option jsstring) :
  normalize (Some (normalize s)) = normalize s.
Proof.
  unfold normalize. simpl or_empty.
  rewrite collapse_ws_trim_collapse_ws. apply trim_idem.
Qed.

(** C10: [normalize] is defined on every optional string, an absent value
    gives the empty string, [normalize] is idempotent, and a recorded step
    without [firstP] passes exactly when the normalized live [firstP] is
    empty. *)
Theorem normalize_total_and_idempotent :
  normalize None = []
  /\ (forall s : jsstring,
        normalize (Some (normalize (Some s))) = normalize (Some s))
  /\ (forall s : option jsstring,
        normalize (Some (normalize s)) = normalize s)
  /\ (forall (sel : option jsstring) (u t : jsstring)
             (ti h m b : option jsstring) (ts : Z) (ini : option bool)
             (live : ContentSnapshot),
        Replayer.compare (mkStep sel u t (mkContent ti h None m b) ts ini)
          live = true
        <-> normalize (firstP live) = []).
Proof.
  split; [reflexivity|]. split; [intros s; apply normalize_idem|].
  split; [apply normalize_idem|].
  intros. unfold Replayer.compare. simpl content. simpl firstP at 1.
  change (normalize None) with (@nil jschar).
  rewrite jsstring_eqb_eq. split; intros H; congruence.
Qed.

(* ------------------------------------------------------------------ *)
(** ** Words *)
(* ------------------------------------------------------------------ *)

Lemma fields_space (c : jschar) (tl : jsstring) :
  is_space c = true ->
  fields (c :: tl) = ([], fst (fields tl) :: snd (fields tl)).
Proof. intros H. simpl. destruct (fields tl). rewrite H. reflexivity. Qed.

Lemma fields_other (c : jschar) (tl : jsstring) :
  is_space c = false ->
  fields (c :: tl) = (c :: fst (fields tl), snd (fields tl)).
Proof. intros H. simpl. destruct (fields tl). rewrite H. reflexivity. Qed.

Lemma words_space (c : jschar) (tl : jsstring) :
  is_space c = true -> words (c :: tl) = words tl.
Proof. intros H. unfold words. rewrite (fields_space c tl H). reflexivity. Qed.

Lemma words_other (c : jschar) (tl : jsstring) :
  is_space c = false ->
  words (c :: tl)
  = (c :: fst (fields tl)) :: filter truthy (snd (fields tl)).
Proof. intros H. unfold words. rewrite (fields_other c tl H). reflexivity. Qed.

Lemma is_space_32 : is_space 32 = true.
Proof. reflexivity. Qed.

(** Collapsing keeps the words. *)
Lemma fields_replace_ws (s : jsstring) :
  (fst (fields (replace_ws false s)) = fst (fields s)
   /\ filter truthy (snd (fields (replace_ws false s)))
      = filter truthy (snd (fields s)))
  /\ words (replace_ws true s) = words s.
Proof.
  induction s as [|c tl [[IH1 IH2] IH3]]; [repeat split|].
  cbn [replace_ws]. destruct (is_space c) eqn:E.
  - rewrite (fields_space 32 _ is_space_32), (fields_space c tl E).
    cbn [fst snd]. fold (words (replace_ws true tl)) (words tl).
    rewrite (words_space c tl E). auto.
  - rewrite (fields_other c _ E), (fields_other c tl E).
    cbn [fst snd]. rewrite (words_other c _ E), (words_other c tl E).
    rewrite IH1, IH2. auto.
Qed.

Lemma words_collapse_ws (s : jsstring) : words (collapse_ws s) = words s.
Proof.
  unfold words, collapse_ws.
  destruct (fields_replace_ws s) as [[H1 H2] _].
  cbn [filter]. rewrite H1, H2. reflexivity.
Qed.

Lemma words_trimStart (s : jsstring) : words (trimStart s) = words s.
Proof.
  unfold trimStart. induction s as [|c tl IH]; [reflexivity|].
  cbn [dropWhile]. destruct (is_space c) eqn:E; [|reflexivity].
  rewrite (words_space c tl E). exact IH.
Qed.

Lemma fields_trimEnd (s : jsstring) :
  fst (fields (trimEnd s)) = fst (fields s)
  /\ filter truthy (snd (fields (trimEnd s)))
     = filter truthy (snd (fields s)).
Proof.
  induction s as [|c tl [IH1 IH2]]; [split; reflexivity|].
  rewrite trimEnd_cons.
  destruct (trimEnd tl) as [|x r] eqn:Et.
  - cbn [fields fst snd filter] in IH1, IH2.
    destruct (is_space c) eqn:E.
    + rewrite (fields_space c tl E). cbn [fields fst snd filter].
      rewrite <- IH1, <- IH2. split; reflexivity.
    + rewrite (fields_other c tl E), (fields_other c [] E).
      cbn [fields fst snd filter]. rewrite <- IH1, <- IH2. split; reflexivity.
  - destruct (is_space c) eqn:E.
    + rewrite (fields_space c _ E), (fields_space c tl E). cbn [fst snd filter].
      rewrite IH1, IH2. split; reflexivity.
    + rewrite (fields_other c _ E), (fields_other c tl E). cbn [fst snd].
      rewrite IH1, IH2. split; reflexivity.
Qed.

Lemma words_trimEnd (s : jsstring) : words (trimEnd s) = words s.
Proof.
  unfold words. destruct (fields_trimEnd s) as [H1 H2].
  cbn [filter]. rewrite H1, H2. reflexivity.
Qed.

Lemma words_normalize (s : option jsstring) :
  words (normalize s) = words (or_empty s).
Proof.
  unfold normalize, trim.
  rewrite words_trimEnd, words_trimStart. apply words_collapse_ws.
Qed.

Lemma normalize_collapsed (s : option jsstring) :
  collapsed false (normalize s) = true.
Proof.
  unfold normalize, trim.
  apply collapsed_trimEnd, (collapsed_trimStart false), replace_ws_collapsed.
Qed.

Lemma normalize_trimStart (s : option jsstring) :
  trimStart (normalize s) = normalize s.
Proof. unfold normalize, trim. apply trimStart_trimEnd_trimStart. Qed.

Lemma normalize_trimEnd (s : option jsstring) :
  trimEnd (normalize s) = normalize s.
Proof. unfold normalize, trim. apply trimEnd_idem. Qed.

(** In a collapsed string the fields are separated by single spaces. *)
Lemma collapsed_fields (s : jsstring) :
  forall b, collapsed b s = true ->
  fst (fields s) ++ flat_map (fun w => 32%N :: w) (snd (fields s)) = s.
Proof.
  induction s as [|c tl IH]; intros b H; [reflexivity|].
  cbn [collapsed] in H. destruct (is_space c) eqn:E.
  - apply andb_true_iff in H. destruct H as [H Ht].
    apply andb_true_iff in H. destruct H as [Hc _].
    apply N.eqb_eq in Hc. subst c.
    rewrite (fields_space 32 tl E). cbn [fst snd flat_map app].
    f_equal. exact (IH true Ht).
  - rewrite (fields_other c tl E). cbn [fst snd app].
    f_equal. exact (IH false H).
Qed.

Lemma unwords_cons (w : jsstring) (ws : list jsstring) :
  unwords (w :: ws) = w ++ flat_map (fun w => 32%N :: w) ws.
Proof.
  revert w; induction ws as [|x ws IH]; intros w.
  - simpl. rewrite app_nil_r. reflexivity.
  - change (unwords (w :: x :: ws)) with (w ++ 32%N :: unwords (x :: ws)).
    rewrite IH. reflexivity.
Qed.

Lemma trimEnd_fixed_tail (c : jschar) (tl : jsstring) :
  trimEnd (c :: tl) = c :: tl ->
  (tl = [] /\ is_space c = false) \/ (tl <> [] /\ trimEnd tl = tl).
Proof.
  rewrite trimEnd_cons. destruct (trimEnd tl) as [|x r] eqn:E.
  - destruct (is_space c); [discriminate|].
    intros H. injection H as <-. left. auto.
  - intros H. injection H as <-. right. split; [discriminate | reflexivity].
Qed.

(** No field of a collapsed string without trailing white space is empty,
    apart from the first when the string starts with a space. *)
Lemma canonical_fields (s : jsstring) :
  forall b, collapsed b s = true -> trimEnd s = s ->
  forallb truthy (snd (fields s)) = true
  /\ (b = true -> s <> [] -> truthy (fst (fields s)) = true).
Proof.
  induction s as [|c tl IH]; intros b H Ht.
  - split; [reflexivity|]. intros _ Hn. contradiction.
  - cbn [collapsed] in H.
    destruct (trimEnd_fixed_tail c tl Ht) as [[-> Hc] | [Hne Htl]].
    + rewrite (fields_other c [] Hc). split; reflexivity.
    + destruct (is_space c) eqn:E.
      * apply andb_true_iff in H. destruct H as [H Hcol].
        apply andb_true_iff in H. destruct H as [_ Hb].
        destruct (IH true Hcol Htl) as [IH1 IH2].
        rewrite (fields_space c tl E). cbn [fst snd forallb].
        rewrite IH1, (IH2 eq_refl Hne). split; [reflexivity|].
        intros ->. discriminate.
      * destruct (IH false H Htl) as [IH1 _].
        rewrite (fields_other c tl E). cbn [fst snd]. split; [exact IH1|].
        reflexivity.
Qed.

Lemma filter_all {A : Type} (p : A -> bool) (l : list A) :
  forallb p l = true -> filter p l = l.
Proof.
  induction l as [|x l IH]; simpl; [reflexivity|].
  destruct (p x); simpl; [|discriminate]. intros H. rewrite (IH H). reflexivity.
Qed.

(** A collapsed string without leading or trailing white space is its
    words joined by single spaces. *)
Lemma unwords_words_canonical (s : jsstring) :
  collapsed false s = true -> trimStart s = s -> trimEnd s = s ->
  unwords (words s) = s.
Proof.
  intros Hc Hs He. destruct s as [|c tl]; [reflexivity|].
  assert (E : is_space c = false).
  { unfold trimStart in Hs. cbn [dropWhile] in Hs.
    destruct (is_space c) eqn:E; [|reflexivity].
    destruct (dropWhile_head is_space tl) as [H | (x & r & H & Hx)].
    - rewrite H in Hs. discriminate.
    - rewrite H in Hs. injection Hs as -> _. congruence. }
  destruct (canonical_fields (c :: tl) false Hc He) as [Hall _].
  pose proof (collapsed_fields (c :: tl) false Hc) as Hf.
  rewrite (fields_other c tl E) in Hall, Hf. cbn [fst snd] in Hall, Hf.
  rewrite (words_other c tl E), (filter_all truthy _ Hall), unwords_cons.
  exact Hf.
Qed.

Lemma normalize_unwords (s : option jsstring) :
  normalize s = unwords (words (or_empty s)).
Proof.
  rewrite <- words_normalize. symmetry.
  apply unwords_words_canonical;
    [apply normalize_collapsed | apply normalize_trimStart
     | apply normalize_trimEnd].
Qed.

Lemma normalize_eq_words (a b : option jsstring) :
  normalize a = normalize b <-> words (or_empty a) = words (or_empty b).
Proof.
  split; intros H.
  - rewrite <- (words_normalize a), <- (words_normalize b), H. reflexivity.
  - rewrite (normalize_unwords a), (normalize_unwords b), H. reflexivity.
Qed.

(* ================================================================== *)
(** * Content extractor *)
(* ================================================================== *)

Lemma first_long_some (cands : list jsstring) (txt : jsstring) :
  first_long cands = Some txt -> 40 < length txt.
Proof.
  induction cands as [|p tl IH]; simpl; [discriminate|].
  destruct (Nat.ltb 40 (length (trim (collapse_ws p)))) eqn:E; [|exact IH].
  intros H. injection H as <-. apply Nat.ltb_lt. exact E.
Qed.

(** When the fallback is what makes [firstP] empty. *)
Lemma extractFirstP_empty_iff (pg : Page) :
  extractFirstP pg = [] <->
  first_long (candidates pg) = None
  /\ trim (collapse_ws (body_innerText pg)) = [].
Proof.
  unfold extractFirstP, slice0.
  destruct (first_long (candidates pg)) as [txt|] eqn:E.
  - split.
    + intros ->. apply first_long_some in E. simpl in E. lia.
    + intros [H _]. discriminate.
  - split.
    + intros H. split; [reflexivity|].
      destruct (trim (collapse_ws (body_innerText pg))); [reflexivity|].
      discriminate.
    + intros [_ ->]. reflexivity.
Qed.

(** A candidate paragraph or a visible body text makes [firstP] non-empty. *)
Lemma extractFirstP_nonempty (pg : Page) :
  first_long (candidates pg) <> None
  \/ trim (collapse_ws (body_innerText pg)) <> [] ->
  0 < length (extractFirstP pg).
Proof.
  intros H. destruct (extractFirstP pg) eqn:E; [|simpl; lia].
  apply extractFirstP_empty_iff in E. destruct E as [E1 E2].
  destruct H; contradiction.
Qed.

(** C1: on a document without paragraphs and without visible text the
    fallback yields the empty string, so [firstP] has length 0; the same
    holds when the body text is white space only and every paragraph is
    short. *)
Theorem extractFirstP_empty_on_blank_page :
  firstP (extractContent blank_page) = Some []
  /\ length (extractFirstP blank_page) = 0
  /\ firstP (extractContent sparse_page) = Some [].
Proof. repeat split; reflexivity. Qed.

(* ================================================================== *)
(** * Recorder: selector derivation *)
(* ================================================================== *)

Lemma truthy_app_l (a b : jsstring) : truthy a = true -> truthy (a ++ b) = true.
Proof. destruct a; simpl; congruence. Qed.

(** The binding records nothing for an empty selector or the bare tag
    name: no step, no write, no navigation. *)
Lemma recordClick_unselectable (cwd : jsstring)
  (payload : Recorder.ClickPayload) (w : Recorder.ClickWorld)
  (st : Recorder.State) :
  Recorder.payload_selector payload = []
  \/ Recorder.payload_selector payload = lit "a" ->
  snd (Recorder.recordClick cwd payload w st) = st.
Proof.
  intros H. unfold Recorder.recordClick, bind, await, ret.
  destruct (Recorder.resolved w); [|reflexivity].
  destruct H as [-> | ->]; reflexivity.
Qed.

Lemma derive_selector_id (a : Recorder.Anchor) :
  truthy (Recorder.a_id a) = true ->
  Recorder.derive_selector a = lit "a#" ++ Recorder.a_id a.
Proof. intros H. unfold Recorder.derive_selector. rewrite H. reflexivity. Qed.

Lemma derive_selector_href (a : Recorder.Anchor) (raw : jsstring) :
  Recorder.a_id a = [] ->
  Recorder.a_href_attribute a = Some raw ->
  truthy raw = true ->
  Recorder.derive_selector a = lit "a[href=" ++ dquote :: raw ++ [dquote; 93%N].
Proof.
  intros Hi Ha Hr. unfold Recorder.derive_selector.
  rewrite Hi, Ha. simpl. rewrite Hr. reflexivity.
Qed.

Lemma clickListener_forwards (a : Recorder.Anchor) :
  truthy (Recorder.a_href a) = true ->
  truthy (Recorder.derive_selector a) = true ->
  Recorder.clickListener (Some a)
  = Recorder.mkEffect true
      (Some (Recorder.mkPayload (Recorder.a_href a)
               (Recorder.derive_selector a))).
Proof.
  intros Hh Hs. unfold Recorder.clickListener. rewrite Hh. simpl.
  rewrite Hs. reflexivity.
Qed.

(** C7, as stated, fails: for a clicked anchor that has an id and no href
    the listener returns before it derives a selector; nothing is sent to
    the host, although the id would give [a#x]. *)
Lemma named_anchor_yields_no_selector :
  truthy (Recorder.a_id named_anchor) = true
  /\ Recorder.derive_selector named_anchor = lit "a#x"
  /\ Recorder.clickListener (Some named_anchor)
     = Recorder.mkEffect false None.
Proof. repeat split; reflexivity. Qed.

(** C7, amended: for a clicked anchor whose resolved href is not empty the
    listener suppresses the navigation and sends [a#<id>] when the anchor
    has an id, else [a[href="<raw href attribute>"]] when that attribute is
    not empty; when the anchor has no href, or neither selector can be
    formed, nothing is sent and the click records no step; and the host
    records no step for an empty selector or for the bare tag name. *)
Theorem selector_derivation (cwd : jsstring) (a : Recorder.Anchor)
  (w : Recorder.ClickWorld) (st : Recorder.State) :
  (truthy (Recorder.a_href a) = true ->
   truthy (Recorder.a_id a) = true ->
   Recorder.clickListener (Some a)
   = Recorder.mkEffect true
       (Some (Recorder.mkPayload (Recorder.a_href a)
                (lit "a#" ++ Recorder.a_id a))))
  /\ (forall raw : jsstring,
        truthy (Recorder.a_href a) = true ->
        Recorder.a_id a = [] ->
        Recorder.a_href_attribute a = Some raw ->
        truthy raw = true ->
        Recorder.clickListener (Some a)
        = Recorder.mkEffect true
            (Some (Recorder.mkPayload (Recorder.a_href a)
                     (lit "a[href=" ++ dquote :: raw ++ [dquote; 93%N]))))
  /\ (Recorder.a_href a = []
      \/ (Recorder.a_id a = []
          /\ truthy_opt (Recorder.a_href_attribute a) = false) ->
      Recorder.clickListener (Some a) = Recorder.mkEffect false None
      /\ Recorder.click cwd (Some a) w st = st)
  /\ (forall payload : Recorder.ClickPayload,
        Recorder.payload_selector payload = []
        \/ Recorder.payload_selector payload = lit "a" ->
        Recorder.steps (snd (Recorder.recordClick cwd payload w st))
        = Recorder.steps st
        /\ Recorder.disk (snd (Recorder.recordClick cwd payload w st))
           = Recorder.disk st).
Proof.
  split; [|split; [|split]].
  - intros Hh Hi. rewrite (clickListener_forwards a Hh).
    + rewrite (derive_selector_id a Hi). reflexivity.
    + rewrite (derive_selector_id a Hi). reflexivity.
  - intros raw Hh Hi Ha Hr. rewrite (clickListener_forwards a Hh).
    + rewrite (derive_selector_href a raw Hi Ha Hr). reflexivity.
    + rewrite (derive_selector_href a raw Hi Ha Hr). reflexivity.
  - intros H.
    assert (E : Recorder.clickListener (Some a)
                = Recorder.mkEffect false None).
    { unfold Recorder.clickListener, Recorder.derive_selector.
      destruct H as [-> | [-> Hattr]]; [reflexivity|].
      rewrite Hattr. simpl. destruct (truthy (Recorder.a_href a)); reflexivity. }
    split; [exact E|]. unfold Recorder.click. rewrite E. simpl.
    destruct (Recorder.terminated st); reflexivity.
  - intros payload H. rewrite (recordClick_unselectable cwd payload w st H).
    split; reflexivity.
Qed.

(** The listener on an anchor with an id and an href, and a click on the
    named anchor. *)
Lemma selector_derivation_witness :
  Recorder.clickListener (Some anchor_with_id)
  = Recorder.mkEffect true
      (Some (Recorder.mkPayload (lit "https://en.wikipedia.org/y")
               (lit "a#x")))
  /\ Recorder.click (lit "/work") (Some named_anchor) quiet_click_world
       (Recorder.initial_state empty_fs)
     = Recorder.initial_state empty_fs.
Proof.
  pose proof (selector_derivation (lit "/work") anchor_with_id
                quiet_click_world (Recorder.initial_state empty_fs))
    as (H1 & _ & _ & _).
  pose proof (selector_derivation (lit "/work") named_anchor
                quiet_click_world (Recorder.initial_state empty_fs))
    as (_ & _ & H3 & _).
  split.
  - exact (H1 eq_refl eq_refl).
  - exact (proj2 (H3 (or_introl eq_refl))).
Defined.

(* ================================================================== *)
(** * Recorder: shutdown *)
(* ================================================================== *)

Lemma count_writes_app (p : jsstring) (t u : list event) :
  count_writes p (t ++ u) = count_writes p t + count_writes p u.
Proof. unfold count_writes. rewrite filter_app, length_app. reflexivity. Qed.

Lemma count_exits_app (t u : list event) :
  count_exits (t ++ u) = count_exits t + count_exits u.
Proof. unfold count_exits. rewrite filter_app, length_app. reflexivity. Qed.

Lemma run_terminated (cwd : jsstring) (sched : list Recorder.action)
  (st : Recorder.State) :
  Recorder.terminated st = true -> Recorder.run cwd sched st = st.
Proof.
  intros H. induction sched as [|a sched IH]; [reflexivity|].
  unfold Recorder.run in *. simpl.
  destruct a; simpl;
    unfold Recorder.gracefulExit, Recorder.gracefulExit_resume;
    rewrite H; exact IH.
Qed.

(** The first call of [gracefulExit]: the latch is set, the steps are
    written once, the browser is asked to close. *)
Lemma gracefulExit_first (cwd : jsstring) (ss : list Step) (d : FileSystem)
  (t : list event) :
  let st1 := Recorder.gracefulExit cwd
               (Recorder.mkState ss false false false d t) in
  Recorder.shuttingDown st1 = true
  /\ Recorder.closePending st1 = true
  /\ Recorder.terminated st1 = false
  /\ Recorder.steps st1 = ss
  /\ Recorder.trace st1
     = t ++ [WriteFile (Recorder.OUT_FILE cwd)
               (JSON_stringify (steps_to_json ss));
             BrowserClose]
  /\ files (Recorder.disk st1) (Recorder.OUT_FILE cwd)
     = Some (JSON_stringify (steps_to_json ss)).
Proof.
  unfold Recorder.gracefulExit, Recorder.saveSteps, Recorder.ensureOutDir,
    Recorder.emit, Recorder.set_disk, bind, modify. simpl.
  destruct (existsSync (Recorder.OUT_DIR cwd) d); simpl;
    rewrite jsstring_eqb_refl, <- app_assoc; repeat split; reflexivity.
Qed.

(** Once the latch is set, a further trigger changes nothing, and the
    pending [browser.close()] settles into one [process.exit(0)]. *)
Lemma run_after_first (cwd : jsstring) (sched : list Recorder.action)
  (st : Recorder.State) :
  Recorder.shuttingDown st = true ->
  Recorder.closePending st = true ->
  Recorder.terminated st = false ->
  Recorder.run cwd sched st
  = if existsb (fun a => match a with
                         | Recorder.CloseSettled => true
                         | Recorder.Trigger => false
                         end) sched
    then exited_of st else st.
Proof.
  intros Hs Hc Ht. induction sched as [|a sched IH]; [reflexivity|].
  destruct a.
  - change (Recorder.run cwd (Recorder.Trigger :: sched) st)
      with (Recorder.run cwd sched (Recorder.gracefulExit cwd st)).
    unfold Recorder.gracefulExit. rewrite Ht, Hs. exact IH.
  - change (Recorder.run cwd (Recorder.CloseSettled :: sched) st)
      with (Recorder.run cwd sched (Recorder.gracefulExit_resume st)).
    unfold Recorder.gracefulExit_resume. rewrite Ht, Hc. simpl existsb.
    apply (run_terminated cwd sched (exited_of st)). reflexivity.
Qed.

Lemma existsb_settled_In (sched : list Recorder.action) :
  In Recorder.CloseSettled sched ->
  existsb (fun a => match a with
                    | Recorder.CloseSettled => true
                    | Recorder.Trigger => false
                    end) sched = true.
Proof.
  intros H. apply existsb_exists. exists Recorder.CloseSettled. auto.
Qed.

(** C8: after [gracefulExit] has run once, a further call leaves the state
    as it is; whatever triggers and settlements follow the first call, the
    run holds exactly one save of the steps and at most one
    [process.exit], and exactly one as soon as [browser.close()] has
    settled. *)
Theorem gracefulExit_exactly_once (cwd : jsstring) (ss : list Step)
  (d : FileSystem) (t : list event) (sched : list Recorder.action) :
  let st1 := Recorder.gracefulExit cwd
               (Recorder.mkState ss false false false d t) in
  let st := Recorder.run cwd sched st1 in
  Recorder.gracefulExit cwd st1 = st1
  /\ Recorder.gracefulExit cwd st = st
  /\ count_writes (Recorder.OUT_FILE cwd) (Recorder.trace st)
     = S (count_writes (Recorder.OUT_FILE cwd) t)
  /\ files (Recorder.disk st) (Recorder.OUT_FILE cwd)
     = Some (JSON_stringify (steps_to_json ss))
  /\ count_exits (Recorder.trace st) <= S (count_exits t)
  /\ (In Recorder.CloseSettled sched ->
      count_exits (Recorder.trace st) = S (count_exits t)
      /\ Recorder.terminated st = true).
Proof.
  intros st1 st.
  destruct (gracefulExit_first cwd ss d t)
    as (Hs & Hc & Ht & Hss & Htr & Hf).
  fold st1 in Hs, Hc, Ht, Hss, Htr, Hf.
  assert (Hw1 : count_writes (Recorder.OUT_FILE cwd) (Recorder.trace st1)
                = S (count_writes (Recorder.OUT_FILE cwd) t)).
  { rewrite Htr, count_writes_app. unfold count_writes at 2. simpl.
    rewrite jsstring_eqb_refl. simpl. rewrite Nat.add_1_r. reflexivity. }
  assert (He1 : count_exits (Recorder.trace st1) = count_exits t).
  { rewrite Htr, count_exits_app. unfold count_exits at 2. simpl. lia. }
  assert (Hidle : Recorder.gracefulExit cwd st1 = st1).
  { unfold Recorder.gracefulExit at 1. rewrite Ht, Hs. reflexivity. }
  pose proof (run_after_first cwd sched st1 Hs Hc Ht) as Hrun.
  fold st in Hrun.
  split; [exact Hidle|].
  destruct (existsb _ sched) eqn:E.
  - assert (Hex : count_exits (Recorder.trace st) = S (count_exits t)).
    { rewrite Hrun. unfold exited_of. cbn [Recorder.trace].
      rewrite count_exits_app, He1.
      unfold count_exits at 2. simpl. lia. }
    assert (Hwr : count_writes (Recorder.OUT_FILE cwd) (Recorder.trace st)
                  = S (count_writes (Recorder.OUT_FILE cwd) t)).
    { rewrite Hrun. unfold exited_of. cbn [Recorder.trace].
      rewrite count_writes_app, Hw1.
      unfold count_writes at 2. simpl. lia. }
    split; [rewrite Hrun; reflexivity|].
    split; [exact Hwr|].
    split; [rewrite Hrun; exact Hf|].
    split; [lia|]. intros _. split; [exact Hex|]. rewrite Hrun. reflexivity.
  - rewrite Hrun. split; [exact Hidle|]. split; [exact Hw1|].
    split; [exact Hf|]. split; [lia|].
    intros Hin. apply existsb_settled_In in Hin. congruence.
Qed.

(** Two triggers in a row, the close settling, then a third trigger. *)
Lemma gracefulExit_exactly_once_witness :
  let st := Recorder.run (lit "/work")
              [Recorder.Trigger; Recorder.CloseSettled; Recorder.Trigger]
              (Recorder.gracefulExit (lit "/work")
                 (Recorder.initial_state empty_fs)) in
  count_writes (Recorder.OUT_FILE (lit "/work")) (Recorder.trace st) = 1
  /\ count_exits (Recorder.trace st) = 1.
Proof.
  pose proof (gracefulExit_exactly_once (lit "/work") [] empty_fs []
                [Recorder.Trigger; Recorder.CloseSettled; Recorder.Trigger])
    as (_ & _ & Hw & _ & _ & He).
  split.
  - exact Hw.
  - exact (proj1 (He (or_intror (or_introl eq_refl)))).
Defined.

(* ================================================================== *)
(** * Replayer: what is checked before the browser is launched *)
(* ================================================================== *)

Lemma truthy_opt_false (v : option jsstring) :
  truthy_opt v = false <-> v = None \/ v = Some [].
Proof.
  destruct v as [[|c s]|]; simpl; split; intros H; auto; try discriminate.
  - destruct H; discriminate.
Qed.

(** The configuration is refused exactly when one of the five values is
    absent or empty. *)
Lemma config_missing_iff (e : Replayer.Env) :
  Replayer.config_missing e = true <->
  truthy_opt (Replayer.EMAIL_HOST e) = false
  \/ truthy_opt (Replayer.EMAIL_PORT e) = false
  \/ truthy_opt (Replayer.EMAIL_USER e) = false
  \/ truthy_opt (Replayer.EMAIL_PASS e) = false
  \/ truthy_opt (Replayer.ALERT_TO e) = false.
Proof.
  unfold Replayer.config_missing.
  rewrite !orb_true_iff, !negb_true_iff. tauto.
Qed.

Lemma loadSteps_absent (cwd : jsstring) (d : FileSystem) :
  existsSync (Replayer.OUT_FILE cwd) d = false ->
  exists e, Replayer.loadSteps cwd d = Throw e.
Proof.
  intros H. unfold Replayer.loadSteps. rewrite H. simpl. eauto.
Qed.

(** C3, as stated, fails: with a store that holds the empty sequence the
    replayer calls [process.exit(0)]; the exit code is zero. *)
Lemma empty_store_exits_zero :
  Replayer.loadSteps (lit "/work") empty_store = Ok []
  /\ Replayer.exit_code
       (fst (Replayer.main (lit "/work") (calm_world full_env empty_store)))
     = 0%Z.
Proof. split; vm_compute; reflexivity. Qed.

(** C3, amended: [main] ends in [process.exit(1)] when the store file is
    absent and when, for a non-empty sequence, one of host, port, user,
    password and recipient is absent or empty; it ends in
    [process.exit(0)] when the loaded sequence is empty.  In each case the
    exit is the only event of the run: no browser was launched. *)
Theorem fail_fast_before_launch (cwd : jsstring) (w : Replayer.World) :
  (existsSync (Replayer.OUT_FILE cwd) (Replayer.disk0 w) = false ->
   fst (Replayer.main cwd w) = Replayer.Exited 1
   /\ Replayer.trace (snd (Replayer.main cwd w)) = [Exit 1])
  /\ (Replayer.loadSteps cwd (Replayer.disk0 w) = Ok [] ->
      fst (Replayer.main cwd w) = Replayer.Exited 0
      /\ Replayer.trace (snd (Replayer.main cwd w)) = [Exit 0])
  /\ (forall (s : Step) (l : list Step),
        Replayer.loadSteps cwd (Replayer.disk0 w) = Ok (s :: l) ->
        truthy_opt (Replayer.EMAIL_HOST (Replayer.env w)) = false
        \/ truthy_opt (Replayer.EMAIL_PORT (Replayer.env w)) = false
        \/ truthy_opt (Replayer.EMAIL_USER (Replayer.env w)) = false
        \/ truthy_opt (Replayer.EMAIL_PASS (Replayer.env w)) = false
        \/ truthy_opt (Replayer.ALERT_TO (Replayer.env w)) = false ->
        fst (Replayer.main cwd w) = Replayer.Exited 1
        /\ Replayer.trace (snd (Replayer.main cwd w)) = [Exit 1]).
Proof.
  assert (Hthrow : forall e,
            Replayer.loadSteps cwd (Replayer.disk0 w) = Throw e ->
            fst (Replayer.main cwd w) = Replayer.Exited 1
            /\ Replayer.trace (snd (Replayer.main cwd w)) = [Exit 1]).
  { intros e H. unfold Replayer.main. rewrite H. split; reflexivity. }
  split; [|split].
  - intros H. destruct (loadSteps_absent cwd _ H) as [e He].
    exact (Hthrow e He).
  - intros H. unfold Replayer.main. rewrite H. split; reflexivity.
  - intros s l H Hc. apply config_missing_iff in Hc.
    unfold Replayer.main. rewrite H, Hc. split; reflexivity.
Qed.

(** No store at all; a store with the empty sequence; a store with one
    step and no recipient. *)
Lemma fail_fast_before_launch_witness :
  (fst (Replayer.main (lit "/work") (calm_world full_env empty_fs))
   = Replayer.Exited 1
   /\ Replayer.trace
        (snd (Replayer.main (lit "/work") (calm_world full_env empty_fs)))
      = [Exit 1])
  /\ (fst (Replayer.main (lit "/work") (calm_world full_env empty_store))
      = Replayer.Exited 0
      /\ Replayer.trace
           (snd (Replayer.main (lit "/work")
                   (calm_world full_env empty_store)))
         = [Exit 0])
  /\ (fst (Replayer.main (lit "/work")
             (calm_world env_without_recipient tiger_store))
      = Replayer.Exited 1
      /\ Replayer.trace
           (snd (Replayer.main (lit "/work")
                   (calm_world env_without_recipient tiger_store)))
         = [Exit 1]).
Proof.
  split; [|split].
  - exact (proj1 (fail_fast_before_launch (lit "/work")
                    (calm_world full_env empty_fs)) eq_refl).
  - refine (proj1 (proj2 (fail_fast_before_launch (lit "/work")
                    (calm_world full_env empty_store))) _).
    vm_compute. reflexivity.
  - refine (proj2 (proj2 (fail_fast_before_launch (lit "/work")
              (calm_world env_without_recipient tiger_store)))
              tiger_step [] _ _).
    + vm_compute. reflexivity.
    + right. right. right. right. reflexivity.
Defined.

(* ================================================================== *)
(** * Replayer: one step of the loop *)
(* ================================================================== *)

Lemma sends_app (t u : list event) : sends (t ++ u) = sends t ++ sends u.
Proof. apply filter_app. Qed.

Lemma step_of_spread_result (step : Step) (live : ContentSnapshot) (p : bool) :
  step_of_result (spread_result step live p) = step.
Proof. destruct step; reflexivity. Qed.

Lemma live_of_early_error (w : Replayer.StepWorld) :
  live_of w = None <-> exists e, early_error w = Some e.
Proof.
  unfold live_of, early_error.
  destruct (Replayer.goto_result w), (Replayer.settle_result w),
    (Replayer.evaluate_result w); split; intros H;
    try discriminate; eauto; destruct H; discriminate.
Qed.

(** A step whose navigation, wait or evaluation throws: nothing is pushed,
    nothing is sent, the latch is untouched. *)
Lemma replay_step_early (w : Replayer.StepWorld) (i : nat) (step : Step)
  (st : Replayer.State) (e : jsstring) :
  early_error w = Some e ->
  exists tr,
    Replayer.replay_step w i step st
    = (Throw e,
       Replayer.mkState (Replayer.results st) (Replayer.hasMismatch st)
         (Replayer.failureEmailSent st) (Replayer.disk st)
         (Replayer.trace st ++ tr))
    /\ sends tr = [].
Proof.
  unfold early_error, Replayer.replay_step, Replayer.emit, bind, await,
    modify.
  destruct (Replayer.goto_result w) as [[]|e1]; simpl.
  - destruct (Replayer.settle_result w) as [[]|e2]; simpl.
    + destruct (Replayer.evaluate_result w) as [pg|e3]; simpl;
        [discriminate|].
      intros H; injection H as ->.
      exists [Goto (target_href step); WaitForTimeout 1000; Evaluate].
      rewrite <- !app_assoc. split; reflexivity.
    + intros H; injection H as ->.
      exists [Goto (target_href step); WaitForTimeout 1000].
      rewrite <- !app_assoc. split; reflexivity.
  - intros H; injection H as ->.
    exists [Goto (target_href step)]. split; reflexivity.
Qed.

(** Projections of an explicit state, and traces as one list. *)
Ltac norm_state :=
  repeat (progress (cbn [Replayer.results Replayer.hasMismatch
                         Replayer.failureEmailSent Replayer.disk
                         Replayer.trace fst snd negb andb orb app];
                    cbv beta iota; rewrite <- ?app_assoc)).

(** A step that reaches its comparison: the result is pushed whatever the
    comparison says; an alert is sent when the comparison fails and the
    latch is down, and the latch goes up; the step ends as the transport
    and the closing wait answer. *)
Lemma replay_step_late (w : Replayer.StepWorld) (i : nat) (step : Step)
  (st : Replayer.State) (live : ContentSnapshot) :
  live_of w = Some live ->
  let p := Replayer.compare step live in
  let alert := negb p && negb (Replayer.failureEmailSent st) in
  exists tr,
    Replayer.replay_step w i step st
    = ((if alert
        then match Replayer.send_result w with
             | Throw e => Throw e
             | Ok _ => Replayer.pause_result w
             end
        else Replayer.pause_result w),
       Replayer.mkState
         (Replayer.results st ++ [spread_result step live p])
         (Replayer.hasMismatch st || negb p)
         (Replayer.failureEmailSent st || negb p)
         (Replayer.disk st)
         (Replayer.trace st ++ tr))
    /\ sends tr
       = (if alert then [Replayer.mismatch_mail i step live] else []).
Proof.
  unfold live_of. intros H.
  destruct (Replayer.goto_result w) as [[]|] eqn:E1; [|discriminate].
  destruct (Replayer.settle_result w) as [[]|] eqn:E2; [|discriminate].
  destruct (Replayer.evaluate_result w) as [pg|] eqn:E3; [|discriminate].
  injection H as <-.
  unfold Replayer.replay_step, Replayer.sendFailureEmail,
    Replayer.set_hasMismatch, Replayer.set_failureEmailSent,
    Replayer.push_result, Replayer.emit, bind, await, modify, gets, ret.
  rewrite E1, E2, E3. cbn beta iota.
  fold (Replayer.compare step (extractContent pg)).
  destruct st as [rs hm sent d t].
  destruct (Replayer.compare step (extractContent pg)) eqn:Ep;
    [|destruct sent; [|destruct (Replayer.send_result w) as [[]|e]]];
    try (destruct (Replayer.pause_result w) as [[]|e']);
    norm_state;
    rewrite ?orb_false_r, ?orb_true_r;
    (eexists; split; [reflexivity|reflexivity]).
Qed.

(* ================================================================== *)
(** * Replayer: the loop *)
(* ================================================================== *)

Lemma replay_loop_cons (at_step : nat -> Replayer.StepWorld) (i : nat)
  (step : Step) (rest : list Step) (st : Replayer.State) :
  Replayer.replay_loop at_step i (step :: rest) st
  = match Replayer.replay_step (at_step i) i step st with
    | (Ok _, st1) => Replayer.replay_loop at_step (S i) rest st1
    | (Throw e, st1) => (Throw e, st1)
    end.
Proof. reflexivity. Qed.

(** What every run of the loop does, however it ends: results are only
    appended, each appended result is the spread of the step at its
    position with the content extracted there and the outcome of the
    comparison; the disk is untouched; and the alerts sent are decided by
    the latch and the first failed result. *)
Lemma loop_run (at_step : nat -> Replayer.StepWorld) (l : list Step) :
  forall (i : nat) (st : Replayer.State),
  exists rs tr,
    Replayer.results (snd (Replayer.replay_loop at_step i l st))
    = Replayer.results st ++ rs
    /\ Replayer.trace (snd (Replayer.replay_loop at_step i l st))
       = Replayer.trace st ++ tr
    /\ Replayer.disk (snd (Replayer.replay_loop at_step i l st))
       = Replayer.disk st
    /\ (forall p r, nth_error rs p = Some r ->
        exists step live,
          nth_error l p = Some step
          /\ live_of (at_step (i + p)) = Some live
          /\ r = spread_result step live (Replayer.compare step live))
    /\ (if Replayer.failureEmailSent st
        then sends tr = []
             /\ Replayer.failureEmailSent
                  (snd (Replayer.replay_loop at_step i l st)) = true
        else sends tr = alert_of (first_failure i rs)
             /\ Replayer.failureEmailSent
                  (snd (Replayer.replay_loop at_step i l st))
                = is_some (first_failure i rs)).
Proof.
  induction l as [|step rest IH]; intros i st.
  - exists [], []. simpl. rewrite !app_nil_r.
    repeat split; try reflexivity.
    + intros [|p] r H; discriminate.
    + destruct (Replayer.failureEmailSent st); split; reflexivity.
  - rewrite replay_loop_cons.
    destruct (live_of (at_step i)) as [live|] eqn:Hl.
    + destruct (replay_step_late (at_step i) i step st live Hl)
        as (tr1 & E & Hs).
      match type of E with
      | _ = (?o, _) => remember o as out eqn:Hout; clear Hout
      end.
      rewrite E. clear E.
      set (r0 := spread_result step live (Replayer.compare step live)) in *.
      set (st1 := Replayer.mkState _ _ _ _ _).
      assert (Hr0 : forall p r, nth_error [r0] p = Some r ->
                exists step' live',
                  nth_error (step :: rest) p = Some step'
                  /\ live_of (at_step (i + p)) = Some live'
                  /\ r = spread_result step' live'
                           (Replayer.compare step' live')).
      { intros [|[|p]] r H; try discriminate. injection H as <-.
        exists step, live. rewrite Nat.add_0_r. auto. }
      assert (Hlatch : if Replayer.failureEmailSent st
                then sends tr1 = []
                     /\ Replayer.failureEmailSent st1 = true
                else sends tr1 = alert_of (first_failure i [r0])
                     /\ Replayer.failureEmailSent st1
                        = is_some (first_failure i [r0])).
      { subst st1 r0. simpl. rewrite Hs.
        destruct (Replayer.failureEmailSent st); simpl.
        - rewrite andb_false_r. auto.
        - rewrite andb_true_r.
          destruct (Replayer.compare step live); simpl; [auto|].
          rewrite step_of_spread_result. auto. }
      destruct out as [[]|e].
      * destruct (IH (S i) st1) as (rs & tr & Hres & Htr & Hd & Hnth & Hsend).
        exists (r0 :: rs), (tr1 ++ tr).
        rewrite Hres, Htr, Hd. subst st1. simpl Replayer.results.
        simpl Replayer.trace. simpl Replayer.disk.
        rewrite <- !app_assoc.
        split; [reflexivity|]. split; [reflexivity|]. split; [reflexivity|].
        split.
        -- intros [|p] r H.
           ++ apply (Hr0 0 r). exact H.
           ++ simpl in H. destruct (Hnth p r H) as (s' & l' & H1 & H2 & H3).
              exists s', l'. rewrite Nat.add_succ_r. auto.
        -- rewrite sends_app.
           destruct (Replayer.failureEmailSent st) eqn:Hsent.
           ++ destruct Hlatch as [Hs1 Hl1].
              rewrite Hl1 in Hsend. destruct Hsend as [-> ->].
              rewrite Hs1. auto.
           ++ destruct Hlatch as [Hs1 Hl1].
              rewrite Hl1 in Hsend. rewrite Hs1.
              cbn [first_failure] in Hsend |- *.
              destruct (pass r0) eqn:Hp; cbn [is_some alert_of] in Hsend |- *;
                destruct Hsend as [-> ->]; rewrite ?app_nil_r; auto.
      * exists [r0], tr1. subst st1. simpl.
        split; [reflexivity|]. split; [reflexivity|]. split; [reflexivity|].
        split; [exact Hr0|]. exact Hlatch.
    + apply live_of_early_error in Hl. destruct Hl as [e He].
      destruct (replay_step_early (at_step i) i step st e He)
        as (tr1 & E & Hs).
      rewrite E. exists [], tr1. simpl. rewrite app_nil_r.
      split; [reflexivity|]. split; [reflexivity|]. split; [reflexivity|].
      split; [intros [|p] r H; discriminate|].
      destruct (Replayer.failureEmailSent st); auto.
Qed.

Lemma calls_ok_inv (w : Replayer.StepWorld) :
  calls_ok w = true ->
  exists pg,
    live_of w = Some (extractContent pg)
    /\ Replayer.pause_result w = Ok tt.
Proof.
  unfold calls_ok, live_of.
  destruct (Replayer.goto_result w) as [[]|]; [|discriminate].
  destruct (Replayer.settle_result w) as [[]|]; [|discriminate].
  destruct (Replayer.evaluate_result w) as [pg|]; [|discriminate].
  destruct (Replayer.pause_result w) as [[]|]; [|discriminate].
  intros _. exists pg. auto.
Qed.

Lemma skipn_nth_error {A : Type} (k : nat) (l : list A) :
  k < length l ->
  exists x rest, skipn k l = x :: rest /\ nth_error l k = Some x.
Proof.
  revert l; induction k as [|k IH]; intros [|x l] H; simpl in *; try lia.
  - exists x, l. auto.
  - apply IH. lia.
Qed.

(** The loop runs through a prefix of steps that run without exception:
    the calls into the browser succeed, and the transport accepts the
    alert at the first failed comparison when the latch is down. *)
Lemma loop_prefix_clean (at_step : nat -> Replayer.StepWorld) (k : nat) :
  forall (l : list Step) (i : nat) (st : Replayer.State),
  k <= length l ->
  (forall j, j < k -> calls_ok (at_step (i + j)) = true) ->
  (Replayer.failureEmailSent st = false ->
   forall j step live,
     j < k -> nth_error l j = Some step ->
     live_of (at_step (i + j)) = Some live ->
     Replayer.compare step live = false ->
     (forall j' s' l',
        j' < j -> nth_error l j' = Some s' ->
        live_of (at_step (i + j')) = Some l' ->
        Replayer.compare s' l' = true) ->
     Replayer.send_result (at_step (i + j)) = Ok tt) ->
  exists st_k,
    Replayer.replay_loop at_step i l st
    = Replayer.replay_loop at_step (i + k) (skipn k l) st_k
    /\ length (Replayer.results st_k) = length (Replayer.results st) + k
    /\ ((forall j s' l',
           j < k -> nth_error l j = Some s' ->
           live_of (at_step (i + j)) = Some l' ->
           Replayer.compare s' l' = true) ->
        Replayer.failureEmailSent st_k = Replayer.failureEmailSent st)
    /\ (Replayer.failureEmailSent st_k = false ->
        Replayer.failureEmailSent st = false
        /\ forall j s' l',
             j < k -> nth_error l j = Some s' ->
             live_of (at_step (i + j)) = Some l' ->
             Replayer.compare s' l' = true).
Proof.
  induction k as [|k IH]; intros l i st Hk Hok Hsend.
  - exists st. rewrite !Nat.add_0_r.
    split; [reflexivity|]. split; [reflexivity|]. split; [reflexivity|].
    intros H. split; [exact H|]. intros j s' l' Hj. lia.
  - destruct l as [|step rest]; [simpl in Hk; lia|].
    pose proof (Hok 0 ltac:(lia)) as H0. rewrite Nat.add_0_r in H0.
    destruct (calls_ok_inv _ H0) as (pg & Hl & Hp).
    destruct (replay_step_late (at_step i) i step st _ Hl) as (tr & E & _).
    cbv zeta in E. rewrite Hp in E.
    set (p := Replayer.compare step (extractContent pg)) in *.
    assert (Hout : (if negb p && negb (Replayer.failureEmailSent st)
                    then match Replayer.send_result (at_step i) with
                         | Ok _ => Ok tt
                         | Throw e => Throw e
                         end
                    else Ok tt) = Ok tt).
    { destruct p eqn:Ep; [reflexivity|].
      destruct (Replayer.failureEmailSent st) eqn:Es; [reflexivity|].
      cbn [negb andb].
      assert (Hs : Replayer.send_result (at_step i) = Ok tt).
      { rewrite <- (Nat.add_0_r i).
        apply (Hsend eq_refl 0 step (extractContent pg));
          [lia | reflexivity | rewrite Nat.add_0_r; exact Hl | exact Ep |].
        intros j' s' l' Hj'. lia. }
      rewrite Hs. reflexivity. }
    rewrite Hout in E. rewrite replay_loop_cons, E.
    set (st1 := Replayer.mkState _ _ _ _ _) in *.
    destruct (IH rest (S i) st1) as (st_k & E' & Hlen & Hsent & Hdown).
    + simpl in Hk. lia.
    + intros j Hj. rewrite Nat.add_succ_comm. apply Hok. lia.
    + intros Hs1 j s' l' Hj Hn Hlive Hc Hbefore.
      subst st1. cbn [Replayer.failureEmailSent] in Hs1.
      apply orb_false_iff in Hs1. destruct Hs1 as [Hs0 Hp0].
      apply negb_false_iff in Hp0.
      rewrite Nat.add_succ_comm in Hlive |- *.
      apply (Hsend Hs0 (S j) s' l'); [lia | exact Hn | exact Hlive | exact Hc |].
      intros j' s'' l'' Hj' Hn' Hl'. destruct j' as [|j'].
      * cbn [nth_error] in Hn'. injection Hn' as <-.
        rewrite Nat.add_0_r in Hl'. rewrite Hl in Hl'. injection Hl' as <-.
        exact Hp0.
      * rewrite <- Nat.add_succ_comm in Hl'.
        apply (Hbefore j' s'' l''); [lia | exact Hn' | exact Hl'].
    + exists st_k. rewrite E'. cbn [skipn]. rewrite Nat.add_succ_comm.
      split; [reflexivity|]. split; [|split].
      * subst st1. cbn [Replayer.results] in Hlen.
        rewrite length_app in Hlen. simpl in Hlen. lia.
      * intros Hpass. rewrite Hsent.
        -- subst st1. cbn [Replayer.failureEmailSent].
           assert (Hp0 : p = true).
           { apply (Hpass 0 step (extractContent pg));
               [lia | reflexivity | rewrite Nat.add_0_r; exact Hl]. }
           rewrite Hp0. apply orb_false_r.
        -- intros j s' l' Hj Hn Hl'. rewrite Nat.add_succ_comm in Hl'.
           apply (Hpass (S j) s' l'); [lia | exact Hn | exact Hl'].
      * intros Hk0. destruct (Hdown Hk0) as [Hs1 Hrest].
        subst st1. cbn [Replayer.failureEmailSent] in Hs1.
        apply orb_false_iff in Hs1. destruct Hs1 as [Hs0 Hp0].
        apply negb_false_iff in Hp0. split; [exact Hs0|].
        intros j s' l' Hj Hn Hl'. destruct j as [|j].
        -- cbn [nth_error] in Hn. injection Hn as <-.
           rewrite Nat.add_0_r in Hl'. rewrite Hl in Hl'.
           injection Hl' as <-. exact Hp0.
        -- rewrite <- Nat.add_succ_comm in Hl'.
           apply (Hrest j s' l'); [lia | exact Hn | exact Hl'].
Qed.

(** The loop of a run, through the steps before index [k] when they run
    without exception; the latch is down after them exactly when all of
    them passed. *)
Lemma run_prefix (w : Replayer.World) (l : list Step) (k : nat) :
  k <= length l ->
  clean_before w l k ->
  exists st_k,
    Replayer.replay_loop (Replayer.at_step w) 0 l (loop_start w)
    = Replayer.replay_loop (Replayer.at_step w) k (skipn k l) st_k
    /\ length (Replayer.results st_k) = k
    /\ (Replayer.failureEmailSent st_k = false <->
        forall j step live,
          j < k -> nth_error l j = Some step ->
          live_of (Replayer.at_step w j) = Some live ->
          Replayer.compare step live = true).
Proof.
  intros Hk Hclean.
  destruct (loop_prefix_clean (Replayer.at_step w) k l 0 (loop_start w) Hk)
    as (st_k & E & Hlen & Hsame & Hdown).
  - intros j Hj. exact (proj1 (Hclean j Hj)).
  - intros _ j step live Hj Hn Hl Hc Hbefore.
    apply (proj2 (Hclean j Hj)). split; [exists step, live; auto|].
    exact Hbefore.
  - exists st_k. split; [exact E|]. split; [exact Hlen|]. split.
    + intros H. exact (proj2 (Hdown H)).
    + intros H. rewrite (Hsame H). reflexivity.
Qed.

(** When every step runs without exception the loop ends normally, with
    one result for each step. *)
Lemma run_completes (w : Replayer.World) (l : list Step) :
  clean_before w l (length l) ->
  fst (Replayer.replay_loop (Replayer.at_step w) 0 l (loop_start w)) = Ok tt
  /\ length (Replayer.results
               (snd (Replayer.replay_loop (Replayer.at_step w) 0 l
                       (loop_start w)))) = length l.
Proof.
  intros H. destruct (run_prefix w l (length l) (le_n _) H)
    as (st_k & E & Hlen & _).
  rewrite E, skipn_all. simpl. auto.
Qed.

(** The navigation, the wait or the evaluation of the step at index [k]
    throws: the loop throws that error, with [k] results. *)
Lemma run_crash_early (w : Replayer.World) (l : list Step) (k : nat)
  (e : jsstring) :
  k < length l ->
  clean_before w l k ->
  early_error (Replayer.at_step w k) = Some e ->
  fst (Replayer.replay_loop (Replayer.at_step w) 0 l (loop_start w)) = Throw e
  /\ length (Replayer.results
               (snd (Replayer.replay_loop (Replayer.at_step w) 0 l
                       (loop_start w)))) = k.
Proof.
  intros Hk Hclean He.
  destruct (run_prefix w l k (Nat.lt_le_incl _ _ Hk) Hclean)
    as (st_k & E & Hlen & _).
  destruct (skipn_nth_error k l Hk) as (step & rest & Hs & _).
  rewrite E, Hs, replay_loop_cons.
  destruct (replay_step_early (Replayer.at_step w k) k step st_k e He)
    as (tr & E' & _).
  rewrite E'. simpl. auto.
Qed.

(** The step at index [k] is read and then throws, at the mismatch alert
    or at the closing wait: the loop throws that error, with [k + 1]
    results. *)
Lemma run_crash_late (w : Replayer.World) (l : list Step) (k : nat)
  (live : ContentSnapshot) (e : jsstring) :
  k < length l ->
  clean_before w l k ->
  live_of (Replayer.at_step w k) = Some live ->
  (first_mismatch w l k
   /\ Replayer.send_result (Replayer.at_step w k) = Throw e)
  \/ ((first_mismatch w l k ->
       Replayer.send_result (Replayer.at_step w k) = Ok tt)
      /\ Replayer.pause_result (Replayer.at_step w k) = Throw e) ->
  fst (Replayer.replay_loop (Replayer.at_step w) 0 l (loop_start w)) = Throw e
  /\ length (Replayer.results
               (snd (Replayer.replay_loop (Replayer.at_step w) 0 l
                       (loop_start w)))) = S k.
Proof.
  intros Hk Hclean Hlive Hcrash.
  destruct (run_prefix w l k (Nat.lt_le_incl _ _ Hk) Hclean)
    as (st_k & E & Hlen & Hlatch).
  destruct (skipn_nth_error k l Hk) as (step & rest & Hs & Hn).
  rewrite E, Hs, replay_loop_cons.
  destruct (replay_step_late (Replayer.at_step w k) k step st_k live Hlive)
    as (tr & E' & _).
  cbv zeta in E'.
  assert (Hout : (if negb (Replayer.compare step live)
                     && negb (Replayer.failureEmailSent st_k)
                  then match Replayer.send_result (Replayer.at_step w k) with
                       | Ok _ => Replayer.pause_result (Replayer.at_step w k)
                       | Throw e0 => Throw e0
                       end
                  else Replayer.pause_result (Replayer.at_step w k))
                 = Throw e).
  { destruct Hcrash as [[Hfirst Hsend] | [Hsend Hpause]].
    - destruct Hfirst as [(step' & live' & Hn' & Hl' & Hc') Hbefore].
      assert (step' = step) by congruence. subst step'.
      assert (live' = live) by congruence. subst live'.
      rewrite Hc', (proj2 Hlatch Hbefore), Hsend. reflexivity.
    - destruct (negb (Replayer.compare step live)
                && negb (Replayer.failureEmailSent st_k)) eqn:Ea;
        [|exact Hpause].
      apply andb_true_iff in Ea. destruct Ea as [Hc Hdown].
      apply negb_true_iff in Hc. apply negb_true_iff in Hdown.
      rewrite Hsend; [exact Hpause|].
      split; [exists step, live; auto|]. exact (proj1 Hlatch Hdown). }
  rewrite Hout in E'. rewrite E'. cbn [fst snd Replayer.results].
  rewrite length_app, Hlen. cbn [length]. split; [reflexivity | lia].
Qed.

(** A step that is reached after steps without exception and whose page
    is read has its result in the list. *)
Lemma run_reaches (w : Replayer.World) (l : list Step) (k : nat)
  (live : ContentSnapshot) :
  k < length l ->
  clean_before w l k ->
  live_of (Replayer.at_step w k) = Some live ->
  k < length (Replayer.results
                (snd (Replayer.replay_loop (Replayer.at_step w) 0 l
                        (loop_start w)))).
Proof.
  intros Hk Hclean Hlive.
  destruct (run_prefix w l k (Nat.lt_le_incl _ _ Hk) Hclean)
    as (st_k & E & Hlen & _).
  destruct (skipn_nth_error k l Hk) as (step & rest & Hs & _).
  rewrite E, Hs, replay_loop_cons.
  destruct (replay_step_late (Replayer.at_step w k) k step st_k live Hlive)
    as (tr & E' & _).
  match type of E' with
  | _ = (?o, ?s) =>
      remember o as out eqn:Hout; clear Hout; remember s as st1 eqn:Hst1
  end.
  rewrite E'.
  assert (Hlen1 : length (Replayer.results st1) = S k).
  { subst st1. simpl. rewrite length_app. simpl. lia. }
  destruct out as [[]|e']; [|simpl; lia].
  destruct (loop_run (Replayer.at_step w) rest (S k) st1)
    as (rs & tr' & Hres & _).
  rewrite Hres, length_app. lia.
Qed.

(* ================================================================== *)
(** * Replayer: the whole run *)
(* ================================================================== *)

Lemma main_run (cwd : jsstring) (w : Replayer.World) (s : Step)
  (l : list Step) :
  Replayer.loadSteps cwd (Replayer.disk0 w) = Ok (s :: l) ->
  Replayer.config_missing (Replayer.env w) = false ->
  Replayer.main cwd w
  = finish cwd w
      (Replayer.replay_loop (Replayer.at_step w) 0 (s :: l) (loop_start w)).
Proof.
  intros Hload Hcfg. unfold Replayer.main. rewrite Hload, Hcfg.
  unfold Replayer.replay, try_catch_finally, bind at 1 2.
  unfold Replayer.emit at 1, modify at 1.
  change (Replayer.mkState
            (Replayer.results (Replayer.initial_state (Replayer.disk0 w)))
            (Replayer.hasMismatch (Replayer.initial_state (Replayer.disk0 w)))
            (Replayer.failureEmailSent
               (Replayer.initial_state (Replayer.disk0 w)))
            (Replayer.disk (Replayer.initial_state (Replayer.disk0 w)))
            (Replayer.trace (Replayer.initial_state (Replayer.disk0 w))
             ++ [Launch (Replayer.headless (Replayer.env w))]))
    with (loop_start w).
  destruct (Replayer.replay_loop (Replayer.at_step w) 0 (s :: l)
              (loop_start w)) as [[[]|e] st1]; unfold finish.
  - unfold Replayer.emit, bind, modify, gets, reported. norm_state.
    reflexivity.
  - unfold Replayer.on_crash, Replayer.sendFailureEmail, Replayer.emit,
      bind, modify, gets, await, ret, reported, with_events.
    norm_state.
    destruct (Replayer.failureEmailSent st1) eqn:Hsent; norm_state.
    + rewrite ?Hsent. reflexivity.
    + destruct (Replayer.crash_send_result w) as [[]|e']; norm_state;
        rewrite ?Hsent; reflexivity.
Qed.

(** The results and the alerts of a run that passed the checks. *)
Lemma loaded_run (cwd : jsstring) (w : Replayer.World) (l : list Step) :
  let r := Replayer.replay_loop (Replayer.at_step w) 0 l (loop_start w) in
  let final := snd (finish cwd w r) in
  Replayer.results final = Replayer.results (snd r)
  /\ (forall p x, nth_error (Replayer.results final) p = Some x ->
      exists step live,
        nth_error l p = Some step
        /\ live_of (Replayer.at_step w p) = Some live
        /\ x = spread_result step live (Replayer.compare step live))
  /\ sends (Replayer.trace final)
     = match first_failure 0 (Replayer.results final) with
       | Some (i, x) =>
           [Replayer.mismatch_mail i (step_of_result x) (liveContent x)]
       | None =>
           match fst r with
           | Throw e => [Replayer.crash_mail e]
           | Ok _ => []
           end
       end
  /\ (forall p, jsstring_eqb p (Replayer.REPORT_FILE cwd) = false ->
      files (Replayer.disk final) p = files (Replayer.disk0 w) p)
  /\ In BrowserClose (Replayer.trace final).
Proof.
  intros r final.
  destruct (loop_run (Replayer.at_step w) l 0 (loop_start w))
    as (rs & tr & Hres & Htr & Hd & Hnth & Hsend).
  fold r in Hres, Htr, Hd, Hsend.
  change (Replayer.failureEmailSent (loop_start w)) with false in Hsend.
  change (Replayer.results (loop_start w)) with (@nil StepResult) in Hres.
  change (Replayer.disk (loop_start w)) with (Replayer.disk0 w) in Hd.
  simpl app in Hres. destruct Hsend as [Hs Hlatch].
  assert (Hfin : Replayer.results final = Replayer.results (snd r)).
  { subst final. destruct r as [[[]|e] st1]; simpl; [reflexivity|].
    destruct (Replayer.failureEmailSent st1); [reflexivity|].
    destruct (Replayer.crash_send_result w) as [[]|e']; reflexivity. }
  split; [exact Hfin|]. rewrite Hfin, Hres.
  split; [exact Hnth|].
  assert (Hst : sends (Replayer.trace (snd r))
                = alert_of (first_failure 0 rs)).
  { rewrite Htr. unfold loop_start, with_events. simpl Replayer.trace.
    rewrite !sends_app. simpl. exact Hs. }
  subst final. destruct r as [[[]|e] st1]; simpl fst; simpl snd in *.
  - split; [|split].
    + unfold finish, reported. simpl. rewrite sends_app, Hst. simpl.
      rewrite app_nil_r. destruct (first_failure 0 rs) as [[i x]|]; reflexivity.
    + intros p Hp. unfold finish, reported. simpl. rewrite Hp. rewrite Hd.
      reflexivity.
    + unfold finish, reported. simpl. apply in_or_app. right. left.
      reflexivity.
  - unfold finish. rewrite Hlatch.
    destruct (first_failure 0 rs) as [[i x]|] eqn:Hff; simpl is_some; cbv iota.
    + split; [|split].
      * unfold reported. simpl. rewrite sends_app, Hst. simpl.
        rewrite ?app_nil_r. reflexivity.
      * intros p Hp. unfold reported. simpl. rewrite Hp, Hd. reflexivity.
      * unfold reported. simpl. apply in_or_app. right. left. reflexivity.
    + destruct (Replayer.crash_send_result w) as [[]|e'].
      * split; [|split].
        -- unfold reported, with_events. simpl. rewrite !sends_app, Hst.
           reflexivity.
        -- intros p Hp. unfold reported, with_events. simpl.
           rewrite Hp, Hd. reflexivity.
        -- unfold reported, with_events. simpl. apply in_or_app. right.
           left. reflexivity.
      * split; [|split].
        -- unfold with_events. simpl. rewrite !sends_app, Hst. reflexivity.
        -- intros p Hp. unfold with_events. simpl. rewrite Hd. reflexivity.
        -- unfold with_events. simpl. apply in_or_app. right. right. left.
           reflexivity.
Qed.

(** The state [main] returns when it exits before the launch. *)
Lemma main_early_exit (cwd : jsstring) (w : Replayer.World) :
  (forall s l, Replayer.loadSteps cwd (Replayer.disk0 w) = Ok (s :: l) ->
               Replayer.config_missing (Replayer.env w) = true) ->
  Replayer.results (snd (Replayer.main cwd w)) = []
  /\ sends (Replayer.trace (snd (Replayer.main cwd w))) = []
  /\ Replayer.disk (snd (Replayer.main cwd w)) = Replayer.disk0 w.
Proof.
  intros H. unfold Replayer.main.
  destruct (Replayer.loadSteps cwd (Replayer.disk0 w)) as [[|s l]|e];
    try (repeat split; reflexivity).
  rewrite (H s l eq_refl). repeat split; reflexivity.
Qed.

(** C4: whatever the world answers, a run hands at most one mail to the
    transport; and when some recorded result failed, that mail is the
    alert of the first failed result, so no later failure and no crash
    sends another. *)
Theorem at_most_one_alert (cwd : jsstring) (w : Replayer.World) :
  length (sends (Replayer.trace (snd (Replayer.main cwd w)))) <= 1
  /\ (forall i x,
        first_failure 0 (Replayer.results (snd (Replayer.main cwd w)))
        = Some (i, x) ->
        sends (Replayer.trace (snd (Replayer.main cwd w)))
        = [Replayer.mismatch_mail i (step_of_result x) (liveContent x)]).
Proof.
  destruct (Replayer.loadSteps cwd (Replayer.disk0 w)) as [[|s l]|e] eqn:Hload.
  1, 3: destruct (main_early_exit cwd w) as (Hr & Hs & _);
        [intros s l H; congruence|];
        rewrite Hr, Hs; split; [simpl; lia | intros i x H; discriminate].
  destruct (Replayer.config_missing (Replayer.env w)) eqn:Hcfg.
  - destruct (main_early_exit cwd w) as (Hr & Hs & _);
      [intros s' l' _; exact Hcfg|].
    rewrite Hr, Hs. split; [simpl; lia | intros i x H; discriminate].
  - rewrite (main_run cwd w s l Hload Hcfg).
    destruct (loaded_run cwd w (s :: l)) as (_ & _ & Hs & _).
    cbv zeta in Hs. rewrite Hs.
    destruct (first_failure 0 _) as [[i x]|].
    + split; [simpl; lia|]. intros i' x' H. injection H as <- <-. reflexivity.
    + split; [|intros i x H; discriminate].
      destruct (fst _); simpl; lia.
Qed.

Lemma reported_facts (cwd : jsstring) (st : Replayer.State) :
  Replayer.results (reported cwd st) = Replayer.results st
  /\ files (Replayer.disk (reported cwd st)) (Replayer.REPORT_FILE cwd)
     = Some (Replayer.reportHtml (Replayer.results st))
  /\ Replayer.trace (reported cwd st)
     = Replayer.trace st
       ++ [BrowserClose;
           WriteFile (Replayer.REPORT_FILE cwd)
             (Replayer.reportHtml (Replayer.results st))].
Proof.
  unfold reported. simpl. rewrite jsstring_eqb_refl. repeat split.
Qed.

(** The report of a run that passed the checks: it is written, after the
    browser is closed and from the results gathered, unless the loop threw,
    no alert had been sent and the crash alert itself could not be sent. *)
Lemma loaded_run_report (cwd : jsstring) (w : Replayer.World) (l : list Step) :
  let r := Replayer.replay_loop (Replayer.at_step w) 0 l (loop_start w) in
  let final := snd (finish cwd w r) in
  (exists u, fst r = Ok u)
  \/ first_failure 0 (Replayer.results final) <> None
  \/ Replayer.crash_send_result w = Ok tt ->
  fst (finish cwd w r) = Replayer.Completed
  /\ files (Replayer.disk final) (Replayer.REPORT_FILE cwd)
     = Some (Replayer.reportHtml (Replayer.results final))
  /\ exists tr0,
       Replayer.trace final
       = tr0 ++ [BrowserClose;
                 WriteFile (Replayer.REPORT_FILE cwd)
                   (Replayer.reportHtml (Replayer.results final))].
Proof.
  intros r final H.
  destruct (loaded_run cwd w l) as (Hfin & _). fold r final in Hfin.
  destruct (loop_run (Replayer.at_step w) l 0 (loop_start w))
    as (rs & tr & Hres & _ & _ & _ & Hsend).
  fold r in Hres, Hsend.
  change (Replayer.failureEmailSent (loop_start w)) with false in Hsend.
  change (Replayer.results (loop_start w)) with (@nil StepResult) in Hres.
  simpl app in Hres. destruct Hsend as [_ Hlatch].
  rewrite Hfin, Hres in H. subst final.
  destruct r as [[[]|e] st1]; simpl fst in *; simpl snd in *.
  - unfold finish. simpl fst. simpl snd.
    destruct (reported_facts cwd st1) as (H1 & H2 & H3).
    rewrite H1. split; [reflexivity|]. split; [exact H2|]. eauto.
  - unfold finish. rewrite Hlatch.
    destruct (first_failure 0 rs) as [[i x]|]; simpl is_some; cbv iota.
    + simpl fst. simpl snd.
      destruct (reported_facts cwd st1) as (H1 & H2 & H3).
      rewrite H1. split; [reflexivity|]. split; [exact H2|]. eauto.
    + destruct H as [[u Hu] | [Hn | Hc]];
        [discriminate | contradiction |].
      rewrite Hc. simpl fst. simpl snd.
      destruct (reported_facts cwd
                  (with_events st1 [Replayer.crash_mail e]))
        as (H1 & H2 & H3).
      rewrite H1. split; [reflexivity|]. split; [exact H2|]. eauto.
Qed.

Lemma jsstring_eqb_app_l (a b c : jsstring) :
  jsstring_eqb (a ++ b) (a ++ c) = jsstring_eqb b c.
Proof.
  induction a as [|x a IH]; simpl; [reflexivity|].
  rewrite N.eqb_refl. exact IH.
Qed.

(** The report and the step store are different files. *)
Lemma store_is_not_report (cwd : jsstring) :
  jsstring_eqb (Replayer.OUT_FILE cwd) (Replayer.REPORT_FILE cwd) = false.
Proof.
  unfold Replayer.OUT_FILE, Replayer.OUT_DIR, Replayer.REPORT_FILE, path_join.
  rewrite <- app_assoc. rewrite jsstring_eqb_app_l. reflexivity.
Qed.

(** Loading reads nothing but the store file. *)
Lemma loadSteps_same_file (cwd : jsstring) (d d' : FileSystem)
  (l : list Step) :
  files d' (Replayer.OUT_FILE cwd) = files d (Replayer.OUT_FILE cwd) ->
  Replayer.loadSteps cwd d = Ok l ->
  Replayer.loadSteps cwd d' = Ok l.
Proof.
  unfold Replayer.loadSteps, existsSync, readFileSync. intros ->.
  destruct (files d (Replayer.OUT_FILE cwd)) as [text|]; [auto|].
  destruct (existsb _ _); simpl; discriminate.
Qed.

(** The results and the disk of any run, loaded or not. *)
Lemma main_results (cwd : jsstring) (w : Replayer.World) (l : list Step) :
  Replayer.loadSteps cwd (Replayer.disk0 w) = Ok l ->
  (forall p x,
     nth_error (Replayer.results (snd (Replayer.main cwd w))) p = Some x ->
     exists step live,
       nth_error l p = Some step
       /\ live_of (Replayer.at_step w p) = Some live
       /\ x = spread_result step live (Replayer.compare step live))
  /\ (forall p, jsstring_eqb p (Replayer.REPORT_FILE cwd) = false ->
      files (Replayer.disk (snd (Replayer.main cwd w))) p
      = files (Replayer.disk0 w) p).
Proof.
  intros Hload.
  destruct l as [|s l];
    [|destruct (Replayer.config_missing (Replayer.env w)) eqn:Hcfg].
  1, 2: destruct (main_early_exit cwd w) as (Hr & _ & Hd);
        [intros s' l' H; congruence|];
        rewrite Hr, Hd;
        split; [intros [|p] x H; discriminate | reflexivity].
  rewrite (main_run cwd w s l Hload Hcfg).
  destruct (loaded_run cwd w (s :: l)) as (_ & Hnth & _ & Hd & _).
  split; [exact Hnth | exact Hd].
Qed.

(** C9: every result of a run carries the fields of the step at its
    position unchanged (selector, url, target_href, content, timestamp,
    isInitial), next to the live content and the verdict; the store file is
    left as it was, and loading it after the run gives the same sequence. *)
Theorem result_preserves_step (cwd : jsstring) (w : Replayer.World)
  (l : list Step) :
  Replayer.loadSteps cwd (Replayer.disk0 w) = Ok l ->
  (forall p x,
     nth_error (Replayer.results (snd (Replayer.main cwd w))) p = Some x ->
     exists step,
       nth_error l p = Some step
       /\ r_selector x = selector step
       /\ r_url x = url step
       /\ r_target_href x = target_href step
       /\ r_content x = content step
       /\ r_timestamp x = timestamp step
       /\ r_isInitial x = isInitial step
       /\ step_of_result x = step)
  /\ files (Replayer.disk (snd (Replayer.main cwd w))) (Replayer.OUT_FILE cwd)
     = files (Replayer.disk0 w) (Replayer.OUT_FILE cwd)
  /\ Replayer.loadSteps cwd (Replayer.disk (snd (Replayer.main cwd w)))
     = Ok l.
Proof.
  intros Hload. destruct (main_results cwd w l Hload) as [Hnth Hd].
  specialize (Hd _ (store_is_not_report cwd)).
  split; [|split; [exact Hd|]].
  - intros p x H. destruct (Hnth p x H) as (step & live & H1 & _ & ->).
    exists step. rewrite step_of_spread_result. repeat split; auto.
  - exact (loadSteps_same_file cwd _ _ l Hd Hload).
Qed.

Lemma compare_spec (step : Step) (live : ContentSnapshot) :
  Replayer.compare step live = true <->
  normalize (firstP (content step)) = normalize (firstP live).
Proof. unfold Replayer.compare. apply jsstring_eqb_eq. Qed.

Lemma compare_words (step : Step) (live : ContentSnapshot) :
  Replayer.compare step live = true <->
  words (or_empty (firstP (content step))) = words (or_empty (firstP live)).
Proof. rewrite compare_spec. apply normalize_eq_words. Qed.

(** C2, amended: in every run, the verdict of each recorded result is the
    equality of the normalized recorded [firstP] and the normalized live
    [firstP], where normalizing leaves the words of the text joined by
    single spaces, so that a result passes exactly when the two texts have
    the same words; title, h1, metaDescription (and every other field) of
    either side never enter the comparison; a step that is reached after
    steps that ran without exception and whose page is read gets its
    result whether it passes or fails and whatever the steps before it
    said; when every step runs without exception there is one result per
    step; and when the transport throws on the alert of the first mismatch
    the loop ends there: that step has the last result. *)
Theorem pass_is_firstP_equality (cwd : jsstring) (w : Replayer.World)
  (l : list Step) :
  Replayer.loadSteps cwd (Replayer.disk0 w) = Ok l ->
  (forall p x,
     nth_error (Replayer.results (snd (Replayer.main cwd w))) p = Some x ->
     exists step live,
       nth_error l p = Some step
       /\ live_of (Replayer.at_step w p) = Some live
       /\ liveContent x = live
       /\ (pass x = true <->
           normalize (firstP (content step)) = normalize (firstP live))
       /\ (pass x = true <->
           words (or_empty (firstP (content step)))
           = words (or_empty (firstP live))))
  /\ (forall s : option jsstring, normalize s = unwords (words (or_empty s)))
  /\ (forall (sel sel' : option jsstring) (u u' t t' : jsstring)
             (ts ts' : Z) (ini ini' : option bool)
             (ti ti' h h' m m' b b' : option jsstring)
             (lti lti' lh lh' lm lm' lb lb' : option jsstring)
             (recorded live : option jsstring),
        Replayer.compare
          (mkStep sel u t (mkContent ti h recorded m b) ts ini)
          (mkContent lti lh live lm lb)
        = Replayer.compare
            (mkStep sel' u' t' (mkContent ti' h' recorded m' b') ts' ini')
            (mkContent lti' lh' live lm' lb'))
  /\ (Replayer.config_missing (Replayer.env w) = false ->
      forall k step live,
        nth_error l k = Some step ->
        clean_before w l k ->
        live_of (Replayer.at_step w k) = Some live ->
        nth_error (Replayer.results (snd (Replayer.main cwd w))) k
        = Some (spread_result step live (Replayer.compare step live)))
  /\ (Replayer.config_missing (Replayer.env w) = false ->
      clean_before w l (length l) ->
      length (Replayer.results (snd (Replayer.main cwd w))) = length l)
  /\ (Replayer.config_missing (Replayer.env w) = false ->
      forall k e,
        clean_before w l k ->
        first_mismatch w l k ->
        Replayer.send_result (Replayer.at_step w k) = Throw e ->
        length (Replayer.results (snd (Replayer.main cwd w))) = S k).
Proof.
  intros Hload. destruct (main_results cwd w l Hload) as [Hnth _].
  split; [|split; [exact normalize_unwords |split; [reflexivity|split;
                                                     [|split]]]].
  - intros p x H. destruct (Hnth p x H) as (step & live & H1 & H2 & ->).
    exists step, live. cbn [liveContent pass spread_result].
    split; [exact H1|]. split; [exact H2|]. split; [reflexivity|].
    split; [apply compare_spec | apply compare_words].
  - intros Hcfg k step live Hk Hclean Hlive.
    destruct l as [|s l']; [destruct k; discriminate|].
    assert (Hlt : k < length (s :: l')).
    { apply nth_error_Some. congruence. }
    pose proof (run_reaches w (s :: l') k live Hlt Hclean Hlive) as Hreach.
    destruct (loaded_run cwd w (s :: l')) as (Hfin & _).
    cbv zeta in Hfin. rewrite <- Hfin in Hreach.
    rewrite <- (main_run cwd w s l' Hload Hcfg) in Hreach.
    destruct (nth_error (Replayer.results (snd (Replayer.main cwd w))) k)
      as [x|] eqn:Hx.
    + destruct (Hnth k x Hx) as (step' & live' & H1 & H2 & ->).
      congruence.
    + apply nth_error_None in Hx. lia.
  - intros Hcfg Hclean. destruct l as [|s l'].
    + destruct (main_early_exit cwd w) as (Hr & _);
        [intros s' l' H; congruence|]. rewrite Hr. reflexivity.
    + rewrite (main_run cwd w s l' Hload Hcfg).
      destruct (loaded_run cwd w (s :: l')) as (Hfin & _).
      cbv zeta in Hfin. rewrite Hfin.
      exact (proj2 (run_completes w (s :: l') Hclean)).
  - intros Hcfg k e Hclean Hfirst Hsend.
    destruct (Hfirst) as [(step & live & Hn & Hl & Hc) _].
    assert (Hlt : k < length l) by (apply nth_error_Some; congruence).
    destruct l as [|s l']; [simpl in Hlt; lia|].
    rewrite (main_run cwd w s l' Hload Hcfg).
    destruct (loaded_run cwd w (s :: l')) as (Hfin & _).
    cbv zeta in Hfin. rewrite Hfin.
    refine (proj2 (run_crash_late w (s :: l') k live e Hlt Hclean Hl _)).
    left. split; [exact Hfirst | exact Hsend].
Qed.

(** C5, amended: let the steps before index [k] run without exception.
    When the navigation, the wait or the evaluation of the step at index
    [k] throws, results exist for exactly the [k] steps before it; when
    that step is read and then throws (the transport at the mismatch alert
    due there, or the closing wait), for that step too.  In every case the
    results are those of their steps, the browser is closed, the crash
    alert with the error is the one mail handed to the transport when no
    result failed, and no crash alert is handed over when one did; and the
    report is written from exactly those results, provided the transport
    does not throw on a crash alert that is due. *)
Theorem crash_path (cwd : jsstring) (w : Replayer.World) (l : list Step)
  (k : nat) (e : jsstring) :
  Replayer.loadSteps cwd (Replayer.disk0 w) = Ok l ->
  Replayer.config_missing (Replayer.env w) = false ->
  k < length l ->
  clean_before w l k ->
  let final := snd (Replayer.main cwd w) in
  (early_error (Replayer.at_step w k) = Some e ->
   length (Replayer.results final) = k)
  /\ (forall live,
        live_of (Replayer.at_step w k) = Some live ->
        late_crash w l k e ->
        length (Replayer.results final) = S k)
  /\ (early_error (Replayer.at_step w k) = Some e
      \/ (exists live,
            live_of (Replayer.at_step w k) = Some live
            /\ late_crash w l k e) ->
      (forall p x,
         nth_error (Replayer.results final) p = Some x ->
         exists step live,
           nth_error l p = Some step
           /\ live_of (Replayer.at_step w p) = Some live
           /\ x = spread_result step live (Replayer.compare step live))
      /\ In BrowserClose (Replayer.trace final)
      /\ sends (Replayer.trace final)
         = match first_failure 0 (Replayer.results final) with
           | Some (i, x) =>
               [Replayer.mismatch_mail i (step_of_result x) (liveContent x)]
           | None => [Replayer.crash_mail e]
           end
      /\ (first_failure 0 (Replayer.results final) <> None
          \/ Replayer.crash_send_result w = Ok tt ->
          fst (Replayer.main cwd w) = Replayer.Completed
          /\ files (Replayer.disk final) (Replayer.REPORT_FILE cwd)
             = Some (Replayer.reportHtml (Replayer.results final))
          /\ exists tr0,
               Replayer.trace final
               = tr0 ++ [BrowserClose;
                         WriteFile (Replayer.REPORT_FILE cwd)
                           (Replayer.reportHtml (Replayer.results final))])).
Proof.
  intros Hload Hcfg Hk Hclean final.
  destruct l as [|s l']; [simpl in Hk; lia|].
  pose proof (main_run cwd w s l' Hload Hcfg) as Hmain.
  destruct (loaded_run cwd w (s :: l')) as (Hfin & Hnth & Hsends & _ & Hclose).
  pose proof (loaded_run_report cwd w (s :: l')) as Hrep.
  cbv zeta in Hfin, Hnth, Hsends, Hclose, Hrep.
  rewrite <- Hmain in Hfin, Hnth, Hsends, Hclose, Hrep.
  fold final in Hfin, Hnth, Hsends, Hclose, Hrep.
  assert (Hearly : early_error (Replayer.at_step w k) = Some e ->
            fst (Replayer.replay_loop (Replayer.at_step w) 0 (s :: l')
                   (loop_start w)) = Throw e
            /\ length (Replayer.results final) = k).
  { intros He.
    destruct (run_crash_early w (s :: l') k e Hk Hclean He) as [H1 H2].
    rewrite Hfin. split; [exact H1 | exact H2]. }
  assert (Hlate : forall live,
            live_of (Replayer.at_step w k) = Some live ->
            late_crash w (s :: l') k e ->
            fst (Replayer.replay_loop (Replayer.at_step w) 0 (s :: l')
                   (loop_start w)) = Throw e
            /\ length (Replayer.results final) = S k).
  { intros live H1 H2.
    destruct (run_crash_late w (s :: l') k live e Hk Hclean H1 H2)
      as [H4 H5].
    rewrite Hfin. split; [exact H4 | exact H5]. }
  split; [intros He; exact (proj2 (Hearly He))|].
  split; [intros live H1 H2; exact (proj2 (Hlate live H1 H2))|].
  intros Hcrash.
  assert (Hthrow : fst (Replayer.replay_loop (Replayer.at_step w) 0
                          (s :: l') (loop_start w)) = Throw e).
  { destruct Hcrash as [He | (live & H1 & H2)].
    - exact (proj1 (Hearly He)).
    - exact (proj1 (Hlate live H1 H2)). }
  split; [exact Hnth|]. split; [exact Hclose|].
  split.
  - rewrite Hsends, Hthrow. reflexivity.
  - intros H. apply Hrep. right. exact H.
Qed.

(* ================================================================== *)
(** * Replayer: concrete runs *)
(* ================================================================== *)

(** Three steps that all fail: the alert is accepted, each step has its
    result, the second one included, after the first has failed. *)
Lemma pass_is_firstP_equality_witness :
  length (Replayer.results (snd (Replayer.main (lit "/work") beta_world))) = 3
  /\ nth_error
       (Replayer.results (snd (Replayer.main (lit "/work") beta_world))) 1
     = Some (spread_result (alpha_step 2) (extractContent beta_page)
               (Replayer.compare (alpha_step 2) (extractContent beta_page))).
Proof.
  assert (Hload : Replayer.loadSteps (lit "/work")
                    (Replayer.disk0 beta_world) = Ok alpha_steps).
  { vm_compute. reflexivity. }
  assert (Hclean : forall k, clean_before beta_world alpha_steps k).
  { intros k j _. split; reflexivity. }
  destruct (pass_is_firstP_equality (lit "/work") beta_world alpha_steps
              Hload)
    as (_ & _ & _ & Hreach & Hall & _).
  split.
  - exact (Hall eq_refl (Hclean _)).
  - exact (Hreach eq_refl 1 (alpha_step 2) (extractContent beta_page)
             eq_refl (Hclean 1) eq_refl).
Defined.

(** C2, as stated, fails.  In [refused_world] three steps are recorded
    and every page can be read; the first comparison fails and the
    transport throws on the alert, which ends the loop: the run has one
    result, and the second step, which comes after a mismatch, is never
    replayed. *)
Lemma refused_alert_stops_replay :
  Replayer.loadSteps (lit "/work") (Replayer.disk0 refused_world)
  = Ok alpha_steps
  /\ forallb (fun j => calls_ok (Replayer.at_step refused_world j))
       [0; 1; 2] = true
  /\ Replayer.compare (alpha_step 1) (extractContent beta_page) = false
  /\ Replayer.send_result (Replayer.at_step refused_world 0)
     = Throw (lit "ECONNREFUSED")
  /\ length (Replayer.results
               (snd (Replayer.main (lit "/work") refused_world))) = 1
  /\ nth_error (Replayer.results
                  (snd (Replayer.main (lit "/work") refused_world))) 1
     = None.
Proof. repeat split; vm_compute; reflexivity. Qed.

(** Three steps that all fail: one mail, the alert of the first. *)
Lemma at_most_one_alert_witness :
  length (Replayer.results (snd (Replayer.main (lit "/work") beta_world))) = 3
  /\ forallb (fun x => negb (pass x))
       (Replayer.results (snd (Replayer.main (lit "/work") beta_world)))
     = true
  /\ sends (Replayer.trace (snd (Replayer.main (lit "/work") beta_world)))
     = [Replayer.mismatch_mail 0 (alpha_step 1) (extractContent beta_page)].
Proof.
  split; [vm_compute; reflexivity|]. split; [vm_compute; reflexivity|].
  refine (proj2 (at_most_one_alert (lit "/work") beta_world) 0
            (spread_result (alpha_step 1) (extractContent beta_page) false) _).
  vm_compute. reflexivity.
Defined.

(** After a run with three failed steps the store loads as before. *)
Lemma result_preserves_step_witness :
  Replayer.loadSteps (lit "/work")
    (Replayer.disk (snd (Replayer.main (lit "/work") beta_world)))
  = Ok alpha_steps.
Proof.
  refine (proj2 (proj2 (result_preserves_step (lit "/work") beta_world
                          alpha_steps _))).
  vm_compute. reflexivity.
Defined.

(** C5, as stated, fails.  In [closed_world] the crash happens while the
    first and only step is replayed, after its result was pushed: the run
    has one result, where the claim allows none. *)
Lemma crash_after_push :
  Replayer.loadSteps (lit "/work") (Replayer.disk0 closed_world)
  = Ok [tiger_step]
  /\ early_error (Replayer.at_step closed_world 0) = None
  /\ Replayer.pause_result (Replayer.at_step closed_world 0)
     = Throw (lit "Target closed")
  /\ length (Replayer.results
               (snd (Replayer.main (lit "/work") closed_world))) = 1
  /\ sends (Replayer.trace (snd (Replayer.main (lit "/work") closed_world)))
     = [Replayer.crash_mail (lit "Target closed")].
Proof. repeat split; vm_compute; reflexivity. Qed.

(** The navigation of step 3 of 5 times out: two results, the browser
    closed, the run completed and the report written from the two. *)
Lemma crash_path_witness :
  length (Replayer.results
            (snd (Replayer.main (lit "/work") timeout_world))) = 2
  /\ In BrowserClose
       (Replayer.trace (snd (Replayer.main (lit "/work") timeout_world)))
  /\ fst (Replayer.main (lit "/work") timeout_world) = Replayer.Completed
  /\ files (Replayer.disk (snd (Replayer.main (lit "/work") timeout_world)))
       (Replayer.REPORT_FILE (lit "/work"))
     = Some (Replayer.reportHtml
               (Replayer.results
                  (snd (Replayer.main (lit "/work") timeout_world)))).
Proof.
  assert (Hload : Replayer.loadSteps (lit "/work")
                    (Replayer.disk0 timeout_world) = Ok five_steps).
  { vm_compute. reflexivity. }
  assert (Hclean : clean_before timeout_world five_steps 2).
  { intros [|[|j]] Hj; [split; reflexivity | split; reflexivity | lia]. }
  assert (Hk : 2 < length five_steps) by (simpl; lia).
  destruct (crash_path (lit "/work") timeout_world five_steps 2
              (lit "Timeout 30000ms exceeded") Hload eq_refl Hk Hclean)
    as (Hlen & _ & Hrest).
  destruct (Hrest (or_introl eq_refl)) as (_ & Hclose & _ & Hreport).
  destruct (Hreport (or_intror eq_refl)) as (Hend & Hfile & _).
  split; [exact (Hlen eq_refl)|]. split; [exact Hclose|].
  split; [exact Hend | exact Hfile].
Defined.

(* ================================================================== *)
(** * Step store: numbers *)
(* ================================================================== *)

Lemma digits_fuel_app (f : nat) :
  forall (n : N) (acc : jsstring),
    digits_fuel f n acc = digits_fuel f n [] ++ acc.
Proof.
  induction f as [|f IH]; intros n acc; simpl; [reflexivity|].
  destruct (n <? 10)%N; [reflexivity|].
  rewrite IH, (IH _ [_]), <- app_assoc. reflexivity.
Qed.

Lemma is_digit_of_mod (n : N) : is_digit (48 + n mod 10)%N = true.
Proof.
  unfold is_digit. pose proof (N.mod_lt n 10 ltac:(lia)) as H.
  revert H. generalize (n mod 10)%N. intros m H.
  apply andb_true_iff. split; apply N.leb_le; lia.
Qed.

Lemma digits_fuel_digits (f : nat) :
  forall (n : N) (acc : jsstring),
    forallb is_digit acc = true ->
    forallb is_digit (digits_fuel f n acc) = true.
Proof.
  induction f as [|f IH]; intros n acc H; cbn [digits_fuel]; [exact H|].
  destruct (n <? 10)%N.
  - cbn [forallb]. rewrite is_digit_of_mod. exact H.
  - apply IH. cbn [forallb]. rewrite is_digit_of_mod. exact H.
Qed.

Lemma digits_fuel_value (f : nat) :
  forall (n : N) (acc : jsstring),
    (n < 10 ^ N.of_nat f)%N ->
    digits_value 0 (digits_fuel f n acc) = digits_value n acc.
Proof.
  induction f as [|f IH]; intros n acc H.
  - simpl in H. assert (n = 0%N) by lia. subst n. reflexivity.
  - rewrite Nat2N.inj_succ, N.pow_succ_r' in H. cbn [digits_fuel].
    destruct (N.ltb_spec n 10) as [Hlt | Hge].
    + unfold digits_value. cbn [fold_left].
      rewrite N.mod_small by exact Hlt. f_equal. lia.
    + rewrite IH.
      * unfold digits_value. cbn [fold_left]. f_equal.
        pose proof (N.div_mod n 10 ltac:(lia)) as D. revert D.
        generalize (n / 10)%N (n mod 10)%N. intros q r D. lia.
      * apply N.Div0.div_lt_upper_bound. exact H.
Qed.

(** The first digit written for a positive number is not a zero. *)
Lemma digits_fuel_head (f : nat) :
  forall (n : N) (acc : jsstring),
    (0 < n)%N -> (n < 10 ^ N.of_nat f)%N ->
    exists c tl,
      digits_fuel f n acc = c :: tl /\ is_digit c = true /\ c <> 48%N.
Proof.
  induction f as [|f IH]; intros n acc Hpos H.
  - simpl in H. lia.
  - rewrite Nat2N.inj_succ, N.pow_succ_r' in H. cbn [digits_fuel].
    destruct (N.ltb_spec n 10) as [Hlt | Hge].
    + exists (48 + n mod 10)%N, acc. split; [reflexivity|].
      split; [apply is_digit_of_mod|].
      rewrite N.mod_small by exact Hlt. lia.
    + apply IH.
      * apply N.div_str_pos. lia.
      * apply N.Div0.div_lt_upper_bound. exact H.
Qed.

Lemma fuel_of_log2 (n : N) :
  N.lt n (N.pow 10 (N.of_nat (S (N.to_nat (N.log2 n))))).
Proof.
  rewrite Nat2N.inj_succ, N2Nat.id.
  destruct (N.eq_dec n 0) as [-> | Hn]; [simpl; lia|].
  destruct (N.log2_spec n ltac:(lia)) as [_ H].
  eapply N.lt_le_trans; [exact H|].
  apply N.pow_le_mono_l. lia.
Qed.

Lemma parse_digits_app (ds rest : jsstring) :
  forall a : N,
    forallb is_digit ds = true ->
    match rest with [] => true | c :: _ => negb (is_digit c) end = true ->
    parse_digits a (ds ++ rest) = (digits_value a ds, rest).
Proof.
  induction ds as [|d ds IH]; intros a Hd Hr; simpl.
  - destruct rest as [|c rest]; [reflexivity|].
    simpl. apply negb_true_iff in Hr. rewrite Hr. reflexivity.
  - simpl in Hd. apply andb_true_iff in Hd. destruct Hd as [Hd1 Hd2].
    rewrite Hd1. apply IH; assumption.
Qed.

Lemma ok_follow_not_digit (rest : jsstring) :
  ok_follow rest ->
  match rest with [] => true | c :: _ => negb (is_digit c) end = true
  /\ integer_ends rest = true.
Proof.
  destruct rest as [|c rest]; simpl; [auto|].
  intros [-> | ->]; split; reflexivity.
Qed.

Lemma parse_nat_decimal (n : N) (rest : jsstring) :
  ok_follow rest ->
  parse_nat (N_to_decimal n ++ rest) = Some (n, rest).
Proof.
  intros Hf. destruct (ok_follow_not_digit rest Hf) as [Hnd _].
  unfold N_to_decimal.
  pose proof (fuel_of_log2 n) as Hfuel.
  set (f := S (N.to_nat (N.log2 n))) in *.
  assert (Hval : digits_value 0 (digits_fuel f n []) = n).
  { rewrite digits_fuel_value by exact Hfuel. reflexivity. }
  assert (Hdig : forallb is_digit (digits_fuel f n []) = true).
  { apply digits_fuel_digits. reflexivity. }
  destruct (N.eq_dec n 0) as [-> | Hn].
  - subst f. simpl. destruct rest as [|c rest]; [reflexivity|].
    simpl in Hnd. apply negb_true_iff in Hnd. rewrite Hnd. reflexivity.
  - destruct (digits_fuel_head f n [] ltac:(lia) Hfuel)
      as (c & tl & E & Hc & Hc48).
    pose proof (parse_digits_app (digits_fuel f n []) rest 0%N Hdig Hnd)
      as Hp.
    rewrite Hval in Hp. rewrite E in Hp |- *. simpl app in *.
    unfold parse_nat. apply N.eqb_neq in Hc48. rewrite Hc48, Hc, Hp.
    reflexivity.
Qed.

Lemma decimal_head_digit (n : N) :
  exists c tl, N_to_decimal n = c :: tl /\ is_digit c = true.
Proof.
  destruct (N.eq_dec n 0) as [-> | Hn].
  - exists 48%N, []. split; reflexivity.
  - destruct (digits_fuel_head (S (N.to_nat (N.log2 n))) n []
                ltac:(lia) (fuel_of_log2 n)) as (c & tl & E & Hc & _).
    exists c, tl. auto.
Qed.

(** Printing an integer and parsing it gives the integer back. *)
Lemma parse_number_decimal (z : Z) (rest : jsstring) :
  ok_follow rest ->
  parse_number (Z_to_decimal z ++ rest) = Some (z, rest).
Proof.
  intros Hf. destruct (ok_follow_not_digit rest Hf) as [_ Hend].
  destruct z as [|p|p]; unfold Z_to_decimal.
  - simpl Z.to_N.
    destruct (decimal_head_digit 0) as (c & tl & E & Hc).
    pose proof (parse_nat_decimal 0 rest Hf) as Hp.
    rewrite E in Hp |- *. simpl app in *. unfold parse_number.
    assert (N.eqb c 45 = false) as ->.
    { apply N.eqb_neq. intros ->. discriminate. }
    rewrite Hp, Hend. reflexivity.
  - simpl Z.to_N.
    destruct (decimal_head_digit (N.pos p)) as (c & tl & E & Hc).
    pose proof (parse_nat_decimal (N.pos p) rest Hf) as Hp.
    rewrite E in Hp |- *. simpl app in *. unfold parse_number.
    assert (N.eqb c 45 = false) as ->.
    { apply N.eqb_neq. intros ->. discriminate. }
    rewrite Hp, Hend. reflexivity.
  - simpl app. unfold parse_number. rewrite N.eqb_refl.
    rewrite (parse_nat_decimal (N.pos p) rest Hf), Hend. reflexivity.
Qed.

(* ================================================================== *)
(** * Step store: strings *)
(* ================================================================== *)

Lemma hex_val_hex_digit (d : N) : (d < 16)%N -> hex_val (hex_digit d) = Some d.
Proof.
  intros H.
  assert (E : (d = 0 \/ d = 1 \/ d = 2 \/ d = 3 \/ d = 4 \/ d = 5 \/ d = 6
               \/ d = 7 \/ d = 8 \/ d = 9 \/ d = 10 \/ d = 11 \/ d = 12
               \/ d = 13 \/ d = 14 \/ d = 15)%N) by lia.
  repeat (destruct E as [-> | E]; [reflexivity|]). subst d. reflexivity.
Qed.

Lemma hex4_unicode_digits (c : jschar) :
  (c < 65536)%N ->
  hex4 (hex_digit ((c / 4096) mod 16)) (hex_digit ((c / 256) mod 16))
       (hex_digit ((c / 16) mod 16)) (hex_digit (c mod 16))
  = Some c.
Proof.
  intros H. unfold hex4.
  rewrite !hex_val_hex_digit by (apply N.mod_lt; lia).
  f_equal.
  pose proof (N.div_mod c 16 ltac:(lia)) as D0.
  pose proof (N.div_mod (c / 16) 16 ltac:(lia)) as D1.
  pose proof (N.div_mod (c / 256) 16 ltac:(lia)) as D2.
  pose proof (N.mod_lt c 16 ltac:(lia)) as L0.
  pose proof (N.mod_lt (c / 16) 16 ltac:(lia)) as L1.
  pose proof (N.mod_lt (c / 256) 16 ltac:(lia)) as L2.
  assert (E1 : (c / 16 / 16 = c / 256)%N) by (rewrite N.Div0.div_div; reflexivity).
  assert (E2 : (c / 256 / 16 = c / 4096)%N) by (rewrite N.Div0.div_div; reflexivity).
  rewrite E1 in D1. rewrite E2 in D2.
  assert (L3 : (c / 4096 < 16)%N)
    by (apply N.Div0.div_lt_upper_bound; exact H).
  rewrite (N.mod_small (c / 4096) 16 L3).
  revert D0 D1 D2 L0 L1 L2 L3.
  generalize (c mod 16)%N ((c / 16) mod 16)%N ((c / 256) mod 16)%N
    (c / 16)%N (c / 256)%N (c / 4096)%N.
  intros r0 r1 r2 q1 q2 q3 D0 D1 D2 L0 L1 L2 L3. lia.
Qed.

Lemma parse_plain (c : jschar) (t : jsstring) :
  c <> 34%N -> c <> 92%N -> (32 <= c)%N ->
  parse_string_body (c :: t) = prepend c (parse_string_body t).
Proof.
  intros H1 H2 H3. cbn [parse_string_body].
  apply N.eqb_neq in H1, H2. rewrite H1, H2.
  assert (N.ltb c 32 = false) as -> by (apply N.ltb_ge; exact H3).
  reflexivity.
Qed.

Lemma parse_simple (e u : jschar) (t : jsstring) :
  simple_escape e = Some u -> e <> 117%N ->
  parse_string_body (92%N :: e :: t) = prepend u (parse_string_body t).
Proof.
  intros H1 H2. cbn [parse_string_body]. apply N.eqb_neq in H2.
  change (N.eqb 92 34) with false. change (N.eqb 92 92) with true.
  cbv iota. rewrite H2, H1. reflexivity.
Qed.

Lemma parse_unicode (c : jschar) (t : jsstring) :
  (c < 65536)%N ->
  parse_string_body (unicode_escape c ++ t)
  = prepend c (parse_string_body t).
Proof.
  intros H. unfold unicode_escape. cbn [app parse_string_body].
  change (N.eqb 92 34) with false. change (N.eqb 92 92) with true.
  change (N.eqb 117 117) with true. cbv iota.
  rewrite hex4_unicode_digits by exact H. reflexivity.
Qed.

(** Quoting a string and reading the literal back gives the string. *)
Lemma parse_quote_body (n : nat) :
  forall (s rest : jsstring),
    length s <= n ->
    code_units s = true ->
    parse_string_body (quote_body s ++ dquote :: rest) = Some (s, rest).
Proof.
  induction n as [|n IH]; intros s rest Hlen Hs.
  - destruct s; [|simpl in Hlen; lia]. simpl. reflexivity.
  - destruct s as [|c tl]; [reflexivity|].
    simpl in Hlen. cbn [code_units forallb] in Hs.
    apply andb_true_iff in Hs. destruct Hs as [Hc Htl].
    apply N.ltb_lt in Hc. fold (code_units tl) in Htl.
    assert (IHtl : parse_string_body (quote_body tl ++ dquote :: rest)
                   = Some (tl, rest)).
    { apply IH; [lia | exact Htl]. }
    cbn [quote_body].
    destruct (N.eqb_spec c 8) as [-> | N8].
    { cbn [app]. rewrite (parse_simple 98%N 8%N) by (reflexivity || discriminate).
      rewrite IHtl. reflexivity. }
    destruct (N.eqb_spec c 9) as [-> | N9].
    { cbn [app]. rewrite (parse_simple 116%N 9%N) by (reflexivity || discriminate).
      rewrite IHtl. reflexivity. }
    destruct (N.eqb_spec c 10) as [-> | N10].
    { cbn [app]. rewrite (parse_simple 110%N 10%N) by (reflexivity || discriminate).
      rewrite IHtl. reflexivity. }
    destruct (N.eqb_spec c 12) as [-> | N12].
    { cbn [app]. rewrite (parse_simple 102%N 12%N) by (reflexivity || discriminate).
      rewrite IHtl. reflexivity. }
    destruct (N.eqb_spec c 13) as [-> | N13].
    { cbn [app]. rewrite (parse_simple 114%N 13%N) by (reflexivity || discriminate).
      rewrite IHtl. reflexivity. }
    destruct (N.eqb_spec c 34) as [-> | N34].
    { cbn [app]. rewrite (parse_simple 34%N 34%N) by (reflexivity || discriminate).
      rewrite IHtl. reflexivity. }
    destruct (N.eqb_spec c 92) as [-> | N92].
    { cbn [app]. rewrite (parse_simple 92%N 92%N) by (reflexivity || discriminate).
      rewrite IHtl. reflexivity. }
    destruct (N.ltb_spec c 32) as [L32 | G32].
    { rewrite <- app_assoc, parse_unicode by exact Hc.
      rewrite IHtl. reflexivity. }
    destruct (is_lead_surrogate c) eqn:Hlead.
    { destruct tl as [|d tl'].
      - rewrite parse_unicode by exact Hc. reflexivity.
      - destruct (is_trail_surrogate d) eqn:Htrail.
        + cbn [code_units forallb] in Htl.
          apply andb_true_iff in Htl. destruct Htl as [Hd Htl'].
          fold (code_units tl') in Htl'.
          unfold is_trail_surrogate in Htrail.
          apply andb_true_iff in Htrail. destruct Htrail as [T1 T2].
          apply N.leb_le in T1, T2.
          cbn [app]. rewrite parse_plain by (assumption || lia).
          rewrite parse_plain by lia.
          rewrite IH by (simpl in Hlen |- *; lia || exact Htl').
          reflexivity.
        + rewrite <- app_assoc, parse_unicode by exact Hc.
          rewrite IHtl. reflexivity. }
    destruct (is_trail_surrogate c) eqn:Htrail.
    { rewrite <- app_assoc, parse_unicode by exact Hc.
      rewrite IHtl. reflexivity. }
    cbn [app]. rewrite parse_plain by assumption.
    rewrite IHtl. reflexivity.
Qed.

Lemma parse_quote (s rest : jsstring) :
  code_units s = true ->
  exists body,
    quote s ++ rest = dquote :: body
    /\ parse_string_body body = Some (s, rest).
Proof.
  intros H. exists (quote_body s ++ dquote :: rest). split.
  - unfold quote. simpl. rewrite <- app_assoc. reflexivity.
  - apply (parse_quote_body (length s)); [lia | exact H].
Qed.

(* ================================================================== *)
(** * Step store: documents *)
(* ================================================================== *)

Lemma skip_ws_indent (n : nat) (s : jsstring) :
  skip_ws (newline_indent n ++ s) = skip_ws s.
Proof.
  unfold newline_indent, skip_ws. cbn [app dropWhile].
  change (is_json_ws 10%N) with true. cbv iota.
  induction n as [|n IH]; [reflexivity|]. exact IH.
Qed.

Lemma skip_ws_idem (s : jsstring) : skip_ws (skip_ws s) = skip_ws s.
Proof. apply dropWhile_idem. Qed.

Lemma skip_ws_head (c : jschar) (s : jsstring) :
  is_json_ws c = false -> skip_ws (c :: s) = c :: s.
Proof. intros H. unfold skip_ws. simpl. rewrite H. reflexivity. Qed.

Lemma parse_value_skip_ws (fuel : nat) (s : jsstring) :
  parse_value fuel (skip_ws s) = parse_value fuel s.
Proof.
  destruct fuel; [reflexivity|]. cbn [parse_value].
  rewrite skip_ws_idem. reflexivity.
Qed.

Lemma parse_value_indent (fuel n : nat) (s : jsstring) :
  parse_value fuel (newline_indent n ++ s) = parse_value fuel s.
Proof.
  rewrite <- parse_value_skip_ws, skip_ws_indent, parse_value_skip_ws.
  reflexivity.
Qed.

Lemma parse_value_space (fuel : nat) (s : jsstring) :
  parse_value fuel (32%N :: s) = parse_value fuel s.
Proof.
  rewrite <- parse_value_skip_ws. unfold skip_ws. cbn [dropWhile].
  change (is_json_ws 32%N) with true. cbv iota.
  apply parse_value_skip_ws.
Qed.

Lemma is_digit_bounds (c : jschar) :
  is_digit c = true -> (48 <= c <= 57)%N.
Proof.
  unfold is_digit. rewrite andb_true_iff, !N.leb_le. tauto.
Qed.

(** The first character of a printed value: not white space, and neither a
    closing bracket nor a closing brace. *)
Lemma stringify_head (ind : nat) (v : json) :
  exists c tl,
    stringify ind v = c :: tl
    /\ is_json_ws c = false /\ c <> 93%N /\ c <> 125%N.
Proof.
  destruct v as [|[|]|z|s|[|x xs]|[|m ms]];
    try (eexists; eexists; split; [reflexivity|];
         repeat split; (reflexivity || discriminate)).
  destruct z as [|p|p]; try (eexists; eexists; split; [reflexivity|];
         repeat split; (reflexivity || discriminate)).
  cbn [stringify Z_to_decimal Z.to_N].
  destruct (decimal_head_digit (N.pos p)) as (c & tl & E & Hc).
  exists c, tl. split; [exact E|]. apply is_digit_bounds in Hc.
  unfold is_json_ws. rewrite !orb_false_iff, !N.eqb_neq. lia.
Qed.

Lemma parses_back_null : parses_back JNull.
Proof.
  intros ind rest fuel Hf _. destruct fuel; [simpl in Hf; lia|]. reflexivity.
Qed.

Lemma parses_back_bool (b : bool) : parses_back (JBool b).
Proof.
  intros ind rest fuel Hf _. destruct fuel; [simpl in Hf; lia|].
  destruct b; reflexivity.
Qed.

Lemma decimal_head (z : Z) :
  exists c tl,
    Z_to_decimal z = c :: tl /\ (is_digit c = true \/ c = 45%N).
Proof.
  destruct z as [|p|p]; unfold Z_to_decimal.
  - destruct (decimal_head_digit (Z.to_N 0)) as (c & tl & E & Hc). eauto.
  - destruct (decimal_head_digit (Z.to_N (Z.pos p))) as (c & tl & E & Hc).
    eauto.
  - eauto.
Qed.

Lemma parses_back_num (z : Z) : parses_back (JNum z).
Proof.
  intros ind rest fuel Hf Hrest. destruct fuel; [simpl in Hf; lia|].
  cbn [stringify parse_value].
  pose proof (parse_number_decimal z rest Hrest) as Hp.
  destruct (decimal_head z) as (c & tl & E & Hc).
  rewrite E in Hp |- *. cbn [app] in Hp |- *.
  assert (Hb : (48 <= c <= 57)%N \/ c = 45%N).
  { destruct Hc as [Hc | Hc]; [left; apply is_digit_bounds; exact Hc | auto]. }
  rewrite skip_ws_head
    by (unfold is_json_ws; rewrite !orb_false_iff, !N.eqb_neq; lia).
  assert (N.eqb c 110 = false) as -> by (apply N.eqb_neq; lia).
  assert (N.eqb c 116 = false) as -> by (apply N.eqb_neq; lia).
  assert (N.eqb c 102 = false) as -> by (apply N.eqb_neq; lia).
  assert (N.eqb c 34 = false) as -> by (apply N.eqb_neq; lia).
  assert (N.eqb c 91 = false) as -> by (apply N.eqb_neq; lia).
  assert (N.eqb c 123 = false) as -> by (apply N.eqb_neq; lia).
  rewrite Hp. reflexivity.
Qed.

Lemma parses_back_str (s : jsstring) :
  code_units s = true -> parses_back (JStr s).
Proof.
  intros Hs ind rest fuel Hf _. destruct fuel; [simpl in Hf; lia|].
  cbn [stringify parse_value].
  destruct (parse_quote s rest Hs) as (body & E & Hp).
  rewrite E. rewrite skip_ws_head by reflexivity.
  unfold dquote. cbn [N.eqb Pos.eqb]. rewrite Hp. reflexivity.
Qed.

(** The elements of a printed array are read back. *)
Lemma parse_elements_printed (xs : list json) :
  forall (x : json) (ind : nat) (rest : jsstring) (fuel : nat),
    Forall parses_back (x :: xs) ->
    items_size jsize (x :: xs) < fuel ->
    parse_elements fuel
      (newline_indent (2 + ind) ++ stringify (2 + ind) x
       ++ flat_map (fun y =>
            44%N :: newline_indent (2 + ind) ++ stringify (2 + ind) y) xs
       ++ newline_indent ind ++ 93%N :: rest)
    = Some (x :: xs, rest).
Proof.
  induction xs as [|y ys IH]; intros x ind rest fuel HP Hsz;
    (destruct fuel; [lia|]); inversion HP as [|? ? Px Pxs]; subst;
    cbn [items_size fold_right] in Hsz; fold (items_size jsize) in Hsz;
    cbn [parse_elements]; rewrite parse_value_indent.
  - cbn [flat_map app].
    rewrite (Px (2 + ind) _ fuel) by (lia || (right; reflexivity)).
    rewrite skip_ws_indent, skip_ws_head by reflexivity.
    cbn [N.eqb Pos.eqb]. reflexivity.
  - cbn [flat_map app]. rewrite <- ?app_assoc.
    rewrite (Px (2 + ind) _ fuel)
      by (try (left; reflexivity);
          cbn [items_size fold_right] in Hsz; lia).
    rewrite skip_ws_head by reflexivity. cbn [N.eqb Pos.eqb].
    rewrite (IH y ind rest fuel Pxs)
      by (cbn [items_size fold_right] in Hsz |- *; lia).
    reflexivity.
Qed.

Lemma obj_set_fresh (k : jsstring) (v : json) (o : list (jsstring * json)) :
  existsb (jsstring_eqb k) (map fst o) = false ->
  obj_set k v o = o ++ [(k, v)].
Proof.
  induction o as [|[k' v'] o IH]; simpl; [reflexivity|].
  rewrite orb_false_iff. intros [H1 H2]. rewrite H1, (IH H2). reflexivity.
Qed.

Lemma jsstring_eqb_sym (a b : jsstring) :
  jsstring_eqb a b = jsstring_eqb b a.
Proof.
  destruct (jsstring_eqb a b) eqn:E.
  - apply jsstring_eqb_eq in E. subst. symmetry. apply jsstring_eqb_refl.
  - symmetry. apply jsstring_eqb_neq. apply jsstring_eqb_neq in E. congruence.
Qed.

Lemma build_object_from (ms : list (jsstring * json)) :
  forall acc : list (jsstring * json),
    distinct (map fst (acc ++ ms)) = true ->
    fold_left (fun o kv => obj_set (fst kv) (snd kv) o) ms acc = acc ++ ms.
Proof.
  induction ms as [|[k v] ms IH]; intros acc H; simpl.
  - rewrite app_nil_r. reflexivity.
  - assert (Hfresh : existsb (jsstring_eqb k) (map fst acc) = false).
    { clear IH. induction acc as [|[k' v'] acc IHacc]; [reflexivity|].
      simpl in H |- *. apply andb_true_iff in H. destruct H as [H1 H2].
      rewrite (IHacc H2), orb_false_r.
      apply negb_true_iff in H1. rewrite map_app, existsb_app in H1.
      apply orb_false_iff in H1. destruct H1 as [_ H1]. simpl in H1.
      apply orb_false_iff in H1. destruct H1 as [H1 _].
      rewrite jsstring_eqb_sym. exact H1. }
    rewrite (obj_set_fresh k v acc Hfresh), IH.
    + rewrite <- app_assoc. reflexivity.
    + rewrite <- app_assoc. exact H.
Qed.

(** An object whose keys differ is built as its members stand. *)
Lemma build_object_distinct (ms : list (jsstring * json)) :
  distinct (map fst ms) = true -> build_object ms = ms.
Proof. intros H. exact (build_object_from ms [] H). Qed.

(** The members of a printed object are read back. *)
Lemma parse_members_printed (ms : list (jsstring * json)) :
  forall (m : jsstring * json) (ind : nat) (rest : jsstring) (fuel : nat),
    Forall (fun kv => parses_back (snd kv)) (m :: ms) ->
    forallb (fun kv => code_units (fst kv)) (m :: ms) = true ->
    members_size jsize (m :: ms) < fuel ->
    parse_members fuel
      (newline_indent (2 + ind)
       ++ quote (fst m) ++ 58%N :: 32%N :: stringify (2 + ind) (snd m)
       ++ flat_map (fun kv =>
            44%N :: newline_indent (2 + ind)
              ++ quote (fst kv) ++ 58%N :: 32%N
              :: stringify (2 + ind) (snd kv)) ms
       ++ newline_indent ind ++ 125%N :: rest)
    = Some (m :: ms, rest).
Proof.
  induction ms as [|m' ms IH]; intros [k v] ind rest fuel HP Hk Hsz;
    (destruct fuel; [lia|]); inversion HP as [|? ? Pv Pms]; subst;
    cbn [snd] in Pv;
    cbn [forallb fst] in Hk; apply andb_true_iff in Hk;
    destruct Hk as [Hk Hks];
    cbn [members_size fold_right snd] in Hsz;
    fold (members_size jsize) in Hsz;
    cbn [parse_members fst snd]; rewrite skip_ws_indent.
  - cbn [flat_map app].
    destruct (parse_quote k
                (58%N :: 32%N :: stringify (2 + ind) v
                 ++ newline_indent ind ++ 125%N :: rest) Hk)
      as (body & E & Hp).
    rewrite E. rewrite skip_ws_head by reflexivity.
    unfold dquote. cbn [N.eqb Pos.eqb]. rewrite Hp.
    rewrite skip_ws_head by reflexivity. cbn [N.eqb Pos.eqb].
    rewrite parse_value_space.
    rewrite (Pv (2 + ind) _ fuel) by (lia || (right; reflexivity)).
    rewrite skip_ws_indent, skip_ws_head by reflexivity.
    cbn [N.eqb Pos.eqb]. reflexivity.
  - cbn [flat_map app]. rewrite <- ?app_assoc. cbn [app].
    match goal with
    | |- context [quote k ++ ?X] =>
        destruct (parse_quote k X Hk) as (body & E & Hp)
    end.
    rewrite E. rewrite skip_ws_head by reflexivity.
    unfold dquote. cbn [N.eqb Pos.eqb]. rewrite Hp.
    rewrite skip_ws_head by reflexivity. cbn [N.eqb Pos.eqb].
    rewrite parse_value_space.
    rewrite (Pv (2 + ind) _ fuel)
      by (try (left; reflexivity);
          cbn [members_size fold_right] in Hsz; lia).
    rewrite skip_ws_head by reflexivity. cbn [N.eqb Pos.eqb].
    match goal with
    | |- match ?X with _ => _ end = _ =>
        replace X with (Some (m' :: ms, rest));
        [reflexivity | symmetry; apply (IH m' ind rest fuel Pms Hks)]
    end.
    cbn [members_size fold_right] in Hsz |- *. lia.
Qed.

Lemma wf_json_items (l : list json) :
  Forall (fun v => wf_json v = true -> parses_back v) l ->
  forallb wf_json l = true ->
  Forall parses_back l.
Proof.
  induction 1 as [|x l Hx _ IH]; intros H; [constructor|].
  simpl in H. apply andb_true_iff in H. destruct H as [H1 H2].
  constructor; auto.
Qed.

Lemma wf_json_members (ms : list (jsstring * json)) :
  Forall (fun kv => wf_json (snd kv) = true -> parses_back (snd kv)) ms ->
  forallb (fun kv => code_units (fst kv) && wf_json (snd kv)) ms = true ->
  Forall (fun kv => parses_back (snd kv)) ms
  /\ forallb (fun kv => code_units (fst kv)) ms = true.
Proof.
  induction 1 as [|x l Hx _ IH]; intros H; [split; [constructor|reflexivity]|].
  simpl in H. rewrite !andb_true_iff in H. destruct H as [[H1 H2] H3].
  destruct (IH H3) as [IH1 IH2]. split.
  - constructor; auto.
  - simpl. rewrite H1, IH2. reflexivity.
Qed.

(** Every well-formed value is read back from its printed form. *)
Lemma parse_stringify (v : json) : wf_json v = true -> parses_back v.
Proof.
  induction v as [| b | z | s | l IHl | ms IHms] using json_induction;
    intros Hwf.
  - apply parses_back_null.
  - apply parses_back_bool.
  - apply parses_back_num.
  - apply parses_back_str. exact Hwf.
  - cbn [wf_json] in Hwf. pose proof (wf_json_items l IHl Hwf) as HP.
    intros ind rest fuel Hf Hrest. destruct fuel; [lia|].
    destruct l as [|x xs]; [reflexivity|].
    cbn [jsize] in Hf.
    set (body := newline_indent (2 + ind) ++ stringify (2 + ind) x
                 ++ flat_map (fun y =>
                      44%N :: newline_indent (2 + ind)
                        ++ stringify (2 + ind) y) xs
                 ++ newline_indent ind ++ 93%N :: rest).
    assert (E : stringify ind (JArr (x :: xs)) ++ rest = 91%N :: body).
    { subst body. cbn [stringify app]. rewrite <- ?app_assoc. reflexivity. }
    rewrite E. cbn [parse_value]. rewrite skip_ws_head by reflexivity.
    cbn [N.eqb Pos.eqb].
    destruct (stringify_head (2 + ind) x) as (c & tl & Ec & Hws & H93 & _).
    assert (Hskip : skip_ws body = c :: tl ++ flat_map (fun y =>
                      44%N :: newline_indent (2 + ind)
                        ++ stringify (2 + ind) y) xs
                    ++ newline_indent ind ++ 93%N :: rest).
    { subst body. rewrite skip_ws_indent, Ec. cbn [app].
      apply skip_ws_head. exact Hws. }
    rewrite Hskip. apply N.eqb_neq in H93. rewrite H93.
    subst body.
    rewrite (parse_elements_printed xs x ind rest fuel HP) by lia.
    reflexivity.
  - cbn [wf_json] in Hwf. apply andb_true_iff in Hwf.
    destruct Hwf as [Hwf Hdist].
    destruct (wf_json_members ms IHms Hwf) as [HP Hkeys].
    intros ind rest fuel Hf Hrest. destruct fuel; [lia|].
    destruct ms as [|m ms']; [reflexivity|].
    cbn [jsize] in Hf.
    set (body := newline_indent (2 + ind)
                 ++ quote (fst m) ++ 58%N :: 32%N
                 :: stringify (2 + ind) (snd m)
                 ++ flat_map (fun kv =>
                      44%N :: newline_indent (2 + ind)
                        ++ quote (fst kv) ++ 58%N :: 32%N
                        :: stringify (2 + ind) (snd kv)) ms'
                 ++ newline_indent ind ++ 125%N :: rest).
    assert (E : stringify ind (JObj (m :: ms')) ++ rest = 123%N :: body).
    { subst body. cbn [stringify app]. rewrite <- ?app_assoc.
      cbn [app]. rewrite <- ?app_assoc. reflexivity. }
    rewrite E. cbn [parse_value]. rewrite skip_ws_head by reflexivity.
    cbn [N.eqb Pos.eqb].
    assert (Hskip : exists r, skip_ws body = dquote :: r).
    { subst body. rewrite skip_ws_indent. unfold quote. cbn [app].
      eexists. apply skip_ws_head. reflexivity. }
    destruct Hskip as [r Hskip]. rewrite Hskip.
    unfold dquote at 1. cbn [N.eqb Pos.eqb].
    subst body.
    rewrite (parse_members_printed ms' m ind rest fuel HP Hkeys) by lia.
    rewrite (build_object_distinct (m :: ms') Hdist). reflexivity.
Qed.

Lemma length_newline_indent (n : nat) : length (newline_indent n) = S n.
Proof. unfold newline_indent. simpl. rewrite repeat_length. reflexivity. Qed.

Lemma length_quote (s : jsstring) : 1 <= length (quote s).
Proof. unfold quote. simpl. lia. Qed.

(** Lengths of concatenations, pushed to the leaves. *)
Ltac length_norm :=
  repeat (progress (cbn [length app];
                    rewrite ?length_app, ?length_newline_indent)).

(** A printed value is at least as long as the value is large, so the fuel
    [JSON_parse] takes from the length of the text suffices. *)
Lemma jsize_le_length (v : json) :
  forall ind : nat, jsize v <= length (stringify ind v).
Proof.
  induction v as [| b | z | s | l IHl | ms IHms] using json_induction;
    intros ind.
  - simpl. lia.
  - destruct b; simpl; lia.
  - cbn [jsize stringify]. destruct (decimal_head z) as (c & tl & E & _).
    rewrite E. simpl. lia.
  - cbn [jsize stringify]. apply length_quote.
  - destruct l as [|x xs]; [simpl; lia|].
    inversion IHl as [|? ? Hx Hxs]; subst.
    cbn [jsize stringify items_size fold_right].
    fold (items_size jsize xs). length_norm.
    pose proof (Hx (2 + ind)) as Hlx.
    assert (Hfm : items_size jsize xs
                  <= length (flat_map (fun y =>
                       44%N :: newline_indent (2 + ind)
                         ++ stringify (2 + ind) y) xs)).
    { clear Hx Hlx IHl. induction Hxs as [|y ys Hy _ IH]; [simpl; lia|].
      cbn [items_size fold_right flat_map]. fold (items_size jsize ys).
      length_norm. pose proof (Hy (2 + ind)). lia. }
    lia.
  - destruct ms as [|m ms']; [simpl; lia|].
    inversion IHms as [|? ? Hm Hms]; subst.
    cbn [jsize stringify members_size fold_right].
    fold (members_size jsize ms'). length_norm.
    pose proof (Hm (2 + ind)) as Hlm.
    assert (Hfm : members_size jsize ms'
                  <= length (flat_map (fun kv =>
                       44%N :: newline_indent (2 + ind)
                         ++ quote (fst kv) ++ 58%N :: 32%N
                         :: stringify (2 + ind) (snd kv)) ms')).
    { clear Hm Hlm IHms. induction Hms as [|y ys Hy _ IH]; [simpl; lia|].
      cbn [members_size fold_right flat_map]. fold (members_size jsize ys).
      length_norm. pose proof (Hy (2 + ind)). lia. }
    lia.
Qed.

(** [JSON.parse(JSON.stringify(v, null, 2))] is [v]. *)
Lemma JSON_parse_stringify (v : json) :
  wf_json v = true -> JSON_parse (JSON_stringify v) = Ok v.
Proof.
  intros Hwf. unfold JSON_parse, JSON_stringify.
  pose proof (parse_stringify v Hwf 0 [] (S (length (stringify 0 v)))) as H.
  rewrite app_nil_r in H. rewrite H; [reflexivity | | exact I].
  pose proof (jsize_le_length v 0). lia.
Qed.

Lemma content_round_trip (c : ContentSnapshot) :
  content_of_json (content_to_json c) = Some c.
Proof.
  destruct c as [[t|] [h|] [p|] [m|] [b|]]; reflexivity.
Qed.

Lemma content_wf (c : ContentSnapshot) :
  well_formed_content c = true -> wf_json (content_to_json c) = true.
Proof.
  unfold well_formed_content. rewrite !andb_true_iff.
  intros [[[[Ht Hh] Hp] Hm] Hb].
  destruct c as [[t|] [h|] [p|] [m|] [b|]]; simpl in *;
    rewrite ?Ht, ?Hh, ?Hp, ?Hm, ?Hb; reflexivity.
Qed.

Lemma step_round_trip (s : Step) : step_of_json (step_to_json s) = Some s.
Proof.
  destruct s as [[sel|] u t c ts [ini|]];
    unfold step_of_json, step_to_json; cbn [selector url target_href content
      timestamp isInitial opt_member app];
    cbn [obj_get get_string]; simpl jsstring_eqb; cbv iota;
    rewrite content_round_trip; reflexivity.
Qed.

Lemma step_wf (s : Step) :
  well_formed_step s = true -> wf_json (step_to_json s) = true.
Proof.
  unfold well_formed_step. rewrite !andb_true_iff.
  intros [[[[Hs Hu] Ht] Hc] _]. apply content_wf in Hc.
  destruct s as [[sel|] u t c ts [ini|]]; simpl in Hs, Hu, Ht;
    cbn [content] in Hc;
    unfold step_to_json; cbn [selector url target_href content timestamp
      isInitial opt_member app wf_json forallb fst snd map];
    rewrite ?Hs, ?Hu, ?Ht, ?Hc; reflexivity.
Qed.

Lemma steps_round_trip (l : list Step) :
  steps_of_json (steps_to_json l) = Some l.
Proof.
  unfold steps_of_json, steps_to_json. rewrite map_map.
  induction l as [|s l IH]; [reflexivity|].
  cbn [map all_some]. rewrite step_round_trip, IH. reflexivity.
Qed.

Lemma steps_wf (l : list Step) :
  forallb well_formed_step l = true -> wf_json (steps_to_json l) = true.
Proof.
  unfold steps_to_json. cbn [wf_json].
  induction l as [|s l IH]; [reflexivity|].
  cbn [forallb map]. rewrite andb_true_iff. intros [H1 H2].
  rewrite (step_wf s H1), (IH H2). reflexivity.
Qed.

(** The recorder writes where the replayer reads. *)
Lemma same_store_path (cwd : jsstring) :
  Recorder.OUT_FILE cwd = Replayer.OUT_FILE cwd.
Proof. reflexivity. Qed.

Lemma saveSteps_writes (cwd : jsstring) (l : list Step) (st : Recorder.State) :
  fst (Recorder.saveSteps cwd l st) = Ok tt
  /\ files (Recorder.disk (snd (Recorder.saveSteps cwd l st)))
       (Recorder.OUT_FILE cwd)
     = Some (JSON_stringify (steps_to_json l))
  /\ Recorder.trace (snd (Recorder.saveSteps cwd l st))
     = Recorder.trace st
       ++ [WriteFile (Recorder.OUT_FILE cwd)
             (JSON_stringify (steps_to_json l))]
  /\ Recorder.steps (snd (Recorder.saveSteps cwd l st)) = Recorder.steps st.
Proof.
  unfold Recorder.saveSteps, Recorder.ensureOutDir, Recorder.emit,
    Recorder.set_disk, bind, modify.
  destruct (existsSync (Recorder.OUT_DIR cwd) (Recorder.disk st)); simpl;
    rewrite jsstring_eqb_refl; repeat split; reflexivity.
Qed.

Lemma loadSteps_of_file (cwd : jsstring) (d : FileSystem) (l : list Step) :
  forallb well_formed_step l = true ->
  files d (Replayer.OUT_FILE cwd) = Some (JSON_stringify (steps_to_json l)) ->
  Replayer.loadSteps cwd d = Ok l.
Proof.
  intros Hwf Hfile. unfold Replayer.loadSteps, existsSync, readFileSync.
  rewrite Hfile. cbn [negb].
  rewrite (JSON_parse_stringify _ (steps_wf l Hwf)), steps_round_trip.
  reflexivity.
Qed.

(** C6: for every sequence of well-formed steps (empty or not), after
    [saveSteps] has written it, [loadSteps] returns the same steps in the
    same order. *)
Theorem store_round_trip (cwd : jsstring) (l : list Step)
  (st : Recorder.State) :
  forallb well_formed_step l = true ->
  Replayer.loadSteps cwd
    (Recorder.disk (snd (Recorder.saveSteps cwd l st)))
  = Ok l.
Proof.
  intros Hwf. apply loadSteps_of_file; [exact Hwf|].
  rewrite <- same_store_path.
  exact (proj1 (proj2 (saveSteps_writes cwd l st))).
Qed.

(** Three recorded steps, saved and loaded. *)
Lemma store_round_trip_witness :
  alpha_steps <> []
  /\ Replayer.loadSteps (lit "/work")
       (Recorder.disk
          (snd (Recorder.saveSteps (lit "/work") alpha_steps
                  (Recorder.initial_state empty_fs))))
     = Ok alpha_steps.
Proof.
  split; [discriminate|].
  apply (store_round_trip (lit "/work") alpha_steps
           (Recorder.initial_state empty_fs)).
  vm_compute. reflexivity.
Defined.

(* ================================================================== *)
(** * Further properties: normalized text *)
(* ================================================================== *)

Lemma fields_no_space (s : jsstring) :
  forallb (fun c => negb (is_space c)) (fst (fields s)) = true
  /\ forallb (forallb (fun c => negb (is_space c))) (snd (fields s)) = true.
Proof.
  induction s as [|c tl [IH1 IH2]]; [split; reflexivity|].
  destruct (is_space c) eqn:E.
  - rewrite (fields_space c tl E). cbn [fst snd forallb].
    rewrite IH1, IH2. split; reflexivity.
  - rewrite (fields_other c tl E). cbn [fst snd forallb].
    rewrite E, IH1, IH2. split; reflexivity.
Qed.

Lemma words_no_space (s : jsstring) :
  forallb (fun w => truthy w && forallb (fun c => negb (is_space c)) w)
    (words s) = true.
Proof.
  unfold words. destruct (fields_no_space s) as [H1 H2].
  assert (H : forallb (forallb (fun c => negb (is_space c)))
                (fst (fields s) :: snd (fields s)) = true).
  { cbn [forallb]. rewrite H1, H2. reflexivity. }
  revert H. generalize (fst (fields s) :: snd (fields s)).
  intros l. induction l as [|w l IH]; [reflexivity|].
  cbn [forallb filter]. intros H. apply andb_true_iff in H.
  destruct H as [Hw Hl]. destruct (truthy w) eqn:Et; [|exact (IH Hl)].
  cbn [forallb]. rewrite Et, Hw, (IH Hl). reflexivity.
Qed.

Lemma concat_filter_truthy (l : list jsstring) :
  concat (filter truthy l) = concat l.
Proof.
  induction l as [|w l IH]; [reflexivity|].
  cbn [filter]. destruct w as [|c w]; cbn [truthy concat app]; [exact IH|].
  rewrite IH. reflexivity.
Qed.

Lemma visible_fields (s : jsstring) :
  visible s = fst (fields s) ++ concat (snd (fields s)).
Proof.
  unfold visible. induction s as [|c tl IH]; [reflexivity|].
  cbn [filter]. destruct (is_space c) eqn:E; cbn [negb].
  - rewrite (fields_space c tl E). cbn [fst snd concat app]. exact IH.
  - rewrite (fields_other c tl E). cbn [fst snd app]. rewrite IH. reflexivity.
Qed.

Lemma visible_words (s : jsstring) : visible s = concat (words s).
Proof.
  unfold words. rewrite concat_filter_truthy. apply visible_fields.
Qed.

Lemma visible_normalize (s : option jsstring) :
  visible (normalize s) = visible (or_empty s).
Proof. rewrite !visible_words, words_normalize. reflexivity. Qed.

Lemma length_dropWhile (p : jschar -> bool) (s : jsstring) :
  length (dropWhile p s) <= length s.
Proof.
  induction s as [|c tl IH]; simpl; [lia|]. destruct (p c); simpl; lia.
Qed.

Lemma length_replace_ws (b : bool) (s : jsstring) :
  length (replace_ws b s) <= length s.
Proof.
  revert b; induction s as [|c tl IH]; intros b; simpl; [lia|].
  pose proof (IH true) as IHt. pose proof (IH false) as IHf.
  destruct (is_space c); [destruct b|]; simpl; lia.
Qed.

Lemma length_trim (s : jsstring) : length (trim s) <= length s.
Proof.
  unfold trim, trimEnd, trimStart. rewrite length_rev.
  pose proof (length_dropWhile is_space (rev (dropWhile is_space s))) as H1.
  pose proof (length_dropWhile is_space s) as H2.
  rewrite length_rev in H1. lia.
Qed.

Lemma length_normalize (s : option jsstring) :
  length (normalize s) <= length (or_empty s).
Proof.
  unfold normalize.
  pose proof (length_trim (collapse_ws (or_empty s))) as H1.
  pose proof (length_replace_ws false (or_empty s)) as H2.
  unfold collapse_ws in *. lia.
Qed.

Lemma words_nil_iff (s : jsstring) :
  words s = [] <-> forallb is_space s = true.
Proof.
  induction s as [|c tl IH]; [split; reflexivity|].
  cbn [forallb]. destruct (is_space c) eqn:E.
  - rewrite (words_space c tl E). exact IH.
  - rewrite (words_other c tl E). split; discriminate.
Qed.

Lemma unwords_nil_iff (ws : list jsstring) :
  forallb truthy ws = true -> (unwords ws = [] <-> ws = []).
Proof.
  destruct ws as [|w ws]; [split; reflexivity|].
  cbn [forallb]. intros H. apply andb_true_iff in H. destruct H as [Hw _].
  rewrite unwords_cons. destruct w; [discriminate|]. split; discriminate.
Qed.

Lemma words_truthy (s : jsstring) : forallb truthy (words s) = true.
Proof.
  pose proof (words_no_space s) as H. revert H.
  generalize (words s). intros l. induction l as [|w l IH]; [reflexivity|].
  cbn [forallb]. intros H. apply andb_true_iff in H. destruct H as [H Hl].
  apply andb_true_iff in H. destruct H as [-> _]. exact (IH Hl).
Qed.

Lemma normalize_nil_iff (s : option jsstring) :
  normalize s = [] <-> forallb is_space (or_empty s) = true.
Proof.
  rewrite normalize_unwords, (unwords_nil_iff _ (words_truthy _)).
  apply words_nil_iff.
Qed.

(** A white-space code unit between two texts separates their words. *)
Lemma fields_app_space (a s : jsstring) (c : jschar) :
  is_space c = true ->
  fst (fields (a ++ c :: s)) = fst (fields a)
  /\ snd (fields (a ++ c :: s))
     = snd (fields a) ++ fst (fields s) :: snd (fields s).
Proof.
  intros Hc. induction a as [|x a [IH1 IH2]].
  - cbn [app]. rewrite (fields_space c s Hc). split; reflexivity.
  - cbn [app]. destruct (is_space x) eqn:Ex.
    + rewrite (fields_space x _ Ex), (fields_space x a Ex).
      cbn [fst snd app]. rewrite IH1, IH2. split; reflexivity.
    + rewrite (fields_other x _ Ex), (fields_other x a Ex).
      cbn [fst snd]. rewrite IH1, IH2. split; reflexivity.
Qed.

Lemma words_app_space (a s : jsstring) (c : jschar) :
  is_space c = true -> words (a ++ c :: s) = words a ++ words s.
Proof.
  intros Hc. unfold words.
  destruct (fields_app_space a s c Hc) as [H1 H2]. rewrite H1, H2.
  change (fst (fields a) :: snd (fields a) ++ fst (fields s) :: snd (fields s))
    with ((fst (fields a) :: snd (fields a))
          ++ fst (fields s) :: snd (fields s)).
  apply filter_app.
Qed.

Lemma words_blank_app (w s : jsstring) :
  forallb is_space w = true -> words (w ++ s) = words s.
Proof.
  induction w as [|c w IH]; [reflexivity|].
  cbn [forallb app]. intros H. apply andb_true_iff in H.
  destruct H as [Hc Hw]. rewrite (words_space c _ Hc). exact (IH Hw).
Qed.

(** A run of white space between two texts, whatever its length and its
    code units, separates their words. *)
Lemma words_app_blank (a w b : jsstring) :
  forallb is_space w = true -> w <> [] ->
  words (a ++ w ++ b) = words a ++ words b.
Proof.
  destruct w as [|c w]; [intros _ H; contradiction|].
  cbn [forallb]. intros H _. apply andb_true_iff in H. destruct H as [Hc Hw].
  cbn [app]. rewrite (words_app_space a _ c Hc), (words_blank_app w b Hw).
  reflexivity.
Qed.

(** X1: the text [normalize] returns has the space as its only white
    space, never twice in a row, never at either end; it is never longer
    than the text given; it keeps the other code units as they are and in
    order; and it is empty exactly when the text given is absent, empty or
    white space only. *)
Theorem normalize_canonical_form (s : option jsstring) :
  collapsed false (normalize s) = true
  /\ (forall c tl, normalize s = c :: tl -> is_space c = false)
  /\ (forall front c, normalize s = front ++ [c] -> is_space c = false)
  /\ length (normalize s) <= length (or_empty s)
  /\ visible (normalize s) = visible (or_empty s)
  /\ (normalize s = [] <-> forallb is_space (or_empty s) = true).
Proof.
  split; [apply normalize_collapsed|]. split; [|split].
  - intros c tl H. pose proof (normalize_trimStart s) as Ht.
    rewrite H in Ht. unfold trimStart in Ht. cbn [dropWhile] in Ht.
    destruct (is_space c) eqn:E; [|reflexivity].
    destruct (dropWhile_head is_space tl) as [H' | (x & r & H' & Hx)];
      rewrite H' in Ht; [discriminate|].
    injection Ht as -> _. congruence.
  - intros front c H. pose proof (normalize_trimEnd s) as Ht.
    rewrite H in Ht. unfold trimEnd in Ht. rewrite rev_app_distr in Ht.
    cbn [rev app dropWhile] in Ht.
    destruct (is_space c) eqn:E; [|reflexivity].
    apply (f_equal (@length jschar)) in Ht.
    rewrite length_rev, length_app in Ht. cbn [length] in Ht.
    pose proof (length_dropWhile is_space (rev front)) as Hl.
    rewrite length_rev in Hl. lia.
  - split; [apply length_normalize|].
    split; [apply visible_normalize | apply normalize_nil_iff].
Qed.

(** X2: [normalize] does not tell one run of white space from another:
    between two texts any two non-empty runs give the same result, and a
    run at the start or at the end of the text gives what the text gives
    without it.  Hence the comparison of a step ignores how the recorded
    and the live paragraph are laid out. *)
Theorem normalize_ignores_white_space_runs (a b w w' : jsstring) :
  forallb is_space w = true -> w <> [] ->
  forallb is_space w' = true -> w' <> [] ->
  normalize (Some (a ++ w ++ b)) = normalize (Some (a ++ w' ++ b))
  /\ normalize (Some (w ++ a)) = normalize (Some a)
  /\ normalize (Some (a ++ w)) = normalize (Some a)
  /\ (forall sel u t ti h m bs ts ini live,
        Replayer.compare
          (mkStep sel u t (mkContent ti h (Some (a ++ w ++ b)) m bs) ts ini)
          live
        = Replayer.compare
            (mkStep sel u t (mkContent ti h (Some (a ++ w' ++ b)) m bs)
               ts ini)
            live).
Proof.
  intros Hw Hn Hw' Hn'.
  assert (E : normalize (Some (a ++ w ++ b))
              = normalize (Some (a ++ w' ++ b))).
  { apply normalize_eq_words. cbn [or_empty].
    rewrite (words_app_blank a w b Hw Hn), (words_app_blank a w' b Hw' Hn').
    reflexivity. }
  split; [exact E|]. split; [|split].
  - apply normalize_eq_words. cbn [or_empty]. apply words_blank_app. exact Hw.
  - apply normalize_eq_words. cbn [or_empty].
    rewrite <- (app_nil_r (a ++ w)), <- app_assoc.
    rewrite (words_app_blank a w [] Hw Hn). apply app_nil_r.
  - intros. unfold Replayer.compare. cbn [content firstP]. rewrite E.
    reflexivity.
Qed.

(** A line feed and two tabs, against one space. *)
Lemma normalize_ignores_white_space_runs_witness :
  normalize (Some (lit "The tiger" ++ [10; 9; 9]%N ++ lit "is a cat"))
  = normalize (Some (lit "The tiger" ++ [32%N] ++ lit "is a cat")).
Proof.
  refine (proj1 (normalize_ignores_white_space_runs (lit "The tiger")
                   (lit "is a cat") [10; 9; 9]%N [32%N] _ _ _ _));
    first [reflexivity | discriminate].
Defined.

(* ================================================================== *)
(** * Further properties: content extractor *)
(* ================================================================== *)

Lemma first_long_app (a b : list jsstring) :
  first_long (a ++ b)
  = match first_long a with
    | Some txt => Some txt
    | None => first_long b
    end.
Proof.
  induction a as [|p a IH]; [reflexivity|].
  cbn [app first_long].
  destruct (Nat.ltb 40 (length (trim (collapse_ws p)))); [reflexivity|].
  exact IH.
Qed.

Lemma first_long_found (l : list jsstring) (txt : jsstring) :
  first_long l = Some txt ->
  exists before p after,
    l = before ++ p :: after
    /\ Forall short before
    /\ 40 < length (trim (collapse_ws p))
    /\ txt = trim (collapse_ws p).
Proof.
  induction l as [|q l IH]; [discriminate|].
  cbn [first_long].
  destruct (Nat.ltb 40 (length (trim (collapse_ws q)))) eqn:E.
  - intros H. injection H as <-. apply Nat.ltb_lt in E.
    exists [], q, l. repeat split; [constructor | exact E].
  - intros H. destruct (IH H) as (before & p & after & -> & Hb & Hp & ->).
    apply Nat.ltb_ge in E.
    exists (q :: before), p, after. repeat split; [|exact Hp].
    constructor; [exact E | exact Hb].
Qed.

Lemma first_long_none (l : list jsstring) :
  first_long l = None <-> Forall short l.
Proof.
  induction l as [|q l IH]; [split; [constructor | reflexivity]|].
  cbn [first_long].
  destruct (Nat.ltb 40 (length (trim (collapse_ws q)))) eqn:E.
  - split; [discriminate|]. intros H. inversion H as [|? ? Hq _]; subst.
    apply Nat.ltb_lt in E. unfold short in Hq. lia.
  - apply Nat.ltb_ge in E. rewrite IH. split.
    + intros H. constructor; [exact E | exact H].
    + intros H. inversion H; assumption.
Qed.

(** X3: [firstP] comes from the first of three tiers that yields a text:
    the first paragraph under the content root whose collapsed, trimmed
    text has more than 40 code units; else the first such paragraph of
    the document; else the first 200 code units of the collapsed, trimmed
    body text.  The paragraphs before the chosen one are short, and a text
    of the last tier has at most 200 code units. *)
Theorem extractFirstP_tiers (pg : Page) :
  (exists before p after,
     scoped pg = before ++ p :: after
     /\ Forall short before
     /\ 40 < length (trim (collapse_ws p))
     /\ extractFirstP pg = trim (collapse_ws p))
  \/ (Forall short (scoped pg)
      /\ exists before p after,
           all_paragraphs pg = before ++ p :: after
           /\ Forall short before
           /\ 40 < length (trim (collapse_ws p))
           /\ extractFirstP pg = trim (collapse_ws p))
  \/ (Forall short (scoped pg)
      /\ Forall short (all_paragraphs pg)
      /\ extractFirstP pg
         = firstn 200 (trim (collapse_ws (body_innerText pg)))
      /\ length (extractFirstP pg) <= 200).
Proof.
  unfold extractFirstP, candidates. fold (scoped pg).
  rewrite first_long_app.
  destruct (first_long (scoped pg)) as [txt|] eqn:Es.
  - left. destruct (first_long_found _ _ Es)
      as (before & p & after & H1 & H2 & H3 & H4).
    exists before, p, after. auto.
  - right. apply first_long_none in Es.
    destruct (first_long (all_paragraphs pg)) as [txt|] eqn:Ea.
    + left. split; [exact Es|].
      destruct (first_long_found _ _ Ea)
        as (before & p & after & H1 & H2 & H3 & H4).
      exists before, p, after. auto.
    + right. apply first_long_none in Ea.
      split; [exact Es|]. split; [exact Ea|]. split; [reflexivity|].
      unfold slice0. apply firstn_le_length.
Qed.

Lemma trim_collapse_unwords (p : jsstring) :
  trim (collapse_ws p) = unwords (words p).
Proof. exact (normalize_unwords (Some p)). Qed.

Lemma first_long_words (l l' : list jsstring) :
  map words l = map words l' -> first_long l = first_long l'.
Proof.
  revert l'; induction l as [|p l IH]; intros [|p' l'] H;
    try discriminate; [reflexivity|].
  cbn [map] in H. injection H as Hp Hl.
  cbn [first_long]. rewrite !trim_collapse_unwords, Hp, (IH l' Hl).
  reflexivity.
Qed.

(** X4: two documents whose candidate paragraphs, one by one, and whose
    body texts have the same words give the same [firstP], and the
    comparison of any step gives the same verdict on both. *)
Theorem extractFirstP_ignores_layout (pg pg' : Page) :
  map words (candidates pg) = map words (candidates pg') ->
  words (body_innerText pg) = words (body_innerText pg') ->
  extractFirstP pg = extractFirstP pg'
  /\ forall step : Step,
       Replayer.compare step (extractContent pg)
       = Replayer.compare step (extractContent pg').
Proof.
  intros Hc Hb.
  assert (E : extractFirstP pg = extractFirstP pg').
  { unfold extractFirstP. rewrite (first_long_words _ _ Hc).
    rewrite !trim_collapse_unwords, Hb. reflexivity. }
  split; [exact E|]. intros step. unfold Replayer.compare, extractContent.
  cbn [firstP]. rewrite E. reflexivity.
Qed.

(** One space against a line feed, two spaces and a tab. *)
Lemma extractFirstP_ignores_layout_witness :
  extractFirstP (tiger_page [32%N])
  = extractFirstP (tiger_page [10; 32; 32; 9]%N).
Proof.
  refine (proj1 (extractFirstP_ignores_layout (tiger_page [32%N])
                   (tiger_page [10; 32; 32; 9]%N) _ _));
    vm_compute; reflexivity.
Defined.

(* ---------- the extracted text and normalize ---------- *)

Lemma collapsed_firstn (n : nat) (s : jsstring) :
  forall b, collapsed b s = true -> collapsed b (firstn n s) = true.
Proof.
  revert s; induction n as [|n IH]; intros [|c tl] b H; try reflexivity.
  cbn [firstn collapsed] in *. destruct (is_space c).
  - apply andb_true_iff in H. destruct H as [H Ht].
    rewrite H, (IH tl true Ht). reflexivity.
  - exact (IH tl false H).
Qed.

Lemma trimStart_firstn (n : nat) (s : jsstring) :
  trimStart s = s -> trimStart (firstn n s) = firstn n s.
Proof.
  unfold trimStart. destruct n as [|n]; [reflexivity|].
  destruct s as [|c tl]; [reflexivity|].
  cbn [firstn dropWhile]. destruct (is_space c) eqn:E; [|reflexivity].
  intros H. exfalso.
  destruct (dropWhile_head is_space tl) as [H' | (x & r & H' & Hx)];
    rewrite H' in H; [discriminate|].
  injection H as -> _. congruence.
Qed.

Lemma normalize_firstn_canonical (n : nat) (s : option jsstring) :
  normalize (Some (firstn n (normalize s))) = trimEnd (firstn n (normalize s)).
Proof.
  unfold normalize at 1. cbn [or_empty]. unfold trim, collapse_ws.
  rewrite (collapsed_replace_ws false).
  - rewrite (trimStart_firstn n _ (normalize_trimStart s)). reflexivity.
  - apply collapsed_firstn, normalize_collapsed.
Qed.

Lemma first_long_normal (l : list jsstring) (txt : jsstring) :
  first_long l = Some txt -> normalize (Some txt) = txt.
Proof.
  intros H. destruct (first_long_found l txt H)
    as (_ & p & _ & _ & _ & _ & ->).
  exact (normalize_idem (Some p)).
Qed.

Lemma collapsed_blank (s : jsstring) :
  forall b, collapsed b s = true -> trimEnd s = [] ->
  length s <= 1 /\ (b = true -> s = []).
Proof.
  induction s as [|c tl IH]; intros b H Ht; [split; [simpl; lia | reflexivity]|].
  rewrite trimEnd_cons in Ht. cbn [collapsed] in H.
  destruct (trimEnd tl) as [|x r] eqn:E; [|discriminate].
  destruct (is_space c) eqn:Ec; [|discriminate].
  apply andb_true_iff in H. destruct H as [H Hc].
  apply andb_true_iff in H. destruct H as [_ Hb].
  destruct (IH true Hc eq_refl) as [_ Hnil].
  rewrite (Hnil eq_refl). split; [simpl; lia|].
  intros ->. discriminate.
Qed.

(** Trimming a collapsed string at its end removes at most one space. *)
Lemma collapsed_trimEnd_length (s : jsstring) :
  forall b, collapsed b s = true -> length s <= S (length (trimEnd s)).
Proof.
  induction s as [|c tl IH]; intros b H; [simpl; lia|].
  rewrite trimEnd_cons.
  assert (Ht : exists b', collapsed b' tl = true).
  { cbn [collapsed] in H. destruct (is_space c).
    - apply andb_true_iff in H. exists true. tauto.
    - exists false. exact H. }
  destruct Ht as [b' Ht]. specialize (IH b' Ht).
  destruct (trimEnd tl) as [|x r] eqn:E.
  - cbn [collapsed] in H. destruct (is_space c) eqn:Ec.
    + apply andb_true_iff in H. destruct H as [_ Hc].
      destruct (collapsed_blank tl true Hc E) as [_ Hnil].
      rewrite (Hnil eq_refl). simpl. lia.
    + destruct (collapsed_blank tl false H E) as [Hlen _]. simpl. lia.
  - simpl in *. lia.
Qed.

Lemma extractFirstP_collapsed (pg : Page) :
  collapsed false (extractFirstP pg) = true.
Proof.
  unfold extractFirstP. destruct (first_long (candidates pg)) as [txt|] eqn:E.
  - rewrite <- (first_long_normal _ _ E). apply normalize_collapsed.
  - unfold slice0. apply collapsed_firstn.
    exact (normalize_collapsed (Some (body_innerText pg))).
Qed.

(** X5: the extracted [firstP] is in the form the replayer compares, up
    to one trailing space: normalizing it only trims its end; it is left as
    it is when it comes from a paragraph; and at most one code unit goes
    when it comes from the body text cut at 200. *)
Theorem extractFirstP_normal_form (pg : Page) :
  normalize (firstP (extractContent pg)) = trimEnd (extractFirstP pg)
  /\ (first_long (candidates pg) <> None ->
      normalize (firstP (extractContent pg)) = extractFirstP pg)
  /\ length (extractFirstP pg)
     <= S (length (normalize (firstP (extractContent pg)))).
Proof.
  assert (E : normalize (firstP (extractContent pg))
              = trimEnd (extractFirstP pg)).
  { cbn [extractContent firstP]. unfold extractFirstP.
    destruct (first_long (candidates pg)) as [txt|] eqn:El.
    - pose proof (normalize_trimEnd (Some txt)) as Ht.
      rewrite (first_long_normal _ _ El) in *. symmetry. exact Ht.
    - exact (normalize_firstn_canonical 200 (Some (body_innerText pg))). }
  split; [exact E|]. split.
  - intros Hn. cbn [extractContent firstP]. unfold extractFirstP.
    destruct (first_long (candidates pg)) as [txt|] eqn:El; [|contradiction].
    exact (first_long_normal _ _ El).
  - rewrite E. apply (collapsed_trimEnd_length _ false).
    apply extractFirstP_collapsed.
Qed.

(* ================================================================== *)
(** * Further properties: recorder *)
(* ================================================================== *)

Lemma listener_forwarded (closest : option Recorder.Anchor)
  (payload : Recorder.ClickPayload) :
  Recorder.notification (Recorder.clickListener closest) = Some payload ->
  exists a,
    closest = Some a
    /\ truthy (Recorder.a_href a) = true
    /\ truthy (Recorder.derive_selector a) = true
    /\ payload = Recorder.mkPayload (Recorder.a_href a)
                   (Recorder.derive_selector a)
    /\ Recorder.defaultPrevented (Recorder.clickListener closest) = true.
Proof.
  unfold Recorder.clickListener. destruct closest as [a|]; [|discriminate].
  destruct (truthy (Recorder.a_href a)) eqn:Eh; cbn [negb]; [|discriminate].
  destruct (truthy (Recorder.derive_selector a)) eqn:Es; cbn [negb];
    [|discriminate].
  cbn [Recorder.notification Recorder.defaultPrevented].
  intros H. injection H as <-. exists a. auto.
Qed.

Lemma listener_silent (closest : option Recorder.Anchor) :
  Recorder.notification (Recorder.clickListener closest) = None ->
  Recorder.defaultPrevented (Recorder.clickListener closest) = false.
Proof.
  unfold Recorder.clickListener. destruct closest as [a|]; [|reflexivity].
  destruct (truthy (Recorder.a_href a)); cbn [negb]; [|reflexivity].
  destruct (truthy (Recorder.derive_selector a)); cbn [negb];
    [discriminate | reflexivity].
Qed.

Lemma derive_selector_not_bare (a : Recorder.Anchor) :
  truthy (Recorder.derive_selector a) = true ->
  jsstring_eqb (Recorder.derive_selector a) (lit "a") = false.
Proof.
  unfold Recorder.derive_selector.
  destruct (Recorder.a_id a) as [|c id]; cbn [truthy].
  - destruct (Recorder.a_href_attribute a) as [[|c raw]|];
      cbn [truthy_opt truthy]; try discriminate. reflexivity.
  - reflexivity.
Qed.

Lemma guard_passes (a : Recorder.Anchor) :
  truthy (Recorder.derive_selector a) = true ->
  negb (truthy (Recorder.derive_selector a))
  || jsstring_eqb (Recorder.derive_selector a) (lit "a") = false.
Proof.
  intros H. rewrite (derive_selector_not_bare a H), H. reflexivity.
Qed.

Lemma saveSteps_run (cwd : jsstring) (l : list Step) (st : Recorder.State) :
  Recorder.saveSteps cwd l st
  = (Ok tt,
     recorder_with st (Recorder.steps st) (saved cwd l (Recorder.disk st))
       [WriteFile (Recorder.OUT_FILE cwd) (JSON_stringify (steps_to_json l))]).
Proof.
  unfold Recorder.saveSteps, Recorder.ensureOutDir, Recorder.emit,
    Recorder.set_disk, bind, modify, recorder_with, saved.
  destruct (existsSync (Recorder.OUT_DIR cwd) (Recorder.disk st));
    reflexivity.
Qed.

Lemma recorder_with_nil (st : Recorder.State) :
  recorder_with st (Recorder.steps st) (Recorder.disk st) [] = st.
Proof.
  unfold recorder_with. rewrite app_nil_r. destruct st; reflexivity.
Qed.

(** The binding, for a selector that passes the guard. *)
Lemma recordClick_run (cwd : jsstring) (a : Recorder.Anchor)
  (w : Recorder.ClickWorld) (st : Recorder.State) :
  truthy (Recorder.derive_selector a) = true ->
  Recorder.recordClick cwd
    (Recorder.mkPayload (Recorder.a_href a) (Recorder.derive_selector a)) w st
  = match Recorder.resolved w with
    | Throw e => (Throw e, st)
    | Ok raw =>
        match Recorder.navigation w with
        | Throw e =>
            (Throw e,
             recorder_with st (Recorder.steps st) (Recorder.disk st)
               [Goto raw])
        | Ok final =>
            match Recorder.loaded w with
            | Throw e =>
                (Throw e,
                 recorder_with st (Recorder.steps st) (Recorder.disk st)
                   [Goto raw; Evaluate])
            | Ok pg =>
                let l := Recorder.steps st ++ [recorded_from a w final pg] in
                (Ok tt,
                 recorder_with st l (saved cwd l (Recorder.disk st))
                   [Goto raw; Evaluate;
                    WriteFile (Recorder.OUT_FILE cwd)
                      (JSON_stringify (steps_to_json l))])
            end
        end
    end.
Proof.
  intros Hs. unfold Recorder.recordClick.
  cbn [Recorder.payload_selector Recorder.payload_href].
  unfold bind at 1, await at 1.
  destruct (Recorder.resolved w) as [raw|e]; [|reflexivity].
  rewrite (guard_passes a Hs).
  unfold Recorder.emit, Recorder.push_step, bind, await, modify, gets.
  destruct (Recorder.navigation w) as [final|e]; [|reflexivity].
  destruct (Recorder.loaded w) as [pg|e];
    [|unfold recorder_with; cbn [Recorder.trace]; rewrite <- app_assoc;
      reflexivity].
  cbn [Recorder.steps]. rewrite saveSteps_run.
  unfold recorder_with, recorded_from.
  cbn [Recorder.steps Recorder.shuttingDown Recorder.closePending
       Recorder.terminated Recorder.disk Recorder.trace].
  rewrite <- !app_assoc. reflexivity.
Qed.

Lemma saved_file (cwd : jsstring) (l : list Step) (d : FileSystem) :
  files (saved cwd l d) (Recorder.OUT_FILE cwd)
  = Some (JSON_stringify (steps_to_json l)).
Proof.
  unfold saved, writeFileSync. cbn [files]. rewrite jsstring_eqb_refl.
  reflexivity.
Qed.

Lemma saved_other (cwd : jsstring) (l : list Step) (d : FileSystem)
  (p : jsstring) :
  jsstring_eqb p (Recorder.OUT_FILE cwd) = false ->
  files (saved cwd l d) p = files d p.
Proof.
  intros H. unfold saved, writeFileSync. cbn [files]. rewrite H.
  destruct (existsSync (Recorder.OUT_DIR cwd) d); reflexivity.
Qed.

(** X7: a click on an anchor, handled to its end by a recorder that has
    not exited.  When the anchor has an href and a selector, the address is
    resolved, the navigation succeeds and the document is read, exactly
    one step is added at the end: its selector is the derived one, its url
    the address of the page before the click, its target_href the address
    after the navigation, its content the extracted one; and the store is
    rewritten with all the steps.  In every other case no step is added,
    the disk is left as it is and the store is not written. *)
Theorem click_records_one_step (cwd : jsstring) (a : Recorder.Anchor)
  (w : Recorder.ClickWorld) (st : Recorder.State) :
  Recorder.terminated st = false ->
  let st' := Recorder.click cwd (Some a) w st in
  (forall (raw final : jsstring) (pg : Page),
     truthy (Recorder.a_href a) = true ->
     truthy (Recorder.derive_selector a) = true ->
     Recorder.resolved w = Ok raw ->
     Recorder.navigation w = Ok final ->
     Recorder.loaded w = Ok pg ->
     Recorder.steps st' = Recorder.steps st ++ [recorded_from a w final pg]
     /\ files (Recorder.disk st') (Recorder.OUT_FILE cwd)
        = Some (JSON_stringify (steps_to_json (Recorder.steps st')))
     /\ Recorder.trace st'
        = Recorder.trace st
          ++ [Goto raw; Evaluate;
              WriteFile (Recorder.OUT_FILE cwd)
                (JSON_stringify (steps_to_json (Recorder.steps st')))])
  /\ (Recorder.a_href a = []
      \/ Recorder.derive_selector a = []
      \/ (exists e, Recorder.resolved w = Throw e)
      \/ (exists e, Recorder.navigation w = Throw e)
      \/ (exists e, Recorder.loaded w = Throw e) ->
      Recorder.steps st' = Recorder.steps st
      /\ Recorder.disk st' = Recorder.disk st
      /\ count_writes (Recorder.OUT_FILE cwd) (Recorder.trace st')
         = count_writes (Recorder.OUT_FILE cwd) (Recorder.trace st)).
Proof.
  intros Ht st'. subst st'. unfold Recorder.click. rewrite Ht.
  split.
  - intros raw final pg Hh Hs Hr Hn Hl.
    rewrite (clickListener_forwards a Hh Hs). cbn [Recorder.notification].
    rewrite (recordClick_run cwd a w st Hs), Hr, Hn, Hl.
    cbn [snd recorder_with Recorder.steps Recorder.disk Recorder.trace].
    rewrite saved_file. auto.
  - intros H.
    destruct (Recorder.notification (Recorder.clickListener (Some a)))
      as [payload|] eqn:En; [|auto].
    destruct (listener_forwarded _ _ En) as (a' & Ha & Hh & Hs & -> & _).
    injection Ha as <-.
    rewrite (recordClick_run cwd a w st Hs).
    destruct H as [H | [H | [[e H] | [[e H] | [e H]]]]].
    + rewrite H in Hh. discriminate.
    + rewrite H in Hs. discriminate.
    + rewrite H. auto.
    + rewrite H. destruct (Recorder.resolved w); [|auto].
      cbn [snd recorder_with Recorder.steps Recorder.disk Recorder.trace].
      rewrite count_writes_app. unfold count_writes at 2. simpl. auto.
    + rewrite H. destruct (Recorder.resolved w); [|auto].
      destruct (Recorder.navigation w);
        cbn [snd recorder_with Recorder.steps Recorder.disk Recorder.trace];
        rewrite count_writes_app; unfold count_writes at 2; simpl; auto.
Qed.

(* ---------------- the store and its directory ---------------- *)

Lemma existsSync_mkdir (p : jsstring) (d : FileSystem) :
  existsSync p (mkdirSync p d) = true.
Proof.
  unfold existsSync, mkdirSync. cbn [files dirs existsb].
  rewrite jsstring_eqb_refl. destruct (files d p); reflexivity.
Qed.

Lemma existsSync_write_other (p q data : jsstring) (d : FileSystem) :
  existsSync p d = true -> existsSync p (writeFileSync q data d) = true.
Proof.
  unfold existsSync, writeFileSync. cbn [files dirs].
  destruct (jsstring_eqb p q); [reflexivity|]. auto.
Qed.

Lemma saved_dir (cwd : jsstring) (l : list Step) (d : FileSystem) :
  existsSync (Recorder.OUT_DIR cwd) (saved cwd l d) = true.
Proof.
  unfold saved. apply existsSync_write_other.
  destruct (existsSync (Recorder.OUT_DIR cwd) d) eqn:E; [exact E|].
  apply existsSync_mkdir.
Qed.

Lemma saved_saved (cwd : jsstring) (l l' : list Step) (d : FileSystem) :
  dirs (saved cwd l' (saved cwd l d)) = dirs (saved cwd l d)
  /\ forall p, files (saved cwd l' (saved cwd l d)) p
               = files (saved cwd l' d) p.
Proof.
  assert (E : saved cwd l' (saved cwd l d)
              = writeFileSync (Recorder.OUT_FILE cwd)
                  (JSON_stringify (steps_to_json l')) (saved cwd l d)).
  { unfold saved at 1. rewrite saved_dir. reflexivity. }
  rewrite E. split; [reflexivity|].
  intros p. unfold saved, writeFileSync. cbn [files].
  destruct (jsstring_eqb p (Recorder.OUT_FILE cwd)); [reflexivity|].
  destruct (existsSync (Recorder.OUT_DIR cwd) d); reflexivity.
Qed.

(** X8: [saveSteps] leaves every other file as it is; after it the store
    file and its directory exist; the directory is made only when it was
    missing, and [ensureOutDir] run twice does what it does once; and of
    two saves in a row the store holds the second sequence. *)
Theorem saveSteps_touches_only_the_store (cwd : jsstring) (l l' : list Step)
  (st : Recorder.State) :
  let st1 := snd (Recorder.saveSteps cwd l st) in
  let st2 := snd (Recorder.saveSteps cwd l' st1) in
  (forall p, jsstring_eqb p (Recorder.OUT_FILE cwd) = false ->
             files (Recorder.disk st1) p = files (Recorder.disk st) p)
  /\ existsSync (Recorder.OUT_DIR cwd) (Recorder.disk st1) = true
  /\ existsSync (Recorder.OUT_FILE cwd) (Recorder.disk st1) = true
  /\ (existsSync (Recorder.OUT_DIR cwd) (Recorder.disk st) = true ->
      dirs (Recorder.disk st1) = dirs (Recorder.disk st))
  /\ snd (Recorder.ensureOutDir cwd (snd (Recorder.ensureOutDir cwd st)))
     = snd (Recorder.ensureOutDir cwd st)
  /\ dirs (Recorder.disk st2) = dirs (Recorder.disk st1)
  /\ files (Recorder.disk st2) (Recorder.OUT_FILE cwd)
     = Some (JSON_stringify (steps_to_json l')).
Proof.
  intros st1 st2. subst st2 st1. rewrite !saveSteps_run.
  cbn [snd recorder_with Recorder.disk].
  split; [intros p Hp; apply saved_other; exact Hp|].
  split; [apply saved_dir|].
  split; [unfold existsSync; rewrite saved_file; reflexivity|].
  split; [intros H; unfold saved; rewrite H; reflexivity|].
  split.
  - unfold Recorder.ensureOutDir, modify, Recorder.set_disk. cbn [snd].
    destruct (existsSync (Recorder.OUT_DIR cwd) (Recorder.disk st)) eqn:E.
    + rewrite E. reflexivity.
    + cbn [Recorder.disk]. rewrite existsSync_mkdir. reflexivity.
  - split; [exact (proj1 (saved_saved cwd l l' _)) | apply saved_file].
Qed.

(* ---------------- the start ---------------- *)

Lemma start_run (cwd : jsstring) (w : Recorder.StartWorld) (d : FileSystem) :
  let d1 := if existsSync (Recorder.OUT_DIR cwd) d then d
            else mkdirSync (Recorder.OUT_DIR cwd) d in
  let st1 := Recorder.mkState [] false false false d1 [] in
  Recorder.main cwd w (Recorder.initial_state d)
  = match Recorder.start_navigation w with
    | Throw e =>
        (Throw e,
         recorder_with st1 [] d1 [Launch false; Goto Recorder.startUrl])
    | Ok final =>
        match Recorder.start_wait w with
        | Throw e =>
            (Throw e,
             recorder_with st1 [] d1
               [Launch false; Goto Recorder.startUrl; WaitForTimeout 1500])
        | Ok _ =>
            match Recorder.start_loaded w with
            | Throw e =>
                (Throw e,
                 recorder_with st1 [] d1
                   [Launch false; Goto Recorder.startUrl;
                    WaitForTimeout 1500; Evaluate])
            | Ok pg =>
                let l := [initial_step w final pg] in
                (Ok tt,
                 recorder_with st1 l (saved cwd l d1)
                   [Launch false; Goto Recorder.startUrl;
                    WaitForTimeout 1500; Evaluate;
                    WriteFile (Recorder.OUT_FILE cwd)
                      (JSON_stringify (steps_to_json l))])
            end
        end
    end.
Proof.
  intros d1 st1. unfold Recorder.main.
  unfold bind at 1, Recorder.ensureOutDir at 1, modify at 1.
  unfold Recorder.initial_state. cbn [Recorder.disk].
  replace (if existsSync (Recorder.OUT_DIR cwd) d
           then Recorder.mkState [] false false false d []
           else Recorder.set_disk (mkdirSync (Recorder.OUT_DIR cwd) d)
                  (Recorder.mkState [] false false false d []))
    with st1
    by (subst st1 d1; destruct (existsSync (Recorder.OUT_DIR cwd) d);
        reflexivity).
  unfold Recorder.emit, Recorder.push_step, bind, await, modify, gets.
  destruct (Recorder.start_navigation w) as [final|e]; [|reflexivity].
  destruct (Recorder.start_wait w) as [[]|e]; [|reflexivity].
  destruct (Recorder.start_loaded w) as [pg|e]; [|reflexivity].
  cbn [Recorder.steps]. rewrite saveSteps_run.
  unfold recorder_with, initial_step. reflexivity.
Qed.


(* ---------------- the session ---------------- *)

Lemma recorded_from_click_step (a : Recorder.Anchor)
  (w : Recorder.ClickWorld) (final : jsstring) (pg : Page) :
  truthy (Recorder.derive_selector a) = true ->
  click_step (recorded_from a w final pg) = true.
Proof.
  intros H. unfold click_step, recorded_from. cbn [selector isInitial].
  rewrite H, (derive_selector_not_bare a H). reflexivity.
Qed.

(** What one click leaves of the steps and of the store. *)
Lemma click_keeps (cwd : jsstring) (closest : option Recorder.Anchor)
  (w : Recorder.ClickWorld) (st : Recorder.State) :
  in_sync cwd st ->
  in_sync cwd (Recorder.click cwd closest w st)
  /\ exists more,
       Recorder.steps (Recorder.click cwd closest w st)
       = Recorder.steps st ++ more
       /\ forallb click_step more = true.
Proof.
  intros Hsync.
  assert (Hsame : in_sync cwd st
                  /\ exists more, Recorder.steps st = Recorder.steps st ++ more
                                  /\ forallb click_step more = true).
  { split; [exact Hsync|]. exists []. rewrite app_nil_r. auto. }
  unfold Recorder.click. destruct (Recorder.terminated st); [exact Hsame|].
  destruct (Recorder.notification (Recorder.clickListener closest))
    as [payload|] eqn:En; [|exact Hsame].
  destruct (listener_forwarded _ _ En) as (a & -> & Hh & Hs & -> & _).
  rewrite (recordClick_run cwd a w st Hs).
  destruct (Recorder.resolved w) as [raw|e]; [|exact Hsame].
  destruct (Recorder.navigation w) as [final|e]; [|exact Hsame].
  destruct (Recorder.loaded w) as [pg|e]; [|exact Hsame].
  cbn [snd]. unfold in_sync.
  cbn [recorder_with Recorder.steps Recorder.disk]. rewrite saved_file.
  split; [reflexivity|]. exists [recorded_from a w final pg].
  split; [reflexivity|]. cbn [forallb].
  rewrite (recorded_from_click_step a w final pg Hs). reflexivity.
Qed.

Lemma gracefulExit_run (cwd : jsstring) (st : Recorder.State) :
  Recorder.terminated st = false ->
  Recorder.shuttingDown st = false ->
  Recorder.gracefulExit cwd st
  = Recorder.mkState (Recorder.steps st) true true false
      (saved cwd (Recorder.steps st) (Recorder.disk st))
      (Recorder.trace st
       ++ [WriteFile (Recorder.OUT_FILE cwd)
             (JSON_stringify (steps_to_json (Recorder.steps st)));
           BrowserClose]).
Proof.
  intros Ht Hs. unfold Recorder.gracefulExit. rewrite Ht, Hs.
  unfold bind. cbn [Recorder.steps]. rewrite saveSteps_run.
  unfold Recorder.emit, modify, recorder_with.
  cbn [snd Recorder.steps Recorder.shuttingDown Recorder.closePending
       Recorder.terminated Recorder.disk Recorder.trace].
  rewrite <- app_assoc. reflexivity.
Qed.

Lemma shutdown_keeps (cwd : jsstring) (a : Recorder.action)
  (st : Recorder.State) :
  in_sync cwd st ->
  in_sync cwd (Recorder.step_action cwd st a)
  /\ Recorder.steps (Recorder.step_action cwd st a) = Recorder.steps st.
Proof.
  intros Hsync. destruct a; cbn [Recorder.step_action].
  - destruct (Recorder.terminated st) eqn:Ht;
      [unfold Recorder.gracefulExit; rewrite Ht; auto|].
    destruct (Recorder.shuttingDown st) eqn:Hs;
      [unfold Recorder.gracefulExit; rewrite Ht, Hs; auto|].
    rewrite (gracefulExit_run cwd st Ht Hs). unfold in_sync.
    cbn [Recorder.steps Recorder.disk]. rewrite saved_file. auto.
  - unfold Recorder.gracefulExit_resume.
    destruct (Recorder.terminated st); [auto|].
    destruct (Recorder.closePending st); auto.
Qed.

Lemma session_keeps (cwd : jsstring) (hs : list happening) :
  forall st : Recorder.State,
  in_sync cwd st ->
  in_sync cwd (session cwd hs st)
  /\ exists more,
       Recorder.steps (session cwd hs st) = Recorder.steps st ++ more
       /\ forallb click_step more = true.
Proof.
  induction hs as [|h hs IH]; intros st Hsync.
  - split; [exact Hsync|]. exists []. rewrite app_nil_r. auto.
  - change (session cwd (h :: hs) st)
      with (session cwd hs (happen cwd st h)).
    assert (H1 : in_sync cwd (happen cwd st h)
                 /\ exists more,
                      Recorder.steps (happen cwd st h)
                      = Recorder.steps st ++ more
                      /\ forallb click_step more = true).
    { destruct h as [closest w | a]; cbn [happen].
      - apply click_keeps. exact Hsync.
      - destruct (shutdown_keeps cwd a st Hsync) as [H2 H3].
        split; [exact H2|]. exists []. rewrite app_nil_r. auto. }
    destruct H1 as (Hs1 & m1 & E1 & F1).
    destruct (IH _ Hs1) as (Hs2 & m2 & E2 & F2).
    split; [exact Hs2|]. exists (m1 ++ m2).
    rewrite E2, E1, <- app_assoc, forallb_app, F1, F2. auto.
Qed.

Lemma start_ok_inv (cwd : jsstring) (w : Recorder.StartWorld)
  (d : FileSystem) :
  fst (Recorder.main cwd w (Recorder.initial_state d)) = Ok tt ->
  exists final pg,
    Recorder.start_navigation w = Ok final
    /\ Recorder.start_wait w = Ok tt
    /\ Recorder.start_loaded w = Ok pg.
Proof.
  rewrite start_run. cbv zeta.
  destruct (Recorder.start_navigation w) as [final|e1]; [|discriminate].
  destruct (Recorder.start_wait w) as [[]|e2]; [|discriminate].
  destruct (Recorder.start_loaded w) as [pg|e3]; [|discriminate].
  intros _. exists final, pg. auto.
Qed.

Lemma start_ok (cwd : jsstring) (w : Recorder.StartWorld) (d : FileSystem)
  (final : jsstring) (pg : Page) :
  Recorder.start_navigation w = Ok final ->
  Recorder.start_wait w = Ok tt ->
  Recorder.start_loaded w = Ok pg ->
  Recorder.steps (snd (Recorder.main cwd w (Recorder.initial_state d)))
  = [initial_step w final pg]
  /\ in_sync cwd (snd (Recorder.main cwd w (Recorder.initial_state d))).
Proof.
  intros Hn Hw Hl. rewrite start_run. cbv zeta. rewrite Hn, Hw, Hl.
  unfold in_sync. cbn [snd recorder_with Recorder.steps Recorder.disk].
  rewrite saved_file. auto.
Qed.

Lemma recording_facts (cwd : jsstring) (w0 : Recorder.StartWorld)
  (d : FileSystem) (hs : list happening) :
  fst (Recorder.main cwd w0 (Recorder.initial_state d)) = Ok tt ->
  let st := session cwd hs
              (snd (Recorder.main cwd w0 (Recorder.initial_state d))) in
  in_sync cwd st
  /\ exists final pg more,
       Recorder.start_navigation w0 = Ok final
       /\ Recorder.start_loaded w0 = Ok pg
       /\ Recorder.steps st = initial_step w0 final pg :: more
       /\ forallb click_step more = true.
Proof.
  intros Hok st.
  destruct (start_ok_inv cwd w0 d Hok) as (final & pg & Hn & Hw & Hl).
  destruct (start_ok cwd w0 d final pg Hn Hw Hl) as (Hsteps & Hsync).
  destruct (session_keeps cwd hs _ Hsync) as (Hs & more & E & F).
  fold st in Hs, E. split; [exact Hs|].
  exists final, pg, more. rewrite E, Hsteps. auto.
Qed.


Lemma saved_exists_frame (cwd : jsstring) (l : list Step) (d : FileSystem)
  (p : jsstring) :
  foreign cwd p = true ->
  existsSync p (saved cwd l d) = existsSync p d
  /\ files (saved cwd l d) p = files d p.
Proof.
  unfold foreign. rewrite andb_true_iff, !negb_true_iff. intros [Hf Hd].
  unfold saved, existsSync, writeFileSync, mkdirSync. cbn [files dirs].
  rewrite Hf.
  destruct (match files d (Recorder.OUT_DIR cwd) with
            | Some _ => true
            | None => existsb (jsstring_eqb (Recorder.OUT_DIR cwd)) (dirs d)
            end); cbn [files dirs existsb]; rewrite ?Hd; auto.
Qed.

Lemma untouched_refl (p : jsstring) (st : Recorder.State) :
  untouched p st st.
Proof. split; reflexivity. Qed.

Lemma untouched_trans (p : jsstring) (a b c : Recorder.State) :
  untouched p a b -> untouched p b c -> untouched p a c.
Proof. intros [H1 H2] [H3 H4]. split; congruence. Qed.

Lemma click_frame (cwd : jsstring) (closest : option Recorder.Anchor)
  (w : Recorder.ClickWorld) (st : Recorder.State) (p : jsstring) :
  foreign cwd p = true ->
  untouched p st (Recorder.click cwd closest w st).
Proof.
  intros Hp. unfold Recorder.click.
  destruct (Recorder.terminated st); [apply untouched_refl|].
  destruct (Recorder.notification (Recorder.clickListener closest))
    as [payload|] eqn:En; [|apply untouched_refl].
  destruct (listener_forwarded _ _ En) as (a & -> & Hh & Hs & -> & _).
  rewrite (recordClick_run cwd a w st Hs).
  destruct (Recorder.resolved w) as [raw|e]; [|apply untouched_refl].
  destruct (Recorder.navigation w) as [final|e]; [|split; reflexivity].
  destruct (Recorder.loaded w) as [pg|e]; [|split; reflexivity].
  unfold untouched. cbn [snd recorder_with Recorder.disk].
  apply saved_exists_frame. exact Hp.
Qed.

Lemma shutdown_frame (cwd : jsstring) (a : Recorder.action)
  (st : Recorder.State) (p : jsstring) :
  foreign cwd p = true ->
  untouched p st (Recorder.step_action cwd st a).
Proof.
  intros Hp. destruct a; cbn [Recorder.step_action].
  - destruct (Recorder.terminated st) eqn:Ht;
      [unfold Recorder.gracefulExit; rewrite Ht; apply untouched_refl|].
    destruct (Recorder.shuttingDown st) eqn:Hs;
      [unfold Recorder.gracefulExit; rewrite Ht, Hs; apply untouched_refl|].
    rewrite (gracefulExit_run cwd st Ht Hs). unfold untouched.
    cbn [Recorder.disk]. apply saved_exists_frame. exact Hp.
  - unfold Recorder.gracefulExit_resume.
    destruct (Recorder.terminated st); [apply untouched_refl|].
    destruct (Recorder.closePending st); split; reflexivity.
Qed.

Lemma session_frame (cwd : jsstring) (hs : list happening) (p : jsstring) :
  foreign cwd p = true ->
  forall st, untouched p st (session cwd hs st).
Proof.
  intros Hp. induction hs as [|h hs IH]; intros st; [apply untouched_refl|].
  change (session cwd (h :: hs) st) with (session cwd hs (happen cwd st h)).
  apply (untouched_trans p st (happen cwd st h)); [|apply IH].
  destruct h as [closest w | a]; cbn [happen];
    [apply click_frame | apply shutdown_frame]; exact Hp.
Qed.

Lemma start_frame (cwd : jsstring) (w : Recorder.StartWorld) (d : FileSystem)
  (p : jsstring) :
  foreign cwd p = true ->
  untouched p (Recorder.initial_state d)
    (snd (Recorder.main cwd w (Recorder.initial_state d))).
Proof.
  intros Hp. rewrite start_run. cbv zeta.
  assert (Hd : existsSync p (if existsSync (Recorder.OUT_DIR cwd) d then d
                             else mkdirSync (Recorder.OUT_DIR cwd) d)
               = existsSync p d
               /\ files (if existsSync (Recorder.OUT_DIR cwd) d then d
                         else mkdirSync (Recorder.OUT_DIR cwd) d) p
                  = files d p).
  { unfold foreign in Hp. rewrite andb_true_iff, !negb_true_iff in Hp.
    destruct Hp as [_ Hd].
    destruct (existsSync (Recorder.OUT_DIR cwd) d); [auto|].
    unfold existsSync, mkdirSync. cbn [files dirs existsb]. rewrite Hd. auto. }
  unfold untouched.
  destruct (Recorder.start_navigation w) as [final|e1];
    [destruct (Recorder.start_wait w) as [[]|e2];
     [destruct (Recorder.start_loaded w) as [pg|e3]|]|];
    cbn [snd recorder_with Recorder.disk Recorder.initial_state];
    try exact Hd.
  destruct (saved_exists_frame cwd [initial_step w final pg]
              (if existsSync (Recorder.OUT_DIR cwd) d then d
               else mkdirSync (Recorder.OUT_DIR cwd) d) p Hp) as [H1 H2].
  destruct Hd as [H3 H4]. split; congruence.
Qed.

(** X10: after a start that succeeded, whatever clicks, shutdown triggers
    and settlements follow one another, the store file holds the steps the
    recorder has in memory; these are the initial step followed by steps
    of clicks, each with a selector that is neither empty nor the bare tag
    name; and every path other than the store file and its directory is
    left as it was. *)
Theorem recording_keeps_store_in_sync (cwd : jsstring)
  (w0 : Recorder.StartWorld) (d : FileSystem) (hs : list happening) :
  fst (Recorder.main cwd w0 (Recorder.initial_state d)) = Ok tt ->
  let st := session cwd hs
              (snd (Recorder.main cwd w0 (Recorder.initial_state d))) in
  files (Recorder.disk st) (Recorder.OUT_FILE cwd)
  = Some (JSON_stringify (steps_to_json (Recorder.steps st)))
  /\ (exists final pg more,
        Recorder.start_navigation w0 = Ok final
        /\ Recorder.start_loaded w0 = Ok pg
        /\ Recorder.steps st = initial_step w0 final pg :: more
        /\ forallb click_step more = true)
  /\ (forall p, foreign cwd p = true ->
                existsSync p (Recorder.disk st) = existsSync p d
                /\ files (Recorder.disk st) p = files d p).
Proof.
  intros Hok st. destruct (recording_facts cwd w0 d hs Hok) as [Hs Hrest].
  split; [exact Hs|]. split; [exact Hrest|].
  intros p Hp.
  exact (untouched_trans p _ _ _ (start_frame cwd w0 d p Hp)
           (session_frame cwd hs p Hp _)).
Qed.

(** A start, a recorded click, a click whose navigation fails, a click
    that is not recorded, and the shutdown. *)
Lemma recording_keeps_store_in_sync_witness :
  let st := session (lit "/work") tiger_session
              (snd (Recorder.main (lit "/work") tiger_start
                      (Recorder.initial_state empty_fs))) in
  length (Recorder.steps st) = 2
  /\ Recorder.terminated st = true
  /\ files (Recorder.disk st) (Recorder.OUT_FILE (lit "/work"))
     = Some (JSON_stringify (steps_to_json (Recorder.steps st))).
Proof.
  split; [vm_compute; reflexivity|]. split; [vm_compute; reflexivity|].
  exact (proj1 (recording_keeps_store_in_sync (lit "/work") tiger_start
                  empty_fs tiger_session eq_refl)).
Defined.

(** X11: what the recorder has written is what the replayer loads: after
    a start that succeeded and any clicks and shutdown, [loadSteps] on the
    recorder's disk returns the steps the recorder has in memory, provided
    they are well formed; and they are not empty. *)
Theorem replayer_loads_the_recording (cwd : jsstring)
  (w0 : Recorder.StartWorld) (d : FileSystem) (hs : list happening) :
  fst (Recorder.main cwd w0 (Recorder.initial_state d)) = Ok tt ->
  let st := session cwd hs
              (snd (Recorder.main cwd w0 (Recorder.initial_state d))) in
  forallb well_formed_step (Recorder.steps st) = true ->
  Replayer.loadSteps cwd (Recorder.disk st) = Ok (Recorder.steps st)
  /\ Recorder.steps st <> [].
Proof.
  intros Hok st Hwf.
  destruct (recording_facts cwd w0 d hs Hok)
    as (Hs & final & pg & more & _ & _ & E & _).
  fold st in Hs, E. split.
  - apply loadSteps_of_file; [exact Hwf|].
    rewrite <- same_store_path. exact Hs.
  - rewrite E. discriminate.
Qed.

(** The session of two steps, loaded. *)
Lemma replayer_loads_the_recording_witness :
  let st := session (lit "/work") tiger_session
              (snd (Recorder.main (lit "/work") tiger_start
                      (Recorder.initial_state empty_fs))) in
  Replayer.loadSteps (lit "/work") (Recorder.disk st)
  = Ok (Recorder.steps st).
Proof.
  refine (proj1 (replayer_loads_the_recording (lit "/work") tiger_start
                   empty_fs tiger_session eq_refl _)).
  vm_compute. reflexivity.
Defined.

(** X12: the first call of [gracefulExit] writes the steps in memory.
    When the store already holds them no file changes.  When no step is
    in memory yet, as before the initial snapshot, the store is replaced
    by the empty sequence whatever it held: the replayer then loads no
    step and exits with code 0 at once. *)
Theorem shutdown_saves_what_is_in_memory (cwd : jsstring)
  (st : Recorder.State) :
  Recorder.terminated st = false ->
  Recorder.shuttingDown st = false ->
  let st' := Recorder.gracefulExit cwd st in
  files (Recorder.disk st') (Recorder.OUT_FILE cwd)
  = Some (JSON_stringify (steps_to_json (Recorder.steps st)))
  /\ (in_sync cwd st ->
      forall p, files (Recorder.disk st') p = files (Recorder.disk st) p)
  /\ (Recorder.steps st = [] ->
      Replayer.loadSteps cwd (Recorder.disk st') = Ok []
      /\ forall w : Replayer.World,
           Replayer.disk0 w = Recorder.disk st' ->
           fst (Replayer.main cwd w) = Replayer.Exited 0
           /\ Replayer.trace (snd (Replayer.main cwd w)) = [Exit 0]).
Proof.
  intros Ht Hs st'. subst st'. rewrite (gracefulExit_run cwd st Ht Hs).
  cbn [Recorder.disk]. split; [apply saved_file|]. split.
  - intros Hsync p.
    destruct (jsstring_eqb p (Recorder.OUT_FILE cwd)) eqn:E.
    + apply jsstring_eqb_eq in E. subst p. rewrite saved_file.
      symmetry. exact Hsync.
    + apply saved_other. exact E.
  - intros Hnil.
    assert (Hload : Replayer.loadSteps cwd
                      (saved cwd (Recorder.steps st) (Recorder.disk st))
                    = Ok []).
    { rewrite Hnil. apply loadSteps_of_file; [reflexivity|].
      rewrite <- same_store_path. apply saved_file. }
    split; [exact Hload|]. intros w Hw.
    unfold Replayer.main. rewrite Hw, Hload. split; reflexivity.
Qed.

(** A store with one step, then a recorder that is shut down before its
    first snapshot. *)
Lemma shutdown_saves_what_is_in_memory_witness :
  Replayer.loadSteps (lit "/work") tiger_store = Ok [tiger_step]
  /\ Replayer.loadSteps (lit "/work")
       (Recorder.disk
          (Recorder.gracefulExit (lit "/work")
             (Recorder.initial_state tiger_store)))
     = Ok [].
Proof.
  split; [vm_compute; reflexivity|].
  exact (proj1 (proj2 (proj2 (shutdown_saves_what_is_in_memory (lit "/work")
                  (Recorder.initial_state tiger_store) eq_refl eq_refl))
                eq_refl)).
Defined.

(** X6: whatever the listener passes to the binding gets past the
    binding's guard.  When the listener calls [recordClick] it has
    suppressed the navigation of the browser, and the payload has an href
    and a selector that is neither empty nor the bare tag name; so, once
    the address is resolved, the binding goes on to navigate there. *)
Theorem forwarded_payload_passes_guard (cwd : jsstring)
  (closest : option Recorder.Anchor) (payload : Recorder.ClickPayload)
  (w : Recorder.ClickWorld) (st : Recorder.State) (raw : jsstring) :
  Recorder.notification (Recorder.clickListener closest) = Some payload ->
  Recorder.resolved w = Ok raw ->
  Recorder.defaultPrevented (Recorder.clickListener closest) = true
  /\ truthy (Recorder.payload_href payload) = true
  /\ truthy (Recorder.payload_selector payload) = true
  /\ jsstring_eqb (Recorder.payload_selector payload) (lit "a") = false
  /\ exists tr,
       Recorder.trace (snd (Recorder.recordClick cwd payload w st))
       = Recorder.trace st ++ Goto raw :: tr.
Proof.
  intros Hn Hr.
  destruct (listener_forwarded closest payload Hn)
    as (a & _ & Hh & Hs & -> & Hp).
  cbn [Recorder.payload_href Recorder.payload_selector].
  split; [exact Hp|]. split; [exact Hh|]. split; [exact Hs|].
  split; [exact (derive_selector_not_bare a Hs)|].
  rewrite (recordClick_run cwd a w st Hs), Hr.
  destruct (Recorder.navigation w) as [final|e];
    [destruct (Recorder.loaded w) as [pg|e]|];
    cbn [snd recorder_with Recorder.trace]; eexists; reflexivity.
Qed.

(** An anchor with an id, and a binding whose navigation then fails. *)
Lemma forwarded_payload_passes_guard_witness :
  Recorder.defaultPrevented (Recorder.clickListener (Some anchor_with_id))
  = true
  /\ exists tr,
       Recorder.trace
         (snd (Recorder.recordClick (lit "/work")
                 (Recorder.mkPayload (lit "https://en.wikipedia.org/y")
                    (lit "a#x"))
                 failing_click_world (Recorder.initial_state empty_fs)))
       = [] ++ Goto (lit "https://en.wikipedia.org/y") :: tr.
Proof.
  destruct (forwarded_payload_passes_guard (lit "/work")
              (Some anchor_with_id)
              (Recorder.mkPayload (lit "https://en.wikipedia.org/y")
                 (lit "a#x"))
              failing_click_world (Recorder.initial_state empty_fs)
              (lit "https://en.wikipedia.org/y") eq_refl eq_refl)
    as (H1 & _ & _ & _ & H2).
  split; [exact H1 | exact H2].
Defined.

(** A click that is recorded, and one whose navigation fails. *)
Lemma click_records_one_step_witness :
  Recorder.steps
    (Recorder.click (lit "/work") (Some anchor_with_id) quiet_click_world
       (Recorder.initial_state empty_fs))
  = [recorded_from anchor_with_id quiet_click_world
       (lit "https://en.wikipedia.org/y") blank_page]
  /\ Recorder.steps
       (Recorder.click (lit "/work") (Some anchor_with_id)
          failing_click_world (Recorder.initial_state empty_fs))
     = [].
Proof.
  split.
  - exact (proj1 (proj1 (click_records_one_step (lit "/work") anchor_with_id
                           quiet_click_world
                           (Recorder.initial_state empty_fs) eq_refl)
                   (lit "https://en.wikipedia.org/y")
                   (lit "https://en.wikipedia.org/y") blank_page
                   eq_refl eq_refl eq_refl eq_refl eq_refl)).
  - refine (proj1 (proj2 (click_records_one_step (lit "/work") anchor_with_id
                            failing_click_world
                            (Recorder.initial_state empty_fs) eq_refl) _)).
    right. right. right. left. exists (lit "net::ERR_ABORTED"). reflexivity.
Defined.

(* ================================================================== *)
(** * Further properties: replayer *)
(* ================================================================== *)

Lemma gotos_app (t u : list event) : gotos (t ++ u) = gotos t ++ gotos u.
Proof. apply flat_map_app. Qed.

(** The events of one step: they start with the navigation to the step's
    [target_href], and only navigate, wait, evaluate and send. *)
Lemma replay_step_events (w : Replayer.StepWorld) (i : nat) (step : Step)
  (st : Replayer.State) :
  exists tr,
    Replayer.trace (snd (Replayer.replay_step w i step st))
    = Replayer.trace st ++ Goto (target_href step) :: tr
    /\ forallb browsing tr = true
    /\ gotos tr = [].
Proof.
  destruct (live_of w) as [live|] eqn:Hl.
  - unfold live_of in Hl.
    destruct (Replayer.goto_result w) as [[]|] eqn:E1; [|discriminate].
    destruct (Replayer.settle_result w) as [[]|] eqn:E2; [|discriminate].
    destruct (Replayer.evaluate_result w) as [pg|] eqn:E3; [|discriminate].
    unfold Replayer.replay_step, Replayer.sendFailureEmail,
      Replayer.set_hasMismatch, Replayer.set_failureEmailSent,
      Replayer.push_result, Replayer.emit, bind, await, modify, gets, ret.
    rewrite E1, E2, E3. cbn beta iota.
    destruct st as [rs hm sent d t].
    destruct (jsstring_eqb _ _);
      [|destruct sent; [|destruct (Replayer.send_result w) as [[]|e]]];
      try (destruct (Replayer.pause_result w) as [[]|e']);
      norm_state;
      (eexists; split; [reflexivity | split; reflexivity]).
  - apply live_of_early_error in Hl. destruct Hl as [e He].
    unfold early_error in He.
    unfold Replayer.replay_step, Replayer.emit, bind, await, modify.
    destruct (Replayer.goto_result w) as [[]|e1]; cbn beta iota.
    + destruct (Replayer.settle_result w) as [[]|e2]; cbn beta iota.
      * destruct (Replayer.evaluate_result w) as [pg|e3]; [discriminate|].
        norm_state. eexists; split; [reflexivity | split; reflexivity].
      * norm_state. eexists; split; [reflexivity | split; reflexivity].
    + norm_state. eexists; split; [reflexivity | split; reflexivity].
Qed.

(** One step leaves the results as they are or adds one, adds one when it
    ends normally, and raises [hasMismatch] exactly for a failed result. *)
Lemma replay_step_results (w : Replayer.StepWorld) (i : nat) (step : Step)
  (st : Replayer.State) :
  exists rs,
    Replayer.results (snd (Replayer.replay_step w i step st))
    = Replayer.results st ++ rs
    /\ length rs <= 1
    /\ (fst (Replayer.replay_step w i step st) = Ok tt -> length rs = 1)
    /\ Replayer.hasMismatch (snd (Replayer.replay_step w i step st))
       = Replayer.hasMismatch st || some_failed rs.
Proof.
  destruct (live_of w) as [live|] eqn:Hl.
  - destruct (replay_step_late w i step st live Hl) as (tr & E & _).
    rewrite E. cbn [fst snd Replayer.results Replayer.hasMismatch].
    eexists. split; [reflexivity|]. split; [simpl; lia|].
    split; [reflexivity|]. cbn [some_failed existsb pass spread_result].
    rewrite orb_false_r. reflexivity.
  - apply live_of_early_error in Hl. destruct Hl as [e He].
    destruct (replay_step_early w i step st e He) as (tr & E & _).
    rewrite E. cbn [fst snd Replayer.results Replayer.hasMismatch].
    exists []. rewrite app_nil_r. split; [reflexivity|].
    split; [simpl; lia|]. split; [discriminate|].
    cbn [some_failed existsb]. rewrite orb_false_r. reflexivity.
Qed.

Lemma some_failed_app (a b : list StepResult) :
  some_failed (a ++ b) = some_failed a || some_failed b.
Proof. apply existsb_app. Qed.

(** The events and the results of the loop, however it ends: the loop
    navigates to the [target_href] of the first [n] steps, in order, and
    does nothing but navigate, wait, evaluate and send; it has a result for
    each of them, the last apart when that one threw early. *)
Lemma loop_shape (at_step : nat -> Replayer.StepWorld) (l : list Step) :
  forall (i : nat) (st : Replayer.State),
  exists n tr rs,
    Replayer.trace (snd (Replayer.replay_loop at_step i l st))
    = Replayer.trace st ++ tr
    /\ forallb browsing tr = true
    /\ gotos tr = map target_href (firstn n l)
    /\ n <= length l
    /\ Replayer.results (snd (Replayer.replay_loop at_step i l st))
       = Replayer.results st ++ rs
    /\ length rs <= n
    /\ n <= S (length rs)
    /\ (fst (Replayer.replay_loop at_step i l st) = Ok tt ->
        n = length l /\ length rs = length l)
    /\ Replayer.hasMismatch (snd (Replayer.replay_loop at_step i l st))
       = Replayer.hasMismatch st || some_failed rs.
Proof.
  induction l as [|step rest IH]; intros i st.
  - exists 0, [], []. cbn [Replayer.replay_loop ret fst snd].
    rewrite !app_nil_r, orb_false_r. repeat split; simpl; lia.
  - rewrite replay_loop_cons.
    destruct (replay_step_events (at_step i) i step st) as (tr1 & Et & Hb & Hg).
    destruct (replay_step_results (at_step i) i step st)
      as (rs1 & Er & Hlen & Hok & Hm).
    destruct (Replayer.replay_step (at_step i) i step st) as [[[]|e] st1].
    + cbn [fst snd] in *. specialize (Hok eq_refl).
      destruct (IH (S i) st1)
        as (n & tr & rs & Ht' & Hb' & Hg' & Hn & Hr' & H1 & H2 & H3 & Hm').
      exists (S n), (Goto (target_href step) :: tr1 ++ tr), (rs1 ++ rs).
      rewrite Ht', Et, Hr', Er, Hm', Hm.
      rewrite <- !app_assoc, some_failed_app, orb_assoc.
      split; [reflexivity|].
      split; [cbn [forallb browsing]; rewrite forallb_app, Hb, Hb';
              reflexivity|].
      split; [cbn [gotos flat_map firstn map app];
              fold (gotos (tr1 ++ tr)); rewrite gotos_app, Hg, Hg';
              reflexivity|].
      split; [simpl; lia|]. split; [reflexivity|].
      rewrite length_app. split; [lia|]. split; [lia|].
      split; [|reflexivity]. intros Hend. destruct (H3 Hend). simpl. lia.
    + cbn [fst snd] in *.
      exists 1, (Goto (target_href step) :: tr1), rs1.
      split; [exact Et|].
      split; [cbn [forallb browsing]; exact Hb|].
      split; [cbn [gotos flat_map firstn map app]; fold (gotos tr1);
              rewrite Hg; reflexivity|].
      split; [simpl; lia|]. split; [exact Er|].
      split; [exact Hlen|]. split; [lia|].
      split; [discriminate | exact Hm].
Qed.

Lemma browsing_no_exit (t : list event) :
  forallb browsing t = true -> count_exits t = 0.
Proof.
  unfold count_exits. induction t as [|e t IH]; [reflexivity|].
  cbn [forallb filter]. intros H. apply andb_true_iff in H.
  destruct H as [He Ht]. destruct e; try discriminate; exact (IH Ht).
Qed.



(** What the end of a run adds to the loop: no navigation, no result. *)
Lemma finish_adds (cwd : jsstring) (w : Replayer.World)
  (r : outcome unit * Replayer.State) :
  exists extra,
    Replayer.trace (snd (finish cwd w r)) = Replayer.trace (snd r) ++ extra
    /\ gotos extra = []
    /\ Replayer.results (snd (finish cwd w r)) = Replayer.results (snd r)
    /\ Replayer.hasMismatch (snd (finish cwd w r))
       = Replayer.hasMismatch (snd r).
Proof.
  destruct r as [[[]|e] st1]; unfold finish; cbn [snd].
  - eexists. unfold reported. cbn [Replayer.trace Replayer.results
                                    Replayer.hasMismatch].
    split; [reflexivity|]. repeat split.
  - destruct (Replayer.failureEmailSent st1).
    + eexists. unfold reported.
      cbn [snd Replayer.trace Replayer.results Replayer.hasMismatch].
      split; [reflexivity|]. repeat split.
    + destruct (Replayer.crash_send_result w) as [[]|e'];
        unfold reported, with_events;
        cbn [snd Replayer.trace Replayer.results Replayer.hasMismatch];
        rewrite <- ?app_assoc; eexists; (split; [reflexivity|]);
        repeat split.
Qed.

(** X15: the replayer drives the browser by addresses only: the
    navigations of a run are those to the [target_href] of the first [n]
    steps, in the order of the store, where [n] is the number of results
    or one more (a step that threw before its result); [n] is the number
    of steps when every step runs without exception. *)
Theorem replay_navigates_in_order (cwd : jsstring) (w : Replayer.World)
  (l : list Step) :
  Replayer.loadSteps cwd (Replayer.disk0 w) = Ok l ->
  let final := snd (Replayer.main cwd w) in
  exists n,
    gotos (Replayer.trace final) = map target_href (firstn n l)
    /\ n <= length l
    /\ length (Replayer.results final) <= n
    /\ n <= S (length (Replayer.results final))
    /\ (Replayer.config_missing (Replayer.env w) = false ->
        clean_before w l (length l) ->
        n = length l).
Proof.
  intros Hload final. subst final.
  destruct l as [|s l];
    [|destruct (Replayer.config_missing (Replayer.env w)) eqn:Hcfg].
  - exists 0. unfold Replayer.main. rewrite Hload.
    cbn. repeat split; lia.
  - exists 0. unfold Replayer.main. rewrite Hload, Hcfg.
    cbn. repeat split; lia.
  - rewrite (main_run cwd w s l Hload Hcfg).
    destruct (finish_adds cwd w
                (Replayer.replay_loop (Replayer.at_step w) 0 (s :: l)
                   (loop_start w))) as (extra & Ht & Hg & Hr & _).
    destruct (loop_shape (Replayer.at_step w) (s :: l) 0 (loop_start w))
      as (n & tr & rs & Ht' & _ & Hg' & Hn & Hr' & H1 & H2 & H3 & _).
    exists n. rewrite Ht, Ht', Hr, Hr'. rewrite !gotos_app, Hg, Hg'.
    cbn [loop_start with_events Replayer.initial_state Replayer.trace
         Replayer.results gotos flat_map app].
    rewrite app_nil_r. split; [reflexivity|]. split; [exact Hn|].
    split; [exact H1|]. split; [exact H2|].
    intros _ Hok.
    destruct (run_completes w (s :: l) Hok) as [Hend _].
    exact (proj1 (H3 Hend)).
Qed.


Lemma first_failure_none (rs : list StepResult) :
  forall i, some_failed rs = false -> first_failure i rs = None.
Proof.
  induction rs as [|r rs IH]; intros i; [reflexivity|].
  cbn [some_failed existsb first_failure]. fold (some_failed rs).
  destruct (pass r); cbn [negb orb]; [apply IH | discriminate].
Qed.

Lemma first_failure_some (rs : list StepResult) :
  forall i, some_failed rs = true -> first_failure i rs <> None.
Proof.
  induction rs as [|r rs IH]; intros i; [discriminate|].
  cbn [some_failed existsb first_failure]. fold (some_failed rs).
  destruct (pass r); cbn [negb orb]; [apply IH | discriminate].
Qed.

(** A run that passed the checks and in which every step runs without
    exception. *)
Lemma complete_run (cwd : jsstring) (w : Replayer.World) (s : Step)
  (l : list Step) :
  Replayer.loadSteps cwd (Replayer.disk0 w) = Ok (s :: l) ->
  Replayer.config_missing (Replayer.env w) = false ->
  clean_before w (s :: l) (length (s :: l)) ->
  let final := snd (Replayer.main cwd w) in
  fst (Replayer.main cwd w) = Replayer.Completed
  /\ length (Replayer.results final) = length (s :: l)
  /\ Replayer.hasMismatch final = some_failed (Replayer.results final)
  /\ sends (Replayer.trace final)
     = alert_of (first_failure 0 (Replayer.results final))
  /\ files (Replayer.disk final) (Replayer.REPORT_FILE cwd)
     = Some (Replayer.reportHtml (Replayer.results final)).
Proof.
  intros Hload Hcfg Hok final. subst final.
  rewrite (main_run cwd w s l Hload Hcfg).
  destruct (run_completes w (s :: l) Hok) as [Hend Hlen].
  destruct (loaded_run cwd w (s :: l)) as (Hfin & _ & Hsends & _).
  destruct (loaded_run_report cwd w (s :: l)) as (Hc & Hfile & _);
    [left; exists tt; exact Hend|].
  destruct (loop_shape (Replayer.at_step w) (s :: l) 0 (loop_start w))
    as (n & tr & rs & _ & _ & _ & _ & Hr & _ & _ & _ & Hm).
  destruct (finish_adds cwd w
              (Replayer.replay_loop (Replayer.at_step w) 0 (s :: l)
                 (loop_start w))) as (extra & _ & _ & _ & Hm').
  cbv zeta in Hfin, Hsends, Hc, Hfile.
  split; [exact Hc|]. split; [rewrite Hfin; exact Hlen|].
  split; [rewrite Hm', Hm, Hfin, Hr; reflexivity|].
  split; [|exact Hfile].
  rewrite Hsends, Hend.
  destruct (first_failure 0 _) as [[i x]|]; reflexivity.
Qed.

(** X16: a run in which every step runs without exception ends normally,
    whatever the verdicts: [process.exit] is not called and the exit code
    is 0 also when steps failed.  There is one result per step;
    [hasMismatch] holds exactly when one of them failed, and nothing reads
    it; one mail was handed to the transport when a step failed and none
    otherwise; and the report is written from all the results. *)
Theorem complete_run_exits_zero (cwd : jsstring) (w : Replayer.World)
  (s : Step) (l : list Step) :
  Replayer.loadSteps cwd (Replayer.disk0 w) = Ok (s :: l) ->
  Replayer.config_missing (Replayer.env w) = false ->
  clean_before w (s :: l) (length (s :: l)) ->
  let final := snd (Replayer.main cwd w) in
  fst (Replayer.main cwd w) = Replayer.Completed
  /\ Replayer.exit_code (fst (Replayer.main cwd w)) = 0%Z
  /\ count_exits (Replayer.trace final) = 0
  /\ length (Replayer.results final) = length (s :: l)
  /\ Replayer.hasMismatch final = some_failed (Replayer.results final)
  /\ (some_failed (Replayer.results final) = true ->
      length (sends (Replayer.trace final)) = 1)
  /\ (some_failed (Replayer.results final) = false ->
      sends (Replayer.trace final) = [])
  /\ files (Replayer.disk final) (Replayer.REPORT_FILE cwd)
     = Some (Replayer.reportHtml (Replayer.results final)).
Proof.
  intros Hload Hcfg Hok final.
  destruct (complete_run cwd w s l Hload Hcfg Hok)
    as (Hc & Hlen & Hm & Hs & Hf).
  fold final in Hlen, Hm, Hs, Hf.
  split; [exact Hc|]. split; [rewrite Hc; reflexivity|].
  split.
  - subst final. rewrite (main_run cwd w s l Hload Hcfg).
    destruct (loop_shape (Replayer.at_step w) (s :: l) 0 (loop_start w))
      as (n & tr & rs & Ht' & Hb & _).
    destruct (run_completes w (s :: l) Hok) as [Hend _].
    destruct (Replayer.replay_loop (Replayer.at_step w) 0 (s :: l)
                (loop_start w)) as [o st1].
    cbn [fst snd] in *. subst o. unfold finish, reported.
    cbn [snd Replayer.trace]. rewrite Ht', !count_exits_app.
    rewrite (browsing_no_exit tr Hb). reflexivity.
  - split; [exact Hlen|]. split; [exact Hm|]. split; [|split; [|exact Hf]].
    + intros H. rewrite Hs.
      pose proof (first_failure_some _ 0 H) as Hn.
      destruct (first_failure 0 (Replayer.results final)) as [[i x]|];
        [reflexivity | contradiction].
    + intros H. rewrite Hs, (first_failure_none _ 0 H). reflexivity.
Qed.

(** Three steps that all fail, and an exit code of 0. *)
Lemma complete_run_exits_zero_witness :
  Replayer.exit_code (fst (Replayer.main (lit "/work") beta_world)) = 0%Z
  /\ Replayer.hasMismatch (snd (Replayer.main (lit "/work") beta_world))
     = true.
Proof.
  assert (Hload : Replayer.loadSteps (lit "/work")
                    (Replayer.disk0 beta_world) = Ok alpha_steps).
  { vm_compute. reflexivity. }
  destruct (complete_run_exits_zero (lit "/work") beta_world (alpha_step 1)
              [alpha_step 2; alpha_step 3] Hload eq_refl)
    as (_ & H1 & _ & _ & H2 & _).
  - intros j _. split; reflexivity.
  - split; [exact H1|]. rewrite H2. vm_compute. reflexivity.
Defined.

Lemma some_failed_false_nth (rs : list StepResult) :
  (forall p x, nth_error rs p = Some x -> pass x = true) ->
  some_failed rs = false.
Proof.
  induction rs as [|r rs IH]; intros H; [reflexivity|].
  cbn [some_failed existsb]. fold (some_failed rs).
  rewrite (H 0 r eq_refl). cbn [negb orb].
  apply IH. intros p x Hp. exact (H (S p) x Hp).
Qed.

Lemma live_of_page (w : Replayer.StepWorld) (live : ContentSnapshot) :
  live_of w = Some live ->
  exists pg, Replayer.evaluate_result w = Ok pg /\ live = extractContent pg.
Proof.
  unfold live_of.
  destruct (Replayer.goto_result w); [|discriminate].
  destruct (Replayer.settle_result w); [|discriminate].
  destruct (Replayer.evaluate_result w) as [pg|]; [|discriminate].
  intros H. injection H as <-. exists pg. auto.
Qed.

(** X17: replaying against pages that have not changed.  When the calls
    into the browser succeed and the [firstP] extracted from the page of
    each step has the words of the recorded one, every step has a result
    and passes, no mail is handed to the transport, whatever the transport
    would answer, and the run ends normally. *)
Theorem unchanged_pages_pass (cwd : jsstring) (w : Replayer.World)
  (s : Step) (l : list Step) :
  Replayer.loadSteps cwd (Replayer.disk0 w) = Ok (s :: l) ->
  Replayer.config_missing (Replayer.env w) = false ->
  (forall j, j < length (s :: l) ->
             calls_ok (Replayer.at_step w j) = true) ->
  (forall j step pg,
     nth_error (s :: l) j = Some step ->
     Replayer.evaluate_result (Replayer.at_step w j) = Ok pg ->
     words (extractFirstP pg) = words (or_empty (firstP (content step)))) ->
  let final := snd (Replayer.main cwd w) in
  fst (Replayer.main cwd w) = Replayer.Completed
  /\ length (Replayer.results final) = length (s :: l)
  /\ forallb pass (Replayer.results final) = true
  /\ Replayer.hasMismatch final = false
  /\ sends (Replayer.trace final) = [].
Proof.
  intros Hload Hcfg Hok Hsame final.
  assert (Hcmp : forall j step live,
            nth_error (s :: l) j = Some step ->
            live_of (Replayer.at_step w j) = Some live ->
            Replayer.compare step live = true).
  { intros j step live Hn Hl.
    destruct (live_of_page _ _ Hl) as (pg & Hpg & ->).
    apply compare_words. cbn [extractContent firstP or_empty].
    symmetry. exact (Hsame j step pg Hn Hpg). }
  assert (Hclean : clean_before w (s :: l) (length (s :: l))).
  { intros j Hj. split; [exact (Hok j Hj)|].
    intros [(step & live & Hn & Hl & Hc) _].
    rewrite (Hcmp j step live Hn Hl) in Hc. discriminate. }
  destruct (complete_run cwd w s l Hload Hcfg Hclean)
    as (Hc & Hlen & Hm & Hs & _).
  destruct (main_results cwd w (s :: l) Hload) as [Hnth _].
  fold final in Hlen, Hm, Hs, Hnth.
  assert (Hpass : forall p x,
            nth_error (Replayer.results final) p = Some x -> pass x = true).
  { intros p x Hx.
    destruct (Hnth p x Hx) as (step & live & H1 & H2 & ->).
    cbn [pass spread_result]. exact (Hcmp p step live H1 H2). }
  pose proof (some_failed_false_nth _ Hpass) as Hnone.
  split; [exact Hc|]. split; [exact Hlen|]. split.
  - apply forallb_forall. intros x Hin.
    destruct (In_nth_error _ _ Hin) as [p Hp]. exact (Hpass p x Hp).
  - split; [rewrite Hm; exact Hnone|].
    rewrite Hs, (first_failure_none _ 0 Hnone). reflexivity.
Qed.

(** Five steps recorded on a blank page and replayed on it. *)
Lemma unchanged_pages_pass_witness :
  let final := snd (Replayer.main (lit "/work")
                      (calm_world full_env five_store)) in
  length (Replayer.results final) = 5
  /\ forallb pass (Replayer.results final) = true
  /\ sends (Replayer.trace final) = [].
Proof.
  assert (Hload : Replayer.loadSteps (lit "/work")
                    (Replayer.disk0 (calm_world full_env five_store))
                  = Ok five_steps).
  { vm_compute. reflexivity. }
  destruct (unchanged_pages_pass (lit "/work")
              (calm_world full_env five_store) tiger_step
              [tiger_step; tiger_step; tiger_step; tiger_step]
              Hload eq_refl)
    as (_ & H1 & H2 & _ & H3).
  - intros j _. reflexivity.
  - intros j step pg Hj Hpg. injection Hpg as <-.
    do 5 (destruct j as [|j]; [injection Hj as <-; reflexivity|]).
    destruct j; discriminate.
  - split; [exact H1|]. split; [exact H2 | exact H3].
Defined.

(** X18: the crash alert is sent inside the [catch] block.  When a step
    throws, no result has failed and the transport throws on the crash
    alert, that exception ends the run: the browser is still closed, last
    of all, but no report is written. *)
Theorem refused_crash_alert_ends_the_run (cwd : jsstring)
  (w : Replayer.World) (l : list Step) (k : nat) (e e' : jsstring) :
  Replayer.loadSteps cwd (Replayer.disk0 w) = Ok l ->
  Replayer.config_missing (Replayer.env w) = false ->
  k < length l ->
  clean_before w l k ->
  early_error (Replayer.at_step w k) = Some e
  \/ (exists live,
        live_of (Replayer.at_step w k) = Some live
        /\ late_crash w l k e) ->
  Replayer.crash_send_result w = Throw e' ->
  let final := snd (Replayer.main cwd w) in
  first_failure 0 (Replayer.results final) = None ->
  fst (Replayer.main cwd w) = Replayer.Uncaught e'
  /\ (exists tr0,
        Replayer.trace final
        = tr0 ++ [Replayer.crash_mail e; BrowserClose]
        /\ sends tr0 = [])
  /\ count_writes (Replayer.REPORT_FILE cwd) (Replayer.trace final) = 0
  /\ forall p, files (Replayer.disk final) p = files (Replayer.disk0 w) p.
Proof.
  intros Hload Hcfg Hk Hclean Hcrash Hsend final Hnone. subst final.
  destruct l as [|s l']; [simpl in Hk; lia|].
  rewrite (main_run cwd w s l' Hload Hcfg) in *.
  assert (Hthrow : fst (Replayer.replay_loop (Replayer.at_step w) 0
                          (s :: l') (loop_start w)) = Throw e).
  { destruct Hcrash as [He | (live & H1 & H2)].
    - exact (proj1 (run_crash_early w (s :: l') k e Hk Hclean He)).
    - exact (proj1 (run_crash_late w (s :: l') k live e Hk Hclean H1 H2)). }
  destruct (loaded_run cwd w (s :: l')) as (Hfin & _).
  cbv zeta in Hfin. rewrite Hfin in Hnone.
  destruct (loop_run (Replayer.at_step w) (s :: l') 0 (loop_start w))
    as (rs & tr & Hres & Htr & Hd & _ & Hlatch).
  destruct (loop_shape (Replayer.at_step w) (s :: l') 0 (loop_start w))
    as (n & tr' & rs' & Htr' & Hb & _).
  change (Replayer.failureEmailSent (loop_start w)) with false in Hlatch.
  change (Replayer.results (loop_start w) ++ rs) with rs in Hres.
  change (Replayer.disk (loop_start w)) with (Replayer.disk0 w) in Hd.
  destruct Hlatch as [Hsends Hlatch].
  rewrite Hres in Hnone. rewrite Hnone in Hlatch, Hsends.
  cbn [is_some alert_of] in Hlatch, Hsends.
  destruct (Replayer.replay_loop (Replayer.at_step w) 0 (s :: l')
              (loop_start w)) as [o st1].
  cbn [fst snd] in *. subst o.
  unfold finish. rewrite Hlatch, Hsend. cbn [fst snd with_events].
  cbn [Replayer.trace Replayer.disk].
  split; [reflexivity|]. split; [|split].
  - exists (Replayer.trace st1). split; [reflexivity|].
    rewrite Htr. unfold loop_start, with_events.
    cbn [Replayer.trace Replayer.initial_state app].
    change (Launch (Replayer.headless (Replayer.env w)) :: tr)
      with ([Launch (Replayer.headless (Replayer.env w))] ++ tr).
    rewrite sends_app, Hsends. reflexivity.
  - unfold with_events. cbn [Replayer.trace].
    rewrite Htr', !count_writes_app.
    assert (Hw : forall t, forallb browsing t = true ->
                   count_writes (Replayer.REPORT_FILE cwd) t = 0).
    { intros t. unfold count_writes. induction t as [|x t IH];
        [reflexivity|].
      cbn [forallb filter]. intros H. apply andb_true_iff in H.
      destruct H as [Hx Ht]. destruct x; try discriminate; exact (IH Ht). }
    rewrite (Hw tr' Hb). reflexivity.
  - intros p. unfold with_events. cbn [Replayer.disk].
    rewrite Hd. reflexivity.
Qed.

(** The navigation of the only step times out and the transport refuses
    the crash alert. *)
Lemma refused_crash_alert_ends_the_run_witness :
  fst (Replayer.main (lit "/work") unreachable_world)
  = Replayer.Uncaught (lit "ECONNREFUSED")
  /\ count_writes (Replayer.REPORT_FILE (lit "/work"))
       (Replayer.trace (snd (Replayer.main (lit "/work") unreachable_world)))
     = 0.
Proof.
  assert (Hload : Replayer.loadSteps (lit "/work")
                    (Replayer.disk0 unreachable_world) = Ok [tiger_step]).
  { vm_compute. reflexivity. }
  assert (Hclean : clean_before unreachable_world [tiger_step] 0).
  { intros j Hj. lia. }
  assert (Hk : 0 < length [tiger_step]) by (simpl; lia).
  destruct (refused_crash_alert_ends_the_run (lit "/work") unreachable_world
              [tiger_step] 0 (lit "Timeout 30000ms exceeded")
              (lit "ECONNREFUSED") Hload eq_refl Hk Hclean
              (or_introl eq_refl) eq_refl)
    as (H1 & _ & H2 & _).
  - vm_compute. reflexivity.
  - split; [exact H1 | exact H2].
Defined.


(** The navigation of step 3 of 5 times out: the navigations are those of
    a prefix of the five steps. *)
Lemma replay_navigates_in_order_witness :
  exists n,
    gotos (Replayer.trace (snd (Replayer.main (lit "/work") timeout_world)))
    = map target_href (firstn n five_steps)
    /\ n <= 5.
Proof.
  assert (Hload : Replayer.loadSteps (lit "/work")
                    (Replayer.disk0 timeout_world) = Ok five_steps).
  { vm_compute. reflexivity. }
  destruct (replay_navigates_in_order (lit "/work") timeout_world five_steps
              Hload) as (n & H1 & H2 & _).
  exists n. split; [exact H1 | exact H2].
Defined.

(* ================================================================== *)
(** * Further properties: init script and mail transport *)
(* ================================================================== *)

Lemma initScript_installed (win : Injected.Window) :
  Injected.recorderInstalled win = true -> Injected.initScript win = win.
Proof. intros H. unfold Injected.initScript. rewrite H. reflexivity. Qed.

Lemma initScript_iter (n : nat) (win : Injected.Window) :
  Nat.iter (S n) Injected.initScript win = Injected.initScript win.
Proof.
  induction n as [|n IH]; [reflexivity|].
  change (Nat.iter (S (S n)) Injected.initScript win)
    with (Injected.initScript (Nat.iter (S n) Injected.initScript win)).
  rewrite IH. apply initScript_installed.
  unfold Injected.initScript.
  destruct (Injected.recorderInstalled win) eqn:E; [exact E | reflexivity].
Qed.

(** X13: the init script installs the click listener once per window.
    However often it runs in a window, the window is as after the first
    run: flagged, with one listener more than before when it was not
    flagged, and unchanged when it was. *)
Theorem init_script_installs_once (n : nat) (win : Injected.Window) :
  let win' := Nat.iter (S n) Injected.initScript win in
  Injected.recorderInstalled win' = true
  /\ (Injected.recorderInstalled win = false ->
      Injected.clickListeners win' = S (Injected.clickListeners win))
  /\ (Injected.recorderInstalled win = true -> win' = win)
  /\ Injected.clickListeners
       (Nat.iter (S n) Injected.initScript Injected.fresh_window) = 1.
Proof.
  cbv zeta. rewrite !initScript_iter. unfold Injected.initScript.
  destruct (Injected.recorderInstalled win) eqn:E.
  - rewrite E. repeat split; try reflexivity; discriminate.
  - repeat split; try reflexivity; discriminate.
Qed.

Lemma sends_nil_no_mail (t : list event) (sub body : jsstring) :
  sends t = [] -> ~ In (SendMail sub body) t.
Proof.
  intros H Hin.
  assert (Hs : In (SendMail sub body) (sends t)).
  { unfold sends. apply filter_In. split; [exact Hin | reflexivity]. }
  rewrite H in Hs. exact Hs.
Qed.

Lemma truthy_opt_some (v : option jsstring) :
  truthy_opt v = true -> exists s, v = Some s /\ s <> [].
Proof.
  destruct v as [[|c s]|]; try discriminate.
  intros _. exists (c :: s). split; [reflexivity | discriminate].
Qed.

(** X19: the replayer and the mail module together.  Whenever a run
    hands a mail to the transport, the transport is built from five
    values that are all present and not empty: the host, the user and the
    password as given, the port as the number [EMAIL_PORT] spells, never
    the default 587, and an unsecured connection; the mail goes to
    [ALERT_TO], from [Replay Bot] with the user as address. *)
Theorem alert_envelope_is_configured (cwd : jsstring) (w : Replayer.World)
  (sub body : jsstring) :
  In (SendMail sub body) (Replayer.trace (snd (Replayer.main cwd w))) ->
  let t := Mailer.createTransport (Replayer.env w) in
  let m := Mailer.message (Replayer.env w) sub body in
  (exists h, Mailer.host t = Some h /\ h <> [])
  /\ (exists p, Replayer.EMAIL_PORT (Replayer.env w) = Some p /\ p <> []
               /\ Mailer.port_option t = Mailer.NumberOfText p)
  /\ Mailer.secure t = false
  /\ (exists u, Mailer.auth_user t = Some u /\ u <> []
               /\ Mailer.from m
                  = dquote :: lit "Replay Bot" ++ dquote :: lit " <"
                    ++ u ++ lit ">")
  /\ (exists pw, Mailer.auth_pass t = Some pw /\ pw <> [])
  /\ (exists r, Mailer.to m = Some r /\ r <> [])
  /\ Mailer.subject m = sub
  /\ Mailer.html m = body.
Proof.
  intros Hin.
  assert (Hcfg : Replayer.config_missing (Replayer.env w) = false).
  { destruct (Replayer.config_missing (Replayer.env w)) eqn:E;
      [|reflexivity].
    destruct (main_early_exit cwd w) as (_ & Hs & _);
      [intros s l _; exact E|].
    destruct (sends_nil_no_mail _ sub body Hs Hin). }
  unfold Replayer.config_missing in Hcfg.
  rewrite !orb_false_iff, !negb_false_iff in Hcfg.
  destruct Hcfg as ((((Hh & Hp) & Hu) & Hpw) & Hr).
  destruct (truthy_opt_some _ Hh) as (h & Eh & Nh).
  destruct (truthy_opt_some _ Hp) as (p & Ep & Np).
  destruct (truthy_opt_some _ Hu) as (u & Eu & Nu).
  destruct (truthy_opt_some _ Hpw) as (pw & Epw & Npw).
  destruct (truthy_opt_some _ Hr) as (r & Er & Nr).
  cbv zeta. unfold Mailer.createTransport, Mailer.message.
  cbn [Mailer.host Mailer.port_option Mailer.secure Mailer.auth_user
       Mailer.auth_pass Mailer.from Mailer.to Mailer.subject Mailer.html].
  rewrite Hp, Eh, Ep, Eu, Epw, Er. cbn [or_empty Replayer.in_template].
  split; [exists h; auto|]. split; [exists p; auto|].
  split; [reflexivity|]. split; [exists u; auto|].
  split; [exists pw; auto|]. split; [exists r; auto|].
  split; reflexivity.
Qed.

(** The alert of the first of three failing steps. *)
Lemma alert_envelope_is_configured_witness :
  exists p,
    Replayer.EMAIL_PORT (Replayer.env beta_world) = Some p /\ p <> []
    /\ Mailer.port_option (Mailer.createTransport (Replayer.env beta_world))
       = Mailer.NumberOfText p.
Proof.
  assert (Hin : In (Replayer.mismatch_mail 0 (alpha_step 1)
                      (extractContent beta_page))
                   (Replayer.trace
                      (snd (Replayer.main (lit "/work") beta_world)))).
  { vm_compute. do 4 right. left. reflexivity. }
  exact (proj1 (proj2
           (alert_envelope_is_configured (lit "/work") beta_world _ _ Hin))).
Defined.

(* ================================================================== *)
(** * Further properties: the older replayer *)
(* ================================================================== *)

Lemma bodies_app (t u : list event) : bodies (t ++ u) = bodies t ++ bodies u.
Proof. apply flat_map_app. Qed.

Ltac norm_legacy :=
  repeat (progress (cbn [Legacy.results Legacy.failureEmailSent Legacy.disk
                         Legacy.trace Replayer.results Replayer.hasMismatch
                         Replayer.failureEmailSent Replayer.disk
                         Replayer.trace fst snd negb andb orb];
                    cbv beta iota)).

(** One step of the two loops: the same outcome, the same result, the
    same latch, the same alert body and the same navigation. *)
Lemma replay_step_same (w : Replayer.StepWorld) (i : nat) (step : Step)
  (a : Legacy.State) (b : Replayer.State) :
  same_point a b ->
  fst (Legacy.replay_step w i step a) = fst (Replayer.replay_step w i step b)
  /\ same_point (snd (Legacy.replay_step w i step a))
       (snd (Replayer.replay_step w i step b)).
Proof.
  intros (Hr & Hs & Hb & Hg).
  destruct a as [rs sent d t]. destruct b as [rs' hm sent' d' t'].
  cbn [Legacy.results Legacy.failureEmailSent Legacy.trace Replayer.results
       Replayer.failureEmailSent Replayer.trace] in Hr, Hs, Hb, Hg.
  subst rs' sent'.
  unfold same_point, Legacy.replay_step, Replayer.replay_step,
    Legacy.sendFailureEmail, Replayer.sendFailureEmail,
    Legacy.set_failureEmailSent, Replayer.set_failureEmailSent,
    Replayer.set_hasMismatch, Legacy.push_result, Replayer.push_result,
    Legacy.emit, Replayer.emit, bind, await, modify, gets, ret.
  destruct (Replayer.goto_result w) as [[]|e1]; norm_legacy;
    [|rewrite !bodies_app, !gotos_app, Hb, Hg; repeat split].
  destruct (Replayer.settle_result w) as [[]|e2]; norm_legacy;
    [|rewrite !bodies_app, !gotos_app, Hb, Hg; repeat split].
  destruct (Replayer.evaluate_result w) as [pg|e3]; norm_legacy;
    [|rewrite !bodies_app, !gotos_app, Hb, Hg; repeat split].
  destruct (jsstring_eqb _ _); norm_legacy;
    [|destruct sent; norm_legacy;
      [|destruct (Replayer.send_result w) as [[]|e4]; norm_legacy]];
    try (destruct (Replayer.pause_result w) as [[]|e5]; norm_legacy);
    rewrite !bodies_app, !gotos_app, Hb, Hg; repeat split.
Qed.

Lemma replay_loop_same (at_step : nat -> Replayer.StepWorld) (l : list Step) :
  forall (i : nat) (a : Legacy.State) (b : Replayer.State),
  same_point a b ->
  fst (Legacy.replay_loop at_step i l a)
  = fst (Replayer.replay_loop at_step i l b)
  /\ same_point (snd (Legacy.replay_loop at_step i l a))
       (snd (Replayer.replay_loop at_step i l b)).
Proof.
  induction l as [|step rest IH]; intros i a b H; [split; [reflexivity|exact H]|].
  rewrite replay_loop_cons.
  change (Legacy.replay_loop at_step i (step :: rest) a)
    with (match Legacy.replay_step (at_step i) i step a with
          | (Ok _, a1) => Legacy.replay_loop at_step (S i) rest a1
          | (Throw e, a1) => (Throw e, a1)
          end).
  destruct (replay_step_same (at_step i) i step a b H) as [Ho Hp].
  destruct (Legacy.replay_step (at_step i) i step a) as [oa a1].
  destruct (Replayer.replay_step (at_step i) i step b) as [ob b1].
  cbn [fst snd] in Ho, Hp. subst ob.
  destruct oa as [[]|e]; [apply IH; exact Hp|].
  split; [reflexivity | exact Hp].
Qed.

Lemma legacy_main_run (cwd : jsstring) (w : Replayer.World) (s : Step)
  (l : list Step) :
  Legacy.loadSteps cwd (Replayer.disk0 w) = Ok (s :: l) ->
  Legacy.main cwd w
  = match Legacy.replay_loop (Replayer.at_step w) 0 (s :: l)
            (legacy_loop_start w) with
    | (Ok _, a1) => (Replayer.Completed, legacy_reported cwd a1 [])
    | (Throw e, a1) =>
        if Legacy.failureEmailSent a1
        then (Replayer.Completed, legacy_reported cwd a1 [])
        else
          match Replayer.crash_send_result w with
          | Ok _ =>
              (Replayer.Completed,
               legacy_reported cwd a1 [legacy_crash_mail])
          | Throw e' =>
              (Replayer.Uncaught e',
               Legacy.mkState (Legacy.results a1) (Legacy.failureEmailSent a1)
                 (Legacy.disk a1)
                 (Legacy.trace a1 ++ [legacy_crash_mail; BrowserClose]))
          end
    end.
Proof.
  intros Hload. unfold Legacy.main. rewrite Hload.
  unfold Legacy.replay, try_catch_finally, bind at 1 2.
  unfold Legacy.emit at 1, modify at 1. unfold Legacy.initial_state.
  cbn [Legacy.results Legacy.failureEmailSent Legacy.disk Legacy.trace].
  change ([] ++ [Launch false]) with [Launch false].
  fold (legacy_loop_start w).
  destruct (Legacy.replay_loop (Replayer.at_step w) 0 (s :: l)
              (legacy_loop_start w)) as [[[]|e] a1].
  - unfold Legacy.emit, bind, modify, gets, legacy_reported. norm_legacy.
    rewrite <- !app_assoc. reflexivity.
  - unfold Legacy.on_crash, Legacy.sendFailureEmail, Legacy.emit,
      bind, modify, gets, await, ret, legacy_reported.
    norm_legacy.
    destruct (Legacy.failureEmailSent a1) eqn:Hsent; norm_legacy.
    + rewrite ?Hsent, <- !app_assoc. reflexivity.
    + destruct (Replayer.crash_send_result w) as [[]|e']; norm_legacy;
        rewrite ?Hsent, <- !app_assoc; reflexivity.
Qed.

(** X20: the older replayer kept beside the recorder and the current one,
    given the same steps and the same world, where the current one
    accepts its configuration.  They record the same results and navigate
    to the same addresses; they hand the same number of mails to the
    transport, with the same body when a result failed (the subjects
    differ, and so does the body of a crash alert); and, for a non-empty
    sequence, they end the same way. *)
Theorem both_replayers_same_verdicts (cwd : jsstring) (w : Replayer.World)
  (l : list Step) :
  Legacy.loadSteps cwd (Replayer.disk0 w) = Ok l ->
  Replayer.loadSteps cwd (Replayer.disk0 w) = Ok l ->
  Replayer.config_missing (Replayer.env w) = false ->
  let old := Legacy.main cwd w in
  let new := Replayer.main cwd w in
  Legacy.results (snd old) = Replayer.results (snd new)
  /\ gotos (Legacy.trace (snd old)) = gotos (Replayer.trace (snd new))
  /\ length (bodies (Legacy.trace (snd old)))
     = length (bodies (Replayer.trace (snd new)))
  /\ (first_failure 0 (Replayer.results (snd new)) <> None ->
      bodies (Legacy.trace (snd old)) = bodies (Replayer.trace (snd new)))
  /\ (l <> [] -> fst old = fst new).
Proof.
  intros HloadL HloadC Hcfg old new. subst old new.
  destruct l as [|s l].
  - unfold Legacy.main, Replayer.main. rewrite HloadL, HloadC. cbn.
    repeat split; try reflexivity. intros H. contradiction.
  - rewrite (main_run cwd w s l HloadC Hcfg).
    rewrite (legacy_main_run cwd w s l HloadL).
    assert (H0 : same_point (legacy_loop_start w) (loop_start w)).
    { repeat split. }
    destruct (replay_loop_same (Replayer.at_step w) (s :: l) 0 _ _ H0)
      as [Ho Hp].
    destruct (loop_run (Replayer.at_step w) (s :: l) 0 (loop_start w))
      as (rs & tr & Hres & _ & _ & _ & Hlatch).
    change (Replayer.failureEmailSent (loop_start w)) with false in Hlatch.
    change (Replayer.results (loop_start w) ++ rs) with rs in Hres.
    destruct Hlatch as [_ Hlatch].
    destruct (Legacy.replay_loop (Replayer.at_step w) 0 (s :: l)
                (legacy_loop_start w)) as [oa a1].
    destruct (Replayer.replay_loop (Replayer.at_step w) 0 (s :: l)
                (loop_start w)) as [ob b1].
    cbn [fst snd] in Ho, Hp, Hres, Hlatch. subst ob.
    destruct Hp as (Hr & Hs & Hb & Hg).
    destruct oa as [[]|e]; unfold finish.
    + unfold legacy_reported, reported. norm_legacy.
      rewrite !bodies_app, !gotos_app, Hb, Hg, Hr. cbn.
      rewrite !app_nil_r. repeat split; reflexivity.
    + rewrite Hs.
      destruct (Replayer.failureEmailSent b1) eqn:Hsent.
      * unfold legacy_reported, reported. norm_legacy.
        rewrite !bodies_app, !gotos_app, Hb, Hg, Hr. cbn.
        rewrite !app_nil_r. repeat split; reflexivity.
      * assert (Hnone : first_failure 0 (Replayer.results b1) = None).
        { rewrite Hres.
          destruct (first_failure 0 rs); [discriminate | reflexivity]. }
        destruct (Replayer.crash_send_result w) as [[]|e'];
          unfold legacy_reported, reported, with_events; norm_legacy;
          rewrite !bodies_app, !gotos_app, Hb, Hg, Hr, ?length_app; cbn;
          rewrite ?app_nil_r, ?length_app; cbn;
          (split; [reflexivity|]); (split; [reflexivity|]);
          (split; [lia|]);
          (split; [intros H; contradiction | reflexivity]).
Qed.

(** Three failing steps, in both stores. *)
Lemma both_replayers_same_verdicts_witness :
  Legacy.results (snd (Legacy.main (lit "/work") twin_world))
  = Replayer.results (snd (Replayer.main (lit "/work") twin_world))
  /\ gotos (Legacy.trace (snd (Legacy.main (lit "/work") twin_world)))
     = gotos (Replayer.trace (snd (Replayer.main (lit "/work") twin_world))).
Proof.
  assert (H1 : Legacy.loadSteps (lit "/work") (Replayer.disk0 twin_world)
               = Ok alpha_steps).
  { vm_compute. reflexivity. }
  assert (H2 : Replayer.loadSteps (lit "/work") (Replayer.disk0 twin_world)
               = Ok alpha_steps).
  { vm_compute. reflexivity. }
  assert (H3 : Replayer.config_missing (Replayer.env twin_world) = false).
  { vm_compute. reflexivity. }
  destruct (both_replayers_same_verdicts (lit "/work") twin_world alpha_steps
              H1 H2 H3) as (Ha & Hb & _).
  split; [exact Ha | exact Hb].
Defined.

Lemma legacy_store_foreign (cwd : jsstring) :
  foreign cwd (Legacy.OUT_FILE cwd) = true.
Proof.
  unfold foreign, Legacy.OUT_FILE, Legacy.OUT_DIR, Recorder.OUT_FILE,
    Recorder.OUT_DIR, path_join.
  rewrite <- !app_assoc, !jsstring_eqb_app_l. reflexivity.
Qed.

Lemma legacy_load_absent (cwd : jsstring) (d : FileSystem) :
  existsSync (Legacy.OUT_FILE cwd) d = false ->
  Legacy.loadSteps cwd d
  = Throw (Legacy.OUT_FILE cwd ++ lit " not found. Run recorder first.").
Proof. intros H. unfold Legacy.loadSteps. rewrite H. reflexivity. Qed.

(** X21: the older replayer does not read what the recorder writes.
    After a recording that started well, on a file system that had no
    [steps/steps.json], the store of the recorder exists and the file the
    older replayer reads still does not: its load throws, nothing catches
    the exception, and no browser is launched. *)
Theorem older_replayer_misses_the_recording (cwd : jsstring)
  (w0 : Recorder.StartWorld) (d : FileSystem) (hs : list happening)
  (w : Replayer.World) :
  fst (Recorder.main cwd w0 (Recorder.initial_state d)) = Ok tt ->
  existsSync (Legacy.OUT_FILE cwd) d = false ->
  let st := session cwd hs
              (snd (Recorder.main cwd w0 (Recorder.initial_state d))) in
  Replayer.disk0 w = Recorder.disk st ->
  existsSync (Replayer.OUT_FILE cwd) (Recorder.disk st) = true
  /\ existsSync (Legacy.OUT_FILE cwd) (Recorder.disk st) = false
  /\ fst (Legacy.main cwd w)
     = Replayer.Uncaught
         (Legacy.OUT_FILE cwd ++ lit " not found. Run recorder first.")
  /\ Legacy.trace (snd (Legacy.main cwd w)) = [].
Proof.
  intros Hok Habs st Hw.
  destruct (recording_facts cwd w0 d hs Hok) as [Hsync _].
  fold st in Hsync.
  pose proof (legacy_store_foreign cwd) as Hf.
  destruct (start_frame cwd w0 d _ Hf) as [H1 _].
  destruct (session_frame cwd hs _ Hf
              (snd (Recorder.main cwd w0 (Recorder.initial_state d))))
    as [H2 _].
  fold st in H2. cbn [Recorder.initial_state Recorder.disk] in H1.
  assert (Hmiss : existsSync (Legacy.OUT_FILE cwd) (Recorder.disk st) = false)
    by congruence.
  split.
  - unfold existsSync. rewrite <- same_store_path.
    unfold in_sync in Hsync. rewrite Hsync. reflexivity.
  - split; [exact Hmiss|].
    unfold Legacy.main. rewrite Hw, (legacy_load_absent cwd _ Hmiss).
    split; reflexivity.
Qed.

Lemma calm_world_disk (e : Replayer.Env) (d : FileSystem) :
  Replayer.disk0 (calm_world e d) = d.
Proof. reflexivity. Qed.

(** The recording session of the tiger page, started on an empty file
    system. *)
Lemma older_replayer_misses_the_recording_witness :
  existsSync (Legacy.OUT_FILE (lit "/work"))
    (Recorder.disk
       (session (lit "/work") tiger_session
          (snd (Recorder.main (lit "/work") tiger_start
                  (Recorder.initial_state empty_fs))))) = false.
Proof.
  assert (H1 : fst (Recorder.main (lit "/work") tiger_start
                      (Recorder.initial_state empty_fs)) = Ok tt).
  { vm_compute. reflexivity. }
  assert (H2 : existsSync (Legacy.OUT_FILE (lit "/work")) empty_fs = false).
  { vm_compute. reflexivity. }
  destruct (older_replayer_misses_the_recording (lit "/work") tiger_start
              empty_fs tiger_session
              (calm_world full_env
                 (Recorder.disk
                    (session (lit "/work") tiger_session
                       (snd (Recorder.main (lit "/work") tiger_start
                               (Recorder.initial_state empty_fs))))))
              H1 H2 (calm_world_disk full_env _)) as (_ & H & _).
  exact H.
Defined.

(** X22: how the older replayer ends where the current one exits.  An
    absent file is an uncaught exception with the path in its message; an
    empty sequence ends [main] normally; in both cases no browser is
    launched.  And when the loop throws and no alert was sent, the crash
    alert is the same mail whatever the error was, after which the
    browser is closed. *)
Theorem legacy_endings (cwd : jsstring) (w : Replayer.World) :
  (existsSync (Legacy.OUT_FILE cwd) (Replayer.disk0 w) = false ->
   fst (Legacy.main cwd w)
   = Replayer.Uncaught
       (Legacy.OUT_FILE cwd ++ lit " not found. Run recorder first.")
   /\ Legacy.trace (snd (Legacy.main cwd w)) = [])
  /\ (Legacy.loadSteps cwd (Replayer.disk0 w) = Ok [] ->
      fst (Legacy.main cwd w) = Replayer.Completed
      /\ Legacy.trace (snd (Legacy.main cwd w)) = [])
  /\ (forall (s : Step) (l : list Step) (e : jsstring) (a1 : Legacy.State),
        Legacy.loadSteps cwd (Replayer.disk0 w) = Ok (s :: l) ->
        Legacy.replay_loop (Replayer.at_step w) 0 (s :: l)
          (legacy_loop_start w) = (Throw e, a1) ->
        Legacy.failureEmailSent a1 = false ->
        exists tail,
          Legacy.trace (snd (Legacy.main cwd w))
          = Legacy.trace a1 ++ legacy_crash_mail :: tail
          /\ In BrowserClose tail).
Proof.
  split; [|split].
  - intros H. unfold Legacy.main. rewrite (legacy_load_absent cwd _ H).
    split; reflexivity.
  - intros H. unfold Legacy.main. rewrite H. split; reflexivity.
  - intros s l e a1 Hload Hloop Hsent.
    rewrite (legacy_main_run cwd w s l Hload), Hloop, Hsent.
    destruct (Replayer.crash_send_result w) as [[]|e'];
      cbn [snd legacy_reported Legacy.trace app];
      eexists; (split; [reflexivity|]); simpl; auto.
Qed.
